(** * duck: the target orchestration engine, embedded and verified

    A shallow embedding of the Go sources of [mad-weaver/duck]:
    the failure-policy state machine of [target.Run], the dependency walk of
    [duck.RunTarget], the document resolver ([CompileTargets], [LoadDuckfile],
    [GetDuckfiles] and its handlers) and the daemon loop of [cmd.DefaultApp].

    Conventions of the embedding.
    - A Go function returning [error] that can reach [os.Exit] returns an
      [Outcome]: [Nil], [Error e], or [Exit code] when the call ended in
      [os.Exit(code)]; one that cannot returns an [option error], and one
      returning [(T, error)] a [Result T].
    - Go maps are [gmap]s, in-place mutation is explicit state passing.
    - The plugins behind the [Check] and [Action] interfaces are opaque: they
      act on an arbitrary world [W].
    - [context.Context] is a countdown of the polls that still see it alive.
    - [slog] calls are kept only as the ghost [Event] log of a process. *)

From Stdlib Require Import ZArith Ascii String.
From stdpp Require Import gmap strings list fin_maps.

#[local] Set Warnings "-clear-no-such-hyp".

Open Scope string_scope.
Open Scope list_scope.

(** ** Go runtime *)

(** A non-nil [error] value; [fmt.Errorf] builds its message. *)
Definition error := string.

(** What a call returning [error] can do: return nil, return an error, or never
    return because [os.Exit] ended the process. *)
Inductive Outcome :=
| Nil
| Error (e : error)
| Exit (code : Z).

Global Instance Outcome_eq_dec : EqDecision Outcome.
Proof. solve_decision. Defined.

(** [(T, error)] results. *)
Inductive Result (T : Type) :=
| Ok (v : T)
| Err (e : error).
Arguments Ok {T} v.
Arguments Err {T} e.

(** [context.Context]: [None] is never cancelled, [Some n] is cancelled after
    [n] more polls of [ctx.Err()], so that cancellation can arrive between any
    two steps of the engine. *)
Definition Context := option nat.

Definition context_canceled : error := "context canceled".

Definition ctx_Err (ctx : Context) : option error * Context :=
  match ctx with
  | None => (None, None)
  | Some 0 => (Some context_canceled, Some 0)
  | Some (S n) => (None, Some n)
  end.

(** [fmt.Errorf("msg: %w", err)] *)
Definition wrap (msg : string) (err : error) : error := msg +:+ ": " +:+ err.

(** [strings.HasPrefix], [strings.HasSuffix], [strings.TrimPrefix],
    [strings.Contains] *)
Definition HasPrefix (s p : string) : bool := String.prefix p s.

Definition HasSuffix (s suffix : string) : bool :=
  (String.length suffix <=? String.length s)%nat &&
  String.eqb (String.substring (String.length s - String.length suffix)
                               (String.length suffix) s) suffix.

Definition TrimPrefix (s p : string) : string :=
  if HasPrefix s p
  then String.substring (String.length p) (String.length s - String.length p) s
  else s.

Fixpoint Contains (s sub : string) : bool :=
  String.prefix sub s ||
  match s with
  | EmptyString => false
  | String _ s' => Contains s' sub
  end.

(** ** The ghost log of a process *)

Inductive Event :=
| EvRun (id : string)                 (* the body of a target starts *)
| EvCheck (id : string) (k : nat)     (* Execute of the k-th check of a target *)
| EvAction (id : string) (k : nat)    (* Execute of the k-th action of a target *)
| EvPrintln (s : string).             (* fmt.Println *)

Global Instance Event_eq_dec : EqDecision Event.
Proof. solve_decision. Defined.

(** ** package checks *)
Module checks.

Record Config := {
  Invert : bool;
  CancelOnFailure : option bool;    (* *bool: nil is None *)
  ExitOnFailure : option bool;
}.

(** The [Check] interface over a world [W]: [Execute] runs the check,
    [Check_] reads its state, [GetConfig] returns its configuration. *)
Record Check (W : Type) := {
  Execute : Context -> W -> option error * W;
  Check_ : W -> bool;
  GetConfig : Config;
}.
Arguments Execute {W} _ _ _.
Arguments Check_ {W} _ _.
Arguments GetConfig {W} _.

End checks.

(** ** package actions *)
Module actions.

Record Config := {
  CancelOnFailure : option bool;
  ExitOnFailure : option bool;
}.

Record Action (W : Type) := {
  Execute : Context -> W -> option error * W;
  GetConfig : Config;
}.
Arguments Execute {W} _ _ _.
Arguments GetConfig {W} _.

End actions.

(** The ambient state of the running process. *)
Record Proc (W : Type) := {
  ctx : Context;
  world : W;
  events : list Event;
}.
Arguments ctx {W} _.
Arguments world {W} _.
Arguments events {W} _.

Section proc.
Context {W : Type}.

Definition set_ctx (c : Context) (p : Proc W) : Proc W :=
  {| ctx := c; world := world p; events := events p |}.

Definition set_world (w : W) (p : Proc W) : Proc W :=
  {| ctx := ctx p; world := w; events := events p |}.

Definition emit (e : Event) (p : Proc W) : Proc W :=
  {| ctx := ctx p; world := world p; events := events p ++ [e] |}.

(** The same process with the log [ev] before its own, and with no log. *)
Definition after_log (ev : list Event) (p : Proc W) : Proc W :=
  {| ctx := ctx p; world := world p; events := ev ++ events p |}.

Definition unlogged (p : Proc W) : Proc W :=
  {| ctx := ctx p; world := world p; events := [] |}.

(** [ctx.Err()] in a process *)
Definition poll (p : Proc W) : option error * Proc W :=
  let '(err, c) := ctx_Err (ctx p) in (err, set_ctx c p).

End proc.

(** ** package target *)
Module target.

Record Config := {
  CancelOnCheckFailure : option bool;
  CancelOnActionFailure : option bool;
  ExitOnCheckFailure : option bool;
  ExitOnActionFailure : option bool;
}.

Record Target (W : Type) := {
  Id : string;
  Checks : list (checks.Check W);
  Actions : list (actions.Action W);
  Cleared : bool;
  Config_ : Config;
  Dependencies : list string;
}.
Arguments Id {W} _.
Arguments Checks {W} _.
Arguments Actions {W} _.
Arguments Cleared {W} _.
Arguments Config_ {W} _.
Arguments Dependencies {W} _.

(** The policy resolution in the words of the specification: the item's
    override if it is set, else the target's default if it is set, else
    [false]. *)
Definition effective (item_override target_default : option bool) : bool :=
  match item_override with
  | Some b => b
  | None =>
    match target_default with
    | Some b => b
    | None => false
    end
  end.

(** The events of the checks, and of the actions, [k, k+n) of target [id]. *)
Definition check_events (id : string) (k n : nat) : list Event :=
  EvCheck id <$> seq k n.
Definition action_events (id : string) (k n : nat) : list Event :=
  EvAction id <$> seq k n.

Section run.
Context {W : Type}.

Definition set_Cleared (b : bool) (t : Target W) : Target W :=
  {| Id := Id t; Checks := Checks t; Actions := Actions t; Cleared := b;
     Config_ := Config_ t; Dependencies := Dependencies t |}.

(** [*b] for a non-nil [*bool]; the guards below never read a nil one. *)
Definition deref (b : option bool) : bool := default false b.

(** [(chkcfg.ExitOnFailure != nil && *chkcfg.ExitOnFailure) ||
     (chkcfg.ExitOnFailure == nil && t.Config.ExitOnCheckFailure != nil &&
      *t.Config.ExitOnCheckFailure)] *)
Definition check_shouldExit (chkcfg : checks.Config) (t : Target W) : bool :=
  (bool_decide (checks.ExitOnFailure chkcfg ≠ None) &&
   deref (checks.ExitOnFailure chkcfg)) ||
  (bool_decide (checks.ExitOnFailure chkcfg = None) &&
   bool_decide (ExitOnCheckFailure (Config_ t) ≠ None) &&
   deref (ExitOnCheckFailure (Config_ t))).

Definition check_shouldCancel (chkcfg : checks.Config) (t : Target W) : bool :=
  (bool_decide (checks.CancelOnFailure chkcfg ≠ None) &&
   deref (checks.CancelOnFailure chkcfg)) ||
  (bool_decide (checks.CancelOnFailure chkcfg = None) &&
   bool_decide (CancelOnCheckFailure (Config_ t) ≠ None) &&
   deref (CancelOnCheckFailure (Config_ t))).

Definition action_shouldExit (actioncfg : actions.Config) (t : Target W) : bool :=
  (bool_decide (actions.ExitOnFailure actioncfg ≠ None) &&
   deref (actions.ExitOnFailure actioncfg)) ||
  (bool_decide (actions.ExitOnFailure actioncfg = None) &&
   bool_decide (ExitOnActionFailure (Config_ t) ≠ None) &&
   deref (ExitOnActionFailure (Config_ t))).

Definition action_shouldCancel (actioncfg : actions.Config) (t : Target W) : bool :=
  (bool_decide (actions.CancelOnFailure actioncfg ≠ None) &&
   deref (actions.CancelOnFailure actioncfg)) ||
  (bool_decide (actions.CancelOnFailure actioncfg = None) &&
   bool_decide (CancelOnActionFailure (Config_ t) ≠ None) &&
   deref (CancelOnActionFailure (Config_ t))).

(** Control after one pass of a loop body: go on, or [return]. *)
Inductive Ctl := Next | Return (o : Outcome).

(** [for _, check := range t.Checks], from the [k]-th check on *)
Fixpoint checks_loop (k : nat) (cs : list (checks.Check W))
         (t : Target W) (p : Proc W) : Ctl * Target W * Proc W :=
  match cs with
  | [] => (Next, t, p)
  | check :: cs' =>
    let p := emit (EvCheck (Id t) k) p in
    let '(err, w) := checks.Execute check (ctx p) (world p) in
    let p := set_world w p in
    match err with
    | Some e => (Return (Error e), t, p)
    | None =>
      let chkcfg := checks.GetConfig check in
      if negb (checks.Check_ check (world p)) then
        let shouldExit := check_shouldExit chkcfg t in
        if shouldExit then (Return (Exit 1), t, p)
        else
          let shouldCancel := check_shouldCancel chkcfg t in
          if shouldCancel
          then (Return (Error "check failed, cancelling run"), t, p)
          else (Return Nil, set_Cleared true t, p)
      else checks_loop (S k) cs' t p
    end
  end.

(** [for _, action := range t.Actions], from the [k]-th action on *)
Fixpoint actions_loop (k : nat) (acts : list (actions.Action W))
         (t : Target W) (p : Proc W) : Ctl * Target W * Proc W :=
  match acts with
  | [] => (Next, t, p)
  | action :: acts' =>
    let p := emit (EvAction (Id t) k) p in
    let '(err, w) := actions.Execute action (ctx p) (world p) in
    let p := set_world w p in
    match err with
    | Some _ =>
      let actioncfg := actions.GetConfig action in
      let shouldExit := action_shouldExit actioncfg t in
      if shouldExit then (Return (Exit 1), t, p)
      else
        let shouldCancel := action_shouldCancel actioncfg t in
        if shouldCancel
        then (Return (Error "action failed, cancelling run"), t, p)
        else (Return Nil, set_Cleared true t, p)
    | None => actions_loop (S k) acts' t p
    end
  end.

(** [func (t *Target) Run(ctx context.Context) error]; the mutex only
    guards against concurrent callers and the engine has none. *)
Definition Run (t : Target W) (p : Proc W) : Outcome * Target W * Proc W :=
  if Cleared t then (Nil, t, p)
  else
    let '(err, p) := poll p in
    match err with
    | Some _ =>
      (Error "context cancelled, likely by termination signal/interrupt", t, p)
    | None =>
      let p := emit (EvRun (Id t)) p in
      match checks_loop 0 (Checks t) t p with
      | (Return o, t, p) => (o, t, p)
      | (Next, t, p) =>
        match actions_loop 0 (Actions t) t p with
        | (Return o, t, p) => (o, t, p)
        | (Next, t, p) => (Nil, set_Cleared true t, p)
        end
      end
    end.

(** The checks [cs] taken in their order from the world [w] under the
    context [cx]: the world they leave when each one executes without an
    error, in the world the one before it left, and passes there. *)
Fixpoint checks_pass (cx : Context) (cs : list (checks.Check W)) (w : W)
  : option W :=
  match cs with
  | [] => Some w
  | check :: cs' =>
    match checks.Execute check cx w with
    | (None, w') => if checks.Check_ check w' then checks_pass cx cs' w' else None
    | (Some _, _) => None
    end
  end.

(** The same for actions that each execute without an error. *)
Fixpoint actions_succeed (cx : Context) (acts : list (actions.Action W)) (w : W)
  : option W :=
  match acts with
  | [] => Some w
  | action :: acts' =>
    match actions.Execute action cx w with
    | (None, w') => actions_succeed cx acts' w'
    | (Some _, _) => None
    end
  end.

End run.

(** *** [NewTarget], [LoadCheck] and [LoadAction]

    What they consume from outside this package: koanf, the hydration of a
    struct by [confighelper.Load], and the constructors of the plugin
    packages. *)
Record Loaders (W K : Type) := {
  Load : K -> Result (Target W);        (* configHelper.Load(t, k, "", "mapstructure") *)
  Slices : K -> string -> list K;
  String_ : K -> string -> string;
  dummycheck_NewCheck : Context -> K -> Result (checks.Check W);
  filecheck_NewCheck : Context -> K -> Result (checks.Check W);
  croncheck_NewCheck : Context -> K -> Result (checks.Check W);
  localstatecheck_NewCheck : Context -> K -> Result (checks.Check W);
  shellcheck_NewCheck : Context -> K -> Result (checks.Check W);
  restcheck_NewCheck : Context -> K -> Result (checks.Check W);
  dummyaction_NewAction : Context -> K -> Result (actions.Action W);
  printaction_NewAction : Context -> K -> Result (actions.Action W);
  sleepaction_NewAction : Context -> K -> Result (actions.Action W);
  localstateaction_NewAction : Context -> K -> Result (actions.Action W);
  restaction_NewAction : Context -> K -> Result (actions.Action W);
  shellaction_NewAction : Context -> K -> Result (actions.Action W);
  templateaction_NewAction : Context -> K -> Result (actions.Action W);
}.
Arguments Load {W K} _ _.
Arguments Slices {W K} _ _ _.
Arguments String_ {W K} _ _ _.
Arguments dummycheck_NewCheck {W K} _ _ _.
Arguments filecheck_NewCheck {W K} _ _ _.
Arguments croncheck_NewCheck {W K} _ _ _.
Arguments localstatecheck_NewCheck {W K} _ _ _.
Arguments shellcheck_NewCheck {W K} _ _ _.
Arguments restcheck_NewCheck {W K} _ _ _.
Arguments dummyaction_NewAction {W K} _ _ _.
Arguments printaction_NewAction {W K} _ _ _.
Arguments sleepaction_NewAction {W K} _ _ _.
Arguments localstateaction_NewAction {W K} _ _ _.
Arguments restaction_NewAction {W K} _ _ _.
Arguments shellaction_NewAction {W K} _ _ _.
Arguments templateaction_NewAction {W K} _ _ _.

Section hydrate.
Context {W K : Type} (ld : Loaders W K).

Definition set_Checks (cs : list (checks.Check W)) (t : Target W) : Target W :=
  {| Id := Id t; Checks := cs; Actions := Actions t; Cleared := Cleared t;
     Config_ := Config_ t; Dependencies := Dependencies t |}.

Definition set_Actions (acts : list (actions.Action W)) (t : Target W) : Target W :=
  {| Id := Id t; Checks := Checks t; Actions := acts; Cleared := Cleared t;
     Config_ := Config_ t; Dependencies := Dependencies t |}.

(** [func (t *Target) LoadCheck]; it does not read its receiver. *)
Definition LoadCheck (ctx : Context) (k : K) : Result (checks.Check W) :=
  let type := String_ ld k "type" in
  if String.eqb type "dummy" then dummycheck_NewCheck ld ctx k
  else if String.eqb type "file" then filecheck_NewCheck ld ctx k
  else if String.eqb type "cron" then croncheck_NewCheck ld ctx k
  else if String.eqb type "localstate" then localstatecheck_NewCheck ld ctx k
  else if String.eqb type "shell" then shellcheck_NewCheck ld ctx k
  else if String.eqb type "rest" then restcheck_NewCheck ld ctx k
  else Err ("unknown check type: " +:+ String_ ld k "type").

(** [func (t *Target) LoadAction] *)
Definition LoadAction (ctx : Context) (k : K) : Result (actions.Action W) :=
  let type := String_ ld k "type" in
  if String.eqb type "dummy" then dummyaction_NewAction ld ctx k
  else if String.eqb type "print" then printaction_NewAction ld ctx k
  else if String.eqb type "sleep" then sleepaction_NewAction ld ctx k
  else if String.eqb type "localstate" then localstateaction_NewAction ld ctx k
  else if String.eqb type "rest" then restaction_NewAction ld ctx k
  else if String.eqb type "shell" then shellaction_NewAction ld ctx k
  else if String.eqb type "template" then templateaction_NewAction ld ctx k
  else Err ("unknown action type: " +:+ String_ ld k "type").

(** [for _, check := range k.Slices("checks")] *)
Fixpoint NewTarget_checks (ctx : Context) (slices : list K) (t : Target W)
  : Result (Target W) :=
  match slices with
  | [] => Ok t
  | check :: slices' =>
    match LoadCheck ctx check with
    | Err err => Err err
    | Ok check => NewTarget_checks ctx slices' (set_Checks (Checks t ++ [check]) t)
    end
  end.

(** [for _, action := range k.Slices("actions")] *)
Fixpoint NewTarget_actions (ctx : Context) (slices : list K) (t : Target W)
  : Result (Target W) :=
  match slices with
  | [] => Ok t
  | action :: slices' =>
    match LoadAction ctx action with
    | Err err => Err err
    | Ok action => NewTarget_actions ctx slices' (set_Actions (Actions t ++ [action]) t)
    end
  end.

(** [NewTarget] *)
Definition NewTarget (ctx : Context) (k : K) : Result (Target W) :=
  match Load ld k with
  | Err err => Err err
  | Ok t =>
    match NewTarget_checks ctx (Slices ld k "checks") t with
    | Err err => Err err
    | Ok t => NewTarget_actions ctx (Slices ld k "actions") t
    end
  end.

End hydrate.

End target.

(** ** package duck *)
Module duck.

(** [url.URL], the fields the resolver reads and writes *)
Record URL := {
  Scheme : string;
  Host : string;
  Path : string;
  RawQuery : string;
}.

(** [U+0A7A], the koanf key delimiter *)
Definition ModifiedColon : string :=
  String "224"%char (String "169"%char (String "186"%char EmptyString)).

(** An [io.Reader]: the bytes it yields, or the failure of reading it. *)
Definition Reader := Result string.
Definition io_ReadAll (r : Reader) : Result string := r.

(** [*blob.Bucket]. [List] is the iterator of a listing: each [Next] gives
    an object key or fails, and the end of the list is [io.EOF]. *)
Record Bucket := {
  List : string -> list (Result string);
  Exists : string -> Result bool;
  NewReader : string -> Result Reader;
}.

Record Config := {
  Files : list string;
  ListTargets_ : bool;
  Target_ : string;
  Daemon : bool;
  DaemonInterval : Z;
  DaemonIterations : Z;
  DaemonTimeout : Z;
}.

(** What the resolver consumes from outside this repository's sources:
    [net/url], [path/filepath], [os], [net/http], [gocloud.dev/blob], koanf
    with its YAML parser, and the hydration of a target from its koanf tree
    ([target.NewTarget], whose [confighelper] is not part of the sources). *)
Record Env (W : Type) := {
  Koanf : Type;
  url_Parse : string -> Result URL;
  url_String : URL -> string;
  filepath_Abs : string -> Result string;
  filepath_Join : string -> string -> string;
  os_Stat : string -> Result bool;                    (* IsDir *)
  os_ReadDir : string -> Result (list (string * bool)); (* Name, IsDir *)
  blob_OpenBucket : string -> Result Bucket;
  http_Get : string -> Result Reader;
  koanf_Load_file : string -> Result Koanf;           (* file.Provider, yaml.Parser *)
  koanf_Load_bytes : string -> Result Koanf;          (* rawbytes.Provider, yaml.Parser *)
  MapKeys : Koanf -> string -> list string;
  Strings : Koanf -> string -> list string;
  Cut : Koanf -> string -> Koanf;
  Set_ : Koanf -> string -> string -> Koanf;
  NewTarget : Context -> Koanf -> Result (target.Target W);
}.
Arguments Koanf {W} _.
Arguments url_Parse {W} _ _.
Arguments url_String {W} _ _.
Arguments filepath_Abs {W} _ _.
Arguments filepath_Join {W} _ _ _.
Arguments os_Stat {W} _ _.
Arguments os_ReadDir {W} _ _.
Arguments blob_OpenBucket {W} _ _.
Arguments http_Get {W} _ _.
Arguments koanf_Load_file {W} _ _.
Arguments koanf_Load_bytes {W} _ _.
Arguments MapKeys {W} _ _ _.
Arguments Strings {W} _ _ _.
Arguments Cut {W} _ _ _.
Arguments Set_ {W} _ _ _ _.
Arguments NewTarget {W} _ _ _.

Record Duck (W : Type) := {
  Config_ : Config;
  Duckfiles : gmap string URL;
  Targets : gmap string (target.Target W);
}.
Arguments Config_ {W} _.
Arguments Duckfiles {W} _.
Arguments Targets {W} _.

(** [isDuckfile] *)
Definition isDuckfile (filename : string) : bool :=
  HasSuffix filename ".Duckfile" ||
  HasSuffix filename ".duck" ||
  HasSuffix filename ".duckfile" ||
  HasSuffix filename ".duck.yaml" ||
  HasSuffix filename ".duck.yml" ||
  String.eqb filename "Duckfile".

Section resolver.
Context {W : Type} (env : Env W).

Definition set_Duckfiles (m : gmap string URL) (d : Duck W) : Duck W :=
  {| Config_ := Config_ d; Duckfiles := m; Targets := Targets d |}.

Definition set_Targets (m : gmap string (target.Target W)) (d : Duck W) : Duck W :=
  {| Config_ := Config_ d; Duckfiles := Duckfiles d; Targets := m |}.

(** [handleFileURL]: the directory loop *)
Fixpoint handleFileURL_files (u : URL) (files : list (string * bool))
         (extracted : list URL) : list URL :=
  match files with
  | [] => extracted
  | (filename, isDir) :: files' =>
    if negb isDir && isDuckfile filename
    then
      let fileURL := {| Scheme := "file"; Host := "";
                        Path := filepath_Join env (Path u) filename;
                        RawQuery := "" |} in
      handleFileURL_files u files' (extracted ++ [fileURL])
    else handleFileURL_files u files' extracted
  end.

Definition handleFileURL (u : URL) (p : Proc W) : Result (list URL) * Proc W :=
  let '(err, p) := poll p in
  match err with
  | Some e => (Err e, p)
  | None =>
    match os_Stat env (Path u) with
    | Err e => (Err (wrap ("failed to stat " +:+ Path u) e), p)
    | Ok isDir =>
      if isDir then
        match os_ReadDir env (Path u) with
        | Err e => (Err (wrap ("failed to read directory " +:+ Path u) e), p)
        | Ok files => (Ok (handleFileURL_files u files []), p)
        end
      else (Ok ([] ++ [u]), p)
    end
  end.

(** [handleCloudURL]: the listing loop, [iter.Next] until [io.EOF] *)
Fixpoint handleCloudURL_list (u : URL) (bucketURL : string)
         (iter : list (Result string)) (extracted : list URL)
  : Result (list URL) :=
  match iter with
  | [] => Ok extracted
  | Err e :: _ => Err (wrap ("failed to list objects in " +:+ bucketURL) e)
  | Ok filename :: iter' =>
    if isDuckfile filename
    then
      let cloudURL := {| Scheme := Scheme u; Host := Host u;
                         Path := "/" +:+ filename;
                         RawQuery := RawQuery u |} in
      handleCloudURL_list u bucketURL iter' (extracted ++ [cloudURL])
    else handleCloudURL_list u bucketURL iter' extracted
  end.

Definition handleCloudURL (u : URL) (floc : string) (p : Proc W)
  : Result (list URL) * Proc W :=
  let '(err, p) := poll p in
  match err with
  | Some e => (Err e, p)
  | None =>
    let bucketURL := Scheme u +:+ "://" +:+ Host u in
    let bucketURL :=
      if negb (String.eqb (RawQuery u) "")
      then bucketURL +:+ "?" +:+ RawQuery u else bucketURL in
    match blob_OpenBucket env bucketURL with
    | Err e => (Err (wrap ("failed to open bucket " +:+ bucketURL) e), p)
    | Ok bucket =>
      let prefix := TrimPrefix (Path u) "/" in
      if HasSuffix prefix "/" || String.eqb prefix "" then
        (handleCloudURL_list u bucketURL (List bucket prefix) [], p)
      else
        match Exists bucket prefix with
        | Err e =>
          (Err (wrap ("failed to check existence of " +:+ prefix +:+ " in "
                      +:+ bucketURL) e), p)
        | Ok exists_ =>
          if exists_ then
            match url_Parse env floc with
            | Err e => (Err (wrap ("failed to parse URL " +:+ floc) e), p)
            | Ok parsedURL => (Ok ([] ++ [parsedURL]), p)
            end
          else (Ok [], p)
        end
    end
  end.

Definition handleHTTPURL (u : URL) (_ : string) (p : Proc W)
  : Result (list URL) * Proc W :=
  let '(err, p) := poll p in
  match err with
  | Some e => (Err e, p)
  | None => (Ok [u], p)
  end.

(** [GetDuckfiles] *)
Definition GetDuckfiles (floc : string) (p : Proc W) : Result (list URL) * Proc W :=
  let '(err, p) := poll p in
  match err with
  | Some e => (Err e, p)
  | None =>
    let parsed :=
      if Contains floc "://" then
        match url_Parse env floc with
        | Err e => Err (wrap ("failed to parse URL " +:+ floc) e)
        | Ok u => Ok u
        end
      else
        match filepath_Abs env floc with
        | Err e => Err (wrap ("failed to get absolute path for " +:+ floc) e)
        | Ok absPath =>
          Ok {| Scheme := "file"; Host := ""; Path := absPath; RawQuery := "" |}
        end in
    match parsed with
    | Err e => (Err e, p)
    | Ok u =>
      if String.eqb (Scheme u) "file" then handleFileURL u p
      else if String.eqb (Scheme u) "s3" || String.eqb (Scheme u) "gs"
              || String.eqb (Scheme u) "azblob" then handleCloudURL u floc p
      else if String.eqb (Scheme u) "http" || String.eqb (Scheme u) "https"
      then handleHTTPURL u floc p
      else (Err ("unsupported URL scheme: " +:+ Scheme u), p)
    end
  end.

Definition context_cancelled_before (e : error) : error :=
  wrap "context cancelled before execution" e.

Definition loadFileURL (duckfile : URL) (p : Proc W) : Result (Koanf env) * Proc W :=
  let '(err, p) := poll p in
  match err with
  | Some e => (Err (context_cancelled_before e), p)
  | None =>
    match koanf_Load_file env (Path duckfile) with
    | Err e => (Err (wrap ("failed to load file from " +:+ Path duckfile) e), p)
    | Ok k => (Ok k, p)
    end
  end.

Definition loadHTTPURL (duckfile : URL) (p : Proc W) : Result (Koanf env) * Proc W :=
  let '(err, p) := poll p in
  match err with
  | Some e => (Err (context_cancelled_before e), p)
  | None =>
    let s := url_String env duckfile in
    match http_Get env s with
    | Err e => (Err (wrap ("failed to fetch from " +:+ s) e), p)
    | Ok body =>
      match io_ReadAll body with
      | Err e => (Err (wrap ("failed to read response body from " +:+ s) e), p)
      | Ok data =>
        match koanf_Load_bytes env data with
        | Err e => (Err (wrap ("failed to parse yaml from " +:+ s) e), p)
        | Ok k => (Ok k, p)
        end
      end
    end
  end.

Definition loadCloudURL (duckfile : URL) (p : Proc W) : Result (Koanf env) * Proc W :=
  let '(err, p) := poll p in
  match err with
  | Some e => (Err (context_cancelled_before e), p)
  | None =>
    let bucketURL := Scheme duckfile +:+ "://" +:+ Host duckfile +:+ Path duckfile in
    let bucketURL :=
      if negb (String.eqb (RawQuery duckfile) "")
      then bucketURL +:+ "?" +:+ RawQuery duckfile else bucketURL in
    match blob_OpenBucket env bucketURL with
    | Err e => (Err (wrap ("failed to open bucket " +:+ bucketURL) e), p)
    | Ok bucket =>
      let key := TrimPrefix (Path duckfile) "/" in
      match NewReader bucket key with
      | Err e => (Err (wrap ("failed to create reader for " +:+ key) e), p)
      | Ok reader =>
        match io_ReadAll reader with
        | Err e => (Err (wrap ("failed to read contents from " +:+ key) e), p)
        | Ok data =>
          match koanf_Load_bytes env data with
          | Err e =>
            (Err (wrap ("failed to parse yaml from " +:+ url_String env duckfile) e), p)
          | Ok k => (Ok k, p)
          end
        end
      end
    end
  end.

(** [appendTarget]; it cannot reach [os.Exit], so its [error] is an
    [option]. *)
Definition appendTarget (name : string) (konfig : Koanf env)
           (d : Duck W) (p : Proc W) : option error * Duck W * Proc W :=
  let '(err, p) := poll p in
  match err with
  | Some e => (Some (context_cancelled_before e), d, p)
  | None =>
    if bool_decide (is_Some (Targets d !! name))
    then (Some ("target " +:+ name +:+ " already exists"), d, p)
    else
      let konfig := Set_ env konfig "id" name in
      match NewTarget env (ctx p) konfig with
      | Err e => (Some (wrap ("failed to create target " +:+ name) e), d, p)
      | Ok target => (None, set_Targets (<[name := target]> (Targets d)) d, p)
      end
  end.

(** [switch duckfile.Scheme] of [LoadDuckfile] *)
Definition LoadDuckfile_switch (duckfile : URL) (p : Proc W)
  : Result (Koanf env) * Proc W :=
  if String.eqb (Scheme duckfile) "file" then loadFileURL duckfile p
  else if String.eqb (Scheme duckfile) "http"
          || String.eqb (Scheme duckfile) "https"
  then loadHTTPURL duckfile p
  else if String.eqb (Scheme duckfile) "s3"
          || String.eqb (Scheme duckfile) "gs"
          || String.eqb (Scheme duckfile) "azblob"
  then loadCloudURL duckfile p
  else (Err ("unsupported scheme: " +:+ Scheme duckfile), p).

(** The type of [LoadDuckfile] itself, for its recursive call. *)
Definition Loader : Type :=
  URL -> bool -> Duck W -> Proc W -> option error * Duck W * Proc W.

Section LoadDuckfile.
Variable self : Loader.

(** [for _, depURL := range depURLs] *)
Fixpoint LoadDuckfile_depURLs (depURLs : list URL) (d : Duck W) (p : Proc W)
  : option error * Duck W * Proc W :=
  match depURLs with
  | [] => (None, d, p)
  | depURL :: depURLs' =>
    match self depURL false d p with
    | (Some e, d, p) =>
      (Some (wrap ("failed to load dependency duckfile "
                   +:+ url_String env depURL) e), d, p)
    | (None, d, p) => LoadDuckfile_depURLs depURLs' d p
    end
  end.

(** [for _, dep := range deps] *)
Fixpoint LoadDuckfile_deps (deps : list string) (d : Duck W) (p : Proc W)
  : option error * Duck W * Proc W :=
  match deps with
  | [] => (None, d, p)
  | dep :: deps' =>
    match GetDuckfiles dep p with
    | (Err e, p) =>
      (Some (wrap ("failed to extract duckfile urls for dependency " +:+ dep) e),
       d, p)
    | (Ok depURLs, p) =>
      match LoadDuckfile_depURLs depURLs d p with
      | (Some e, d, p) => (Some e, d, p)
      | (None, d, p) => LoadDuckfile_deps deps' d p
      end
    end
  end.

(** [for _, key := range k.MapKeys("")] *)
Fixpoint LoadDuckfile_keys (k : Koanf env) (recurse : bool) (keys : list string)
         (d : Duck W) (p : Proc W) : option error * Duck W * Proc W :=
  match keys with
  | [] => (None, d, p)
  | key :: keys' =>
    if String.eqb key "_meta" then
      if recurse then
        let deps := Strings env k ("_meta" +:+ ModifiedColon +:+ "dependencies") in
        if (0 <? length deps)%nat then
          match LoadDuckfile_deps deps d p with
          | (Some e, d, p) => (Some e, d, p)
          | (None, d, p) => LoadDuckfile_keys k recurse keys' d p
          end
        else LoadDuckfile_keys k recurse keys' d p
      else LoadDuckfile_keys k recurse keys' d p
    else
      let targetConfig := Cut env k key in
      match appendTarget key targetConfig d p with
      | (Some e, d, p) => (Some (wrap ("failed to append target " +:+ key) e), d, p)
      | (None, d, p) => LoadDuckfile_keys k recurse keys' d p
      end
  end.

(** The body of [LoadDuckfile], its recursive call left open. *)
Definition LoadDuckfile_body : Loader := fun duckfile recurse d p =>
  let '(err, p) := poll p in
  match err with
  | Some e => (Some (context_cancelled_before e), d, p)
  | None =>
    if bool_decide (is_Some (Duckfiles d !! url_String env duckfile))
    then (None, d, p)
    else
      let d := set_Duckfiles (<[url_String env duckfile := duckfile]> (Duckfiles d)) d in
      let '(loaded, p) := LoadDuckfile_switch duckfile p in
      match loaded with
      | Err e => (Some e, d, p)
      | Ok k => LoadDuckfile_keys k recurse (MapKeys env k "") d p
      end
  end.

End LoadDuckfile.

(** [LoadDuckfile]. Its only recursive call passes [recurse = false], and a
    call with [recurse = false] makes none: the recursion is two calls
    deep, which [LoadDuckfile_unfold] below checks against the body. *)
Definition LoadDuckfile_leaf : Loader :=
  LoadDuckfile_body (fun _ _ d p => (None, d, p)).

Definition LoadDuckfile : Loader := LoadDuckfile_body LoadDuckfile_leaf.

(** [CompileTargets]: the inner and the outer loop *)
Fixpoint CompileTargets_duckfiles (duckfiles : list URL) (d : Duck W) (p : Proc W)
  : option error * Duck W * Proc W :=
  match duckfiles with
  | [] => (None, d, p)
  | duckfile :: duckfiles' =>
    match LoadDuckfile duckfile true d p with
    | (Some e, d, p) => (Some e, d, p)
    | (None, d, p) => CompileTargets_duckfiles duckfiles' d p
    end
  end.

Fixpoint CompileTargets_files (files : list string) (d : Duck W) (p : Proc W)
  : option error * Duck W * Proc W :=
  match files with
  | [] => (None, d, p)
  | duckfile :: files' =>
    match GetDuckfiles duckfile p with
    | (Err e, p) => (Some e, d, p)
    | (Ok duckfiles, p) =>
      match CompileTargets_duckfiles duckfiles d p with
      | (Some e, d, p) => (Some e, d, p)
      | (None, d, p) => CompileTargets_files files' d p
      end
    end
  end.

Definition CompileTargets (d : Duck W) (p : Proc W)
  : option error * Duck W * Proc W :=
  let '(err, p) := poll p in
  match err with
  | Some e => (Some (context_cancelled_before e), d, p)
  | None => CompileTargets_files (Files (Config_ d)) d p
  end.

(** [ListTargets]; Go ranges over the map in no fixed order, here the
    order of [map_to_list]. *)
Definition ListTargets (d : Duck W) (p : Proc W) : option error * Duck W * Proc W :=
  let '(err, p) := poll p in
  match err with
  | Some e => (Some (context_cancelled_before e), d, p)
  | None =>
    let '(err, d, p) :=
      if (size (Targets d) =? 0)%nat then CompileTargets d p else (None, d, p) in
    match err with
    | Some e => (Some e, d, p)
    | None =>
      (None, d, foldl (fun p target => emit (EvPrintln target) p) p
                      (map_to_list (Targets d)).*1)
    end
  end.

(** *** The vocabulary of the resolver's properties *)

Definition meta_dependencies : string :=
  "_meta" +:+ ModifiedColon +:+ "dependencies".


(** The document [u] loads as the tree [k]. *)
Definition loads (u : URL) (k : Koanf env) : Prop :=
  ∃ p p', LoadDuckfile_switch u p = (Ok k, p').


(** The document [u] declares the target [key]. *)
Definition defines (u : URL) (key : string) : Prop :=
  ∃ k, loads u k ∧ key ∈ MapKeys env k "" ∧ key ≠ "_meta".



(** The documents of [d'] are those of [d] and some that satisfy [P]. *)
Definition adds (P : URL → Prop) (d d' : Duck W) : Prop :=
  ∀ s u, Duckfiles d' !! s = Some u → Duckfiles d !! s = Some u ∨ P u.

(** Who merged what: [owner] maps every id it knows, all of them in the
    table, to the document that declared it, and has every id of every
    document that is loaded and not in progress ([I]). *)
Definition merge_inv (owner : gmap string string) (I : gset string)
           (d : Duck W) : Prop :=
  dom owner ⊆ dom (Targets d) ∧
  ∀ s u key, Duckfiles d !! s = Some u → s ∉ I → defines u key →
             owner !! key = Some s.

(** What every step of the resolver keeps: the configuration, the
    targets and documents already in the instance, and the log. *)
Definition res_frame (d : Duck W) (p : Proc W) (d' : Duck W) (p' : Proc W) : Prop :=
  Config_ d' = Config_ d ∧ Targets d ⊆ Targets d' ∧
  Duckfiles d ⊆ Duckfiles d' ∧ events p' = events p ∧ world p' = world p.

End resolver.

(** *** The target graph engine *)
Section engine.
Context {W : Type}.

(** The type of [RunTarget] at some recursion depth; [None] is a model
    that ran out of depth, see [RunTarget_total]. *)
Definition Runner : Type :=
  string -> gset string -> Duck W -> Proc W ->
  option (Outcome * gset string * Duck W * Proc W).

(** [for _, dependency := range d.Targets[target].Dependencies] *)
Fixpoint RunTarget_deps (self : Runner) (deps : list string)
         (lineage : gset string) (d : Duck W) (p : Proc W)
  : option (Outcome * gset string * Duck W * Proc W) :=
  match deps with
  | [] => Some (Nil, lineage, d, p)
  | dependency :: deps' =>
    match self dependency lineage d p with
    | None => None
    | Some (Nil, lineage, d, p) => RunTarget_deps self deps' lineage d p
    | Some (o, lineage, d, p) => Some (o, lineage, d, p)
    end
  end.

(** [RunTarget]. The lineage map is shared by all the calls of a run: a
    call takes it and hands it on as it left it. [d.Targets[target]] is a
    pointer, and [Run] writes through it. *)
Fixpoint RunTarget (depth : nat) (target : string) (lineage : gset string)
         (d : Duck W) (p : Proc W)
  : option (Outcome * gset string * Duck W * Proc W) :=
  match depth with
  | 0 => None
  | S depth' =>
    let '(err, p) := poll p in
    match err with
    | Some e => Some (Error (context_cancelled_before e), lineage, d, p)
    | None =>
      match Targets d !! target with
      | None => Some (Error ("target " +:+ target +:+ " not found"), lineage, d, p)
      | Some t =>
        if bool_decide (target ∈ lineage) then Some (Nil, lineage, d, p)
        else if target.Cleared t then Some (Nil, lineage, d, p)
        else
          let lineage := {[target]} ∪ lineage in
          match RunTarget_deps (RunTarget depth') (target.Dependencies t)
                               lineage d p with
          | None => None
          | Some (Nil, lineage, d, p) =>
            match Targets d !! target with
            | None => Some (Exit 2, lineage, d, p)   (* nil dereference panics *)
            | Some t =>
              let '(o, t, p) := target.Run t p in
              Some (o, lineage, set_Targets (<[target := t]> (Targets d)) d, p)
            end
          | Some (o, lineage, d, p) => Some (o, lineage, d, p)
          end
      end
    end
  end.

(** The recursion of [RunTarget] is bounded by the targets not yet in the
    lineage; a top-level call starts from the empty lineage. *)
Definition depth_for (lineage : gset string) (d : Duck W) : nat :=
  S (size (dom (Targets d) ∖ lineage)).

(** [Run] *)
Definition Run (env : Env W) (d : Duck W) (p : Proc W)
  : option (Outcome * Duck W * Proc W) :=
  let '(err, p) := poll p in
  match err with
  | Some e => Some (Error (context_cancelled_before e), d, p)
  | None =>
    match CompileTargets env d p with
    | (Some e, d, p) => Some (Error e, d, p)
    | (None, d, p) =>
      if ListTargets_ (Config_ d) then
        match ListTargets env d p with
        | (Some e, d, p) => Some (Error e, d, p)
        | (None, d, p) => Some (Nil, d, p)
        end
      else
        let lineage : gset string := ∅ in
        match RunTarget (depth_for lineage d) (Target_ (Config_ d)) lineage d p with
        | None => None
        | Some (o, _, d, p) => Some (o, d, p)
        end
    end
  end.

(** *** The vocabulary of the engine's properties *)

(** The targets whose bodies ran, in the order of the log. *)
Definition bodies (tr : list Event) : list string :=
  omap (λ e, match e with EvRun id => Some id | _ => None end) tr.

(** [y] is a declared dependency of the target [x] of table [T]. *)
Definition dep (T : gmap string (target.Target W)) (x y : string) : Prop :=
  ∃ t, T !! x = Some t ∧ y ∈ target.Dependencies t.

Definition acyclic (T : gmap string (target.Target W)) : Prop :=
  ∀ x, ¬ tc (dep T) x x.

Definition cleared_in (T : gmap string (target.Target W)) (x : string) : Prop :=
  ∃ t, T !! x = Some t ∧ target.Cleared t = true.

(** What [appendTarget] sets up: a target is filed under its own id. *)
Definition ids_wf (T : gmap string (target.Target W)) : Prop :=
  ∀ k t, T !! k = Some t → target.Id t = k.

(** A table as compiled: nothing is cleared yet. *)
Definition uncleared (T : gmap string (target.Target W)) : Prop :=
  ∀ k t, T !! k = Some t → target.Cleared t = false.

(** [T'] is [T] with some more targets cleared. *)
Definition table_le (T T' : gmap string (target.Target W)) : Prop :=
  ∀ k, T' !! k = T !! k ∨ T' !! k = target.set_Cleared true <$> T !! k.

(** The log agrees with the table: no body ran twice, and a target whose
    body ran is cleared. *)
Definition log_ok (T : gmap string (target.Target W)) (tr : list Event) : Prop :=
  NoDup (bodies tr) ∧ ∀ k, k ∈ bodies tr → cleared_in T k.

(** What every call of the walk, from [(L, d, p)] to [(L', d', p')] with
    outcome [o], keeps: the lineage and the log only grow, the table
    changes by cleared flags only, and no body runs twice. *)
Definition frame (L : gset string) (d : Duck W) (p : Proc W) (o : Outcome)
           (L' : gset string) (d' : Duck W) (p' : Proc W) : Prop :=
  L ⊆ L' ∧ Config_ d' = Config_ d ∧ Duckfiles d' = Duckfiles d ∧
  table_le (Targets d) (Targets d') ∧
  (∃ tr, events p' = events p ++ tr) ∧
  (ids_wf (Targets d) → log_ok (Targets d) (events p) →
   NoDup (bodies (events p')) ∧ (o = Nil → log_ok (Targets d') (events p'))).

Definition framed (self : Runner) : Prop :=
  ∀ x L d p o L' d' p',
    self x L d p = Some (o, L', d', p') → frame L d p o L' d' p'.

(** [x] occurs before [y] in [l]. *)
Definition before (x y : string) (l : list string) : Prop :=
  ∃ i j, i < j ∧ l !! i = Some x ∧ l !! j = Some y.

(** [l] lists every target after its declared dependencies. *)
Definition topo (T : gmap string (target.Target W)) (l : list string) : Prop :=
  ∀ j x y, l !! j = Some x → dep T x y → ∃ i, i < j ∧ l !! i = Some y.

(** The state of a walk over the acyclic table [T0]: the table is [T0]
    with some targets cleared, and the cleared targets are those whose
    bodies ran, every one after its dependencies. *)
Definition walk_inv (T0 T : gmap string (target.Target W)) (tr : list Event) : Prop :=
  table_le T0 T ∧ log_ok T tr ∧
  (∀ k, cleared_in T k → k ∈ bodies tr) ∧
  topo T0 (bodies tr).

(** A target in the lineage is on the active path [A], or is done. *)
Definition lineage_inv (A L : gset string) (T : gmap string (target.Target W)) : Prop :=
  ∀ k, k ∈ L → k ∈ A ∨ cleared_in T k.

(** The state of a walk over any table, with cycles or without: the table
    is [T0] with some targets cleared, the cleared targets are those whose
    bodies ran, the active path [A] is on the lineage, a target of the
    lineage is on the active path or cleared, and every declared dependency
    of a cleared target is on the lineage or cleared. *)
Definition settle_inv (T0 : gmap string (target.Target W)) (A L : gset string)
           (T : gmap string (target.Target W)) (tr : list Event) : Prop :=
  table_le T0 T ∧ log_ok T tr ∧ (∀ k, cleared_in T k → k ∈ bodies tr) ∧
  A ⊆ L ∧ lineage_inv A L T ∧
  (∀ k y, cleared_in T k → dep T0 k y → y ∈ L ∨ cleared_in T y).

(** The calls of [self] on [deps], one after the other in this order,
    each returning nil and starting where the one before it ended. *)
Inductive visits (self : Runner) :
  list string → gset string * Duck W * Proc W →
  gset string * Duck W * Proc W → Prop :=
| visits_nil s : visits self [] s s
| visits_cons y ys L d p L1 d1 p1 s2 :
    self y L d p = Some (Nil, L1, d1, p1) →
    visits self ys (L1, d1, p1) s2 →
    visits self (y :: ys) (L, d, p) s2.

(** A check that [order] lists the targets of [T] once each, every one
    after its declared dependencies; such a table is acyclic. *)
Definition ordered_by (order : list string) (T : gmap string (target.Target W)) : bool :=
  bool_decide (dom T ⊆ list_to_set order) &&
  bool_decide (NoDup order) &&
  forallb (λ i,
           match order !! i with
           | Some x =>
             match T !! x with
             | Some t =>
               forallb (λ y, bool_decide (y ∈ take i order)) (target.Dependencies t)
             | None => true
             end
           | None => true
           end) (seq 0 (length order)).


(** [NewDuck], from a configuration already hydrated *)
Definition NewDuck (cfg : Config) : Duck W :=
  {| Config_ := cfg; Duckfiles := ∅; Targets := ∅ |}.

End engine.

End duck.

(** ** package cmd *)
Module cmd.

(** The cases of the select of the Sleeping phase. *)
Inductive Case := CtxDone | TimeoutCh | IntervalCh.

Global Instance Case_eq_dec : EqDecision Case.
Proof. solve_decision. Defined.

(** [time.Duration] is an [int64] count of nanoseconds, and its
    arithmetic wraps around. [konfig.Int] returns an [int], of 64 bits. *)
Definition int64 (z : Z) : Z := ((z + 2 ^ 63) mod 2 ^ 64 - 2 ^ 63)%Z.

Definition Second : Z := 1000000000.

(** [time.Duration(n) * time.Second] *)
Definition seconds (n : Z) : Z := int64 (int64 n * Second).

Global Arguments int64 : simpl never.
Global Arguments seconds : simpl never.

(** The greatest number of seconds that is a [Duration]. *)
Definition max_seconds : Z := 9223372036.

(** What the surroundings decide in one pass of the loop, with time on a
    logical clock of nanoseconds: how long [d.Run] takes, how far into the
    sleep an interrupt arrives if one does, and which case the select takes
    when several are ready together (Go chooses one of them at random). *)
Record Tick := {
  run_time : Z;
  signal : option Z;
  pick : Case;
}.

(** The variables of [DefaultApp]. [timeoutCh] is nil or the channel of a
    timer, known by the instant at which it fires. [slept] and [armed] are
    ghosts: the time spent in the select so far, and the number of calls of
    [time.After] for the overall deadline. *)
Record Loop (W : Type) := {
  running : bool;
  iterationCount : Z;
  timeoutCh : option Z;
  now : Z;
  slept : Z;
  armed : nat;
  proc : Proc W;
}.
Arguments running {W} _.
Arguments iterationCount {W} _.
Arguments timeoutCh {W} _.
Arguments now {W} _.
Arguments slept {W} _.
Arguments armed {W} _.
Arguments proc {W} _.

Section DefaultApp.
Context {W : Type} (env : duck.Env W) (konfig : duck.Config).

Definition stop_running (s : Loop W) : Loop W :=
  {| running := false; iterationCount := iterationCount s;
     timeoutCh := timeoutCh s; now := now s; slept := slept s;
     armed := armed s; proc := proc s |}.

Definition set_proc (p : Proc W) (s : Loop W) : Loop W :=
  {| running := running s; iterationCount := iterationCount s;
     timeoutCh := timeoutCh s; now := now s; slept := slept s;
     armed := armed s; proc := p |}.

(** Time passes while the loop does not sleep. *)
Definition elapse (dt : Z) (s : Loop W) : Loop W :=
  {| running := running s; iterationCount := iterationCount s;
     timeoutCh := timeoutCh s; now := now s + dt; slept := slept s;
     armed := armed s; proc := proc s |}.

(** The select blocks until instant [t]. *)
Definition sleep_until (t : Z) (s : Loop W) : Loop W :=
  {| running := running s; iterationCount := iterationCount s;
     timeoutCh := timeoutCh s; now := t; slept := slept s + (t - now s);
     armed := armed s; proc := proc s |}.

(** [if timeoutCh == nil && konfig.Int("daemon-timeout") > 0
     { timeoutCh = time.After(time.Duration(...) * time.Second) }]; the
    timer of a duration that is not positive fires at once. *)
Definition arm (s : Loop W) : Loop W :=
  if bool_decide (timeoutCh s = None) && (0 <? duck.DaemonTimeout konfig)%Z
  then {| running := running s; iterationCount := iterationCount s;
          timeoutCh := Some (now s + seconds (duck.DaemonTimeout konfig))%Z;
          now := now s; slept := slept s; armed := S (armed s); proc := proc s |}
  else s.

(** The time that
    [time.After(time.Duration(konfig.Int("daemon-interval")) * time.Second)]
    takes to fire. *)
Definition interval : Z := Z.max 0 (seconds (duck.DaemonInterval konfig)).

(** The instant from which a case of the select can proceed, if ever:
    [ctx.Done()] once the context is cancelled, a timer channel once its
    timer has fired, and never for a nil channel. *)
Definition ready_at (tk : Tick) (s : Loop W) (c : Case) : option Z :=
  match c with
  | CtxDone =>
    match ctx (proc s) with
    | Some 0 => Some (now s)
    | _ => (λ dt, now s + Z.max 0 dt)%Z <$> signal tk
    end
  | TimeoutCh => Z.max (now s) <$> timeoutCh s
  | IntervalCh => Some (now s + interval)%Z
  end.

Definition earlier (a : option Z) (t : Z) : Z :=
  match a with
  | Some x => Z.min x t
  | None => t
  end.

(** The instant at which the select proceeds: the first at which a case
    can. The interval timer always fires, so there is one. *)
Definition wake (tk : Tick) (s : Loop W) : Z :=
  earlier (ready_at tk s CtxDone)
    (earlier (ready_at tk s TimeoutCh) (now s + interval))%Z.

Definition is_ready (tk : Tick) (s : Loop W) (c : Case) : bool :=
  bool_decide (ready_at tk s c = Some (wake tk s)).

(** The case taken: one of those ready at [wake]. *)
Definition chosen (tk : Tick) (s : Loop W) : Case :=
  if is_ready tk s (pick tk) then pick tk
  else if is_ready tk s CtxDone then CtxDone
  else if is_ready tk s TimeoutCh then TimeoutCh
  else IntervalCh.

(** The Sleeping phase: the inner select, after the deadline is armed. *)
Definition sleeping (tk : Tick) (s : Loop W) : Loop W :=
  let s := arm s in
  let c := chosen tk s in
  let s := sleep_until (wake tk s) s in
  match c with
  | CtxDone => stop_running (set_proc (set_ctx (Some 0) (proc s)) s)
  | TimeoutCh => stop_running s
  | IntervalCh =>
    let s :=
      {| running := running s; iterationCount := iterationCount s + 1;
         timeoutCh := timeoutCh s; now := now s; slept := slept s;
         armed := armed s; proc := proc s |} in
    if (0 <? duck.DaemonIterations konfig)%Z
       && (duck.DaemonIterations konfig <=? iterationCount s)%Z
    then stop_running s
    else s
  end.

(** One pass of [for running { select { ... } }]: the early return of
    [DefaultApp], if it takes one, and the variables after the pass. *)
Definition pass (tk : Tick) (s : Loop W) : option (option Outcome * Loop W) :=
  let '(err, p) := poll (proc s) in
  let s := set_proc p s in
  match err with
  | Some _ => Some (None, stop_running s)                  (* case <-ctx.Done() *)
  | None =>                                                 (* default *)
    match duck.Run env (duck.NewDuck konfig) (proc s) with
    | None => None
    | Some (Nil, _, p) =>
      let s := elapse (run_time tk) (set_proc p s) in
      if duck.Daemon konfig
      then Some (None, sleeping tk s)
      else Some (None, stop_running s)
    | Some (o, _, p) => Some (Some o, set_proc p s)
    end
  end.

(** [DefaultApp] after [ParseCLI], over the passes that [ticks] decides:
    what it returns, if it has returned by then, and its variables. *)
Fixpoint DefaultApp_loop (ticks : list Tick) (s : Loop W)
  : option (option Outcome * Loop W) :=
  if running s then
    match ticks with
    | [] => Some (None, s)
    | tk :: ticks' =>
      match pass tk s with
      | None => None
      | Some (Some o, s) => Some (Some o, s)
      | Some (None, s) => DefaultApp_loop ticks' s
      end
    end
  else Some (Some Nil, s).

(** [running := true; iterationCount := 0; var timeoutCh <-chan time.Time] *)
Definition DefaultApp_init (t0 : Z) (p : Proc W) : Loop W :=
  {| running := true; iterationCount := 0; timeoutCh := None;
     now := t0; slept := 0; armed := 0; proc := p |}.

Definition DefaultApp (ticks : list Tick) (t0 : Z) (p : Proc W)
  : option (option Outcome * Loop W) :=
  DefaultApp_loop ticks (DefaultApp_init t0 p).

(** The deadline and its ghosts agree: before the first sleep nothing is
    armed and nothing slept; afterwards the timer was armed once, and the
    time slept fits between the arming and the deadline. *)
Definition deadline_inv (s : Loop W) : Prop :=
  match timeoutCh s with
  | None => armed s = 0%nat ∧ slept s = 0%Z
  | Some dl =>
    armed s = 1%nat ∧ (0 ≤ slept s)%Z ∧
    (slept s ≤ Z.max 0 (seconds (duck.DaemonTimeout konfig)))%Z ∧
    (now s ≤ dl → slept s ≤ seconds (duck.DaemonTimeout konfig) - (dl - now s))%Z
  end.

(** The deadline read as a bound on the time spent asleep: a daemon with
    a timeout of [T] seconds that is not interrupted, and that has not
    reached its iteration limit, returns only once the time it has slept
    in all has reached [T] seconds. *)
Definition deadline_on_sleep_time : Prop :=
  ∀ ticks t0 p s',
    duck.Daemon konfig = true →
    (0 < duck.DaemonTimeout konfig ≤ max_seconds)%Z →
    ctx p = None →
    (∀ tk, tk ∈ ticks → signal tk = None ∧ (0 ≤ run_time tk)%Z) →
    DefaultApp ticks t0 p = Some (Some Nil, s') →
    ¬ (0 < duck.DaemonIterations konfig ≤ iterationCount s')%Z →
    (seconds (duck.DaemonTimeout konfig) ≤ slept s')%Z.

End DefaultApp.

End cmd.

(** ** The plugins

    A plugin object is a struct behind the [Check] or the [Action]
    interface; [Execute] writes its [Status] field through the pointer, so
    that here it returns the struct as it leaves it. *)

(** What the plugins consume from [os], [path/filepath], [strings] and
    [regexp], over a file system [F]. *)
Module os.

Record OS (F : Type) := {
  ReadFile : string -> F -> Result string;
  WriteFile : string -> string -> F -> option error * F;
  Remove : string -> F -> option error * F;
  MkdirAll : string -> F -> option error * F;
  IsNotExist : error -> bool;
  filepath_Join : string -> string -> string;
  filepath_Dir : string -> string;
  TrimSpace : string -> string;
}.
Arguments ReadFile {F} _ _ _.
Arguments WriteFile {F} _ _ _ _.
Arguments Remove {F} _ _ _.
Arguments MkdirAll {F} _ _ _.
Arguments IsNotExist {F} _ _.
Arguments filepath_Join {F} _ _ _.
Arguments filepath_Dir {F} _ _.
Arguments TrimSpace {F} _ _.

End os.

(** [ctx.Err()] inside a plugin, and the error that every [Execute]
    wraps it in. *)
Definition cancelled (ctx : Context) : option error :=
  wrap "context cancelled before execution" <$> (ctx_Err ctx).1.

(** *** package dummycheck *)
Module dummycheck.

Record DummyCheck := {
  Status : bool;
  Config : checks.Config;
}.

Definition Execute (c : DummyCheck) (ctx : Context) : option error * DummyCheck :=
  match cancelled ctx with
  | Some err => (Some err, c)
  | None => (None, {| Status := true; Config := Config c |})
  end.

(** [return (c.Status != c.Config.Invert)] *)
Definition Check (c : DummyCheck) : bool :=
  negb (Bool.eqb (Status c) (checks.Invert (Config c))).

Definition GetConfig (c : DummyCheck) : checks.Config := Config c.

(** The object behind the [Check] interface, in a world that holds its
    [Status] at the place that [get] reads and [set] writes. *)
Definition as_Check {W : Type} (get : W -> bool) (set : bool -> W -> W)
           (cfg : checks.Config) : checks.Check W :=
  {| checks.Execute := λ ctx w,
       let '(err, c) := Execute {| Status := get w; Config := cfg |} ctx in
       (err, set (Status c) w);
     checks.Check_ := λ w, Check {| Status := get w; Config := cfg |};
     checks.GetConfig := cfg |}.

End dummycheck.

(** *** package localstatecheck *)
Module localstatecheck.

Record Params := {
  Path : string;
  IdPrefix : string;
  Id : string;
  Matches : list string;
}.

Record LocalStateCheck := {
  Status : bool;
  Config : checks.Config;
  Params_ : Params;
}.

Definition set_Status (b : bool) (c : LocalStateCheck) : LocalStateCheck :=
  {| Status := b; Config := Config c; Params_ := Params_ c |}.

Section exec.
Context {F : Type} (sys : os.OS F).

(** [for _, matchString := range c.Params.Matches] *)
Fixpoint Execute_matches (fileContent : string) (matches : list string)
         (c : LocalStateCheck) : LocalStateCheck :=
  match matches with
  | [] => c
  | matchString :: matches' =>
    Execute_matches fileContent matches'
      (if String.eqb fileContent matchString then set_Status true c else c)
  end.

Definition Execute (c : LocalStateCheck) (ctx : Context) (fs : F)
  : option error * LocalStateCheck :=
  match cancelled ctx with
  | Some err => (Some err, c)
  | None =>
    let filePath :=
      os.filepath_Join sys (Path (Params_ c))
                       (IdPrefix (Params_ c) +:+ Id (Params_ c)) in
    match os.ReadFile sys filePath fs with
    | Err err =>
      let failed := (Some (wrap ("failed to read state file " +:+ filePath) err), c) in
      if (length (Matches (Params_ c)) =? 0)%nat then
        if os.IsNotExist sys err then
          (None, if (length (Matches (Params_ c)) =? 0)%nat
                 then set_Status true c else c)
        else failed
      else failed
    | Ok contentBytes =>
      if (length (Matches (Params_ c)) =? 0)%nat then (None, c)
      else
        let fileContent := os.TrimSpace sys contentBytes in
        (None, Execute_matches fileContent (Matches (Params_ c)) c)
    end
  end.

End exec.

Definition Check (c : LocalStateCheck) : bool :=
  negb (Bool.eqb (Status c) (checks.Invert (Config c))).

Definition GetConfig (c : LocalStateCheck) : checks.Config := Config c.

End localstatecheck.

(** *** package localstateaction *)
Module localstateaction.

Record Params := {
  Path : string;
  IdPrefix : string;
  Id : string;
  State : string;
  WipeState : bool;
}.

Record LocalStateAction := {
  Config : actions.Config;
  Params_ : Params;
}.

Section exec.
Context {F : Type} (sys : os.OS F).

Definition Execute (a : LocalStateAction) (ctx : Context) (fs : F)
  : option error * F :=
  match cancelled ctx with
  | Some err => (Some err, fs)
  | None =>
    let filePath :=
      os.filepath_Join sys (Path (Params_ a))
                       (IdPrefix (Params_ a) +:+ Id (Params_ a)) in
    if WipeState (Params_ a) then
      let '(err, fs) := os.Remove sys filePath fs in
      match err with
      | Some e =>
        if negb (os.IsNotExist sys e)
        then (Some (wrap ("failed to remove state file " +:+ filePath) e), fs)
        else (None, fs)
      | None => (None, fs)
      end
    else
      let dirPath := os.filepath_Dir sys filePath in
      let '(err, fs) := os.MkdirAll sys dirPath fs in
      match err with
      | Some e =>
        (Some (wrap ("failed to create state directory " +:+ dirPath) e), fs)
      | None =>
        let '(err, fs) := os.WriteFile sys filePath (State (Params_ a)) fs in
        match err with
        | Some e =>
          (Some (wrap ("failed to write state file " +:+ filePath) e), fs)
        | None => (None, fs)
        end
      end
  end.

End exec.

Definition GetConfig (a : LocalStateAction) : actions.Config := Config a.

End localstateaction.

(** ** Small instances *)
Module examples.

(** Plugins over the world [nat], which counts the actions executed. *)
Definition check_of (err : option error) (result : bool) (cfg : checks.Config)
  : checks.Check nat :=
  {| checks.Execute := λ _ w, (err, w);
     checks.Check_ := λ _, result;
     checks.GetConfig := cfg |}.

Definition action_of (err : option error) (cfg : actions.Config)
  : actions.Action nat :=
  {| actions.Execute := λ _ w, (err, S w);
     actions.GetConfig := cfg |}.

Definition no_override : checks.Config :=
  {| checks.Invert := false; checks.CancelOnFailure := None;
     checks.ExitOnFailure := None |}.

Definition never_cancel : checks.Config :=
  {| checks.Invert := false; checks.CancelOnFailure := Some false;
     checks.ExitOnFailure := None |}.

Definition action_default : actions.Config :=
  {| actions.CancelOnFailure := None; actions.ExitOnFailure := None |}.

Definition no_policy : target.Config :=
  {| target.CancelOnCheckFailure := None; target.CancelOnActionFailure := None;
     target.ExitOnCheckFailure := None; target.ExitOnActionFailure := None |}.

Definition cancel_on_check : target.Config :=
  {| target.CancelOnCheckFailure := Some true; target.CancelOnActionFailure := None;
     target.ExitOnCheckFailure := None; target.ExitOnActionFailure := None |}.

Definition target_of (id : string) (cs : list (checks.Check nat))
           (acts : list (actions.Action nat)) (cfg : target.Config)
           (deps : list string) : target.Target nat :=
  {| target.Id := id; target.Checks := cs; target.Actions := acts;
     target.Cleared := false; target.Config_ := cfg;
     target.Dependencies := deps |}.

Definition config_of (files : list string) (target : string) : duck.Config :=
  {| duck.Files := files; duck.ListTargets_ := false; duck.Target_ := target;
     duck.Daemon := false; duck.DaemonInterval := 60; duck.DaemonIterations := 0;
     duck.DaemonTimeout := 0 |}.

Definition duck_of (cfg : duck.Config) (ts : list (target.Target nat)) : duck.Duck nat :=
  {| duck.Config_ := cfg; duck.Duckfiles := ∅;
     duck.Targets := list_to_map ((λ t, (target.Id t, t)) <$> ts) |}.

(** A process that starts now and is never interrupted. *)
Definition fresh : Proc nat := {| ctx := None; world := 0; events := [] |}.

Definition step : target.Target nat :=
  target_of "step" [check_of None true no_override]
            [action_of None action_default] no_policy [].

(** [app] needs [lib] and [util], and [lib] needs [util]. *)
Definition app_table : duck.Duck nat :=
  duck_of (config_of [] "app")
    [ target_of "app" [check_of None true no_override]
                [action_of None action_default] no_policy ["lib"; "util"];
      target_of "lib" [] [action_of None action_default] no_policy ["util"];
      target_of "util" [check_of None true no_override] [] no_policy [] ].

(** [ping] needs [pong] and [pong] needs [ping]. *)
Definition cycle_table : duck.Duck nat :=
  duck_of (config_of [] "ping")
    [ target_of "ping" [] [action_of None action_default] no_policy ["pong"];
      target_of "pong" [] [action_of None action_default] no_policy ["ping"] ].

Definition single_table : duck.Duck nat :=
  duck_of (config_of [] "step") [step].

(** A target whose second check fails softly, and one whose check breaks. *)
Definition gated : target.Target nat :=
  target_of "gated"
    [check_of None true no_override; check_of None false never_cancel;
     check_of None true no_override]
    [action_of None action_default] cancel_on_check [].

Definition broken : target.Target nat :=
  target_of "broken" [check_of (Some "boom") true never_cancel]
            [action_of None action_default] no_policy [].

Definition failing_action : target.Target nat :=
  target_of "deploy" [check_of None true no_override]
            [action_of (Some "refused") action_default] no_policy [].

Definition broken_table : duck.Duck nat :=
  duck_of (config_of [] "top")
    [ target_of "top" [] [action_of None action_default] no_policy ["broken"];
      broken ].

(** *** A small world of documents

    Files [/main.duck] (declares [build], depends on [/dep.duck]),
    [/dep.duck] (declares [lint], depends on [/deeper.duck]),
    [/deeper.duck] (declares [deep]) and [/clash.duck] (declares [build]
    again); and an object store [s3://bucket] with no object in it. *)

(** A koanf tree: the top-level keys with the strings under each, and the
    value of the key ["id"]. *)
Definition Tree : Type := list (string * list string) * string.

Definition files : list (string * list (string * list string)) :=
  [ ("/main.duck", [("_meta", ["/dep.duck"]); ("build", ["lint"])]);
    ("/dep.duck", [("_meta", ["/deeper.duck"]); ("lint", [])]);
    ("/deeper.duck", [("deep", [])]);
    ("/clash.duck", [("build", [])]) ].

Definition lookup_file (path : string) : Result Tree :=
  match list_find (λ f, f.1 = path) files with
  | Some (_, (_, doc)) => Ok (doc, "")
  | None => Err "no such file"
  end.

Definition empty_bucket : duck.Bucket :=
  {| duck.List := λ _, [];
     duck.Exists := λ _, Ok false;
     duck.NewReader := λ _, Err "no such object" |}.

Definition object_url : duck.URL :=
  {| duck.Scheme := "s3"; duck.Host := "bucket"; duck.Path := "/conf/app.duck";
     duck.RawQuery := "" |}.

Definition world_env : duck.Env nat :=
  {| duck.Koanf := Tree;
     duck.url_Parse := λ s,
       if String.eqb s "s3://bucket/conf/app.duck" then Ok object_url
       else Err "not a url";
     duck.url_String := λ u, duck.Scheme u +:+ "://" +:+ duck.Host u +:+ duck.Path u;
     duck.filepath_Abs := λ s, Ok s;
     duck.filepath_Join := λ dir f, dir +:+ "/" +:+ f;
     duck.os_Stat := λ path,
       match lookup_file path with Ok _ => Ok false | Err e => Err e end;
     duck.os_ReadDir := λ _, Err "not a directory";
     duck.blob_OpenBucket := λ s,
       if String.eqb s "s3://bucket" then Ok empty_bucket else Err "no such bucket";
     duck.http_Get := λ _, Err "no network";
     duck.koanf_Load_file := lookup_file;
     duck.koanf_Load_bytes := λ _, Err "not yaml";
     duck.MapKeys := λ k _, k.1.*1;
     duck.Strings := λ k path,
       if String.eqb path duck.meta_dependencies
       then default [] ((λ r, r.2.2) <$> list_find (λ e, e.1 = "_meta") k.1)
       else [];
     duck.Cut := λ k key, (filter (λ e, e.1 = key) k.1, k.2);
     duck.Set_ := λ k _ v, (k.1, v);
     duck.NewTarget := λ _ k,
       Ok (target_of k.2 [] [action_of None action_default] no_policy
                     (concat k.1.*2)) |}.

Definition main_url : duck.URL :=
  {| duck.Scheme := "file"; duck.Host := ""; duck.Path := "/main.duck";
     duck.RawQuery := "" |}.

Definition dep_url : duck.URL :=
  {| duck.Scheme := "file"; duck.Host := ""; duck.Path := "/dep.duck";
     duck.RawQuery := "" |}.

Definition clash_url : duck.URL :=
  {| duck.Scheme := "file"; duck.Host := ""; duck.Path := "/clash.duck";
     duck.RawQuery := "" |}.

Definition main_compiled : option error * duck.Duck nat * Proc nat :=
  duck.CompileTargets world_env (duck.NewDuck (config_of ["/main.duck"] "build")) fresh.

(** A daemon over [/main.duck]: every 3 seconds, for 10 seconds at most. *)
Definition daemon_config : duck.Config :=
  {| duck.Files := ["/main.duck"]; duck.ListTargets_ := false;
     duck.Target_ := "build"; duck.Daemon := true; duck.DaemonInterval := 3;
     duck.DaemonIterations := 0; duck.DaemonTimeout := 10 |}.

(** A pass that takes [rt] nanoseconds and is not interrupted. *)
Definition quiet (rt : Z) : cmd.Tick :=
  {| cmd.run_time := rt; cmd.signal := None; cmd.pick := cmd.IntervalCh |}.


(** A target whose check fails under a target-level cancel policy, and a
    table whose target depends on one that no document declares. *)
Definition refusing : target.Target nat :=
  target_of "refusing" [check_of None false no_override]
            [action_of None action_default] cancel_on_check [].

Definition dangling_table : duck.Duck nat :=
  duck_of (config_of [] "top")
    [ target_of "top" [] [action_of None action_default] no_policy ["step"; "ghost"];
      step ].


(** *** A site with a directory and an object store

    The directory [/conf] with two documents, a subdirectory and a file
    that is no document; the bucket [s3://store] with three objects; and a
    locator of a scheme that the resolver does not know. *)
Definition listing_bucket : duck.Bucket :=
  {| duck.List := λ _, [Ok "conf/a.duck"; Ok "conf/readme.md"; Ok "conf/b.duck.yaml"];
     duck.Exists := λ _, Ok false;
     duck.NewReader := λ _, Err "no such object" |}.

Definition store_url : duck.URL :=
  {| duck.Scheme := "s3"; duck.Host := "store"; duck.Path := "/conf/";
     duck.RawQuery := "" |}.

Definition ftp_url : duck.URL :=
  {| duck.Scheme := "ftp"; duck.Host := "host"; duck.Path := "/x.duck";
     duck.RawQuery := "" |}.

Definition conf_url : duck.URL :=
  {| duck.Scheme := "file"; duck.Host := ""; duck.Path := "/conf";
     duck.RawQuery := "" |}.

Definition site_env : duck.Env nat :=
  {| duck.Koanf := Tree;
     duck.url_Parse := λ s,
       if String.eqb s "ftp://host/x.duck" then Ok ftp_url
       else duck.url_Parse world_env s;
     duck.url_String := duck.url_String world_env;
     duck.filepath_Abs := duck.filepath_Abs world_env;
     duck.filepath_Join := duck.filepath_Join world_env;
     duck.os_Stat := λ path,
       if String.eqb path "/conf" then Ok true else duck.os_Stat world_env path;
     duck.os_ReadDir := λ path,
       if String.eqb path "/conf"
       then Ok [("a.duck", false); ("old.duck", true); ("notes.txt", false);
                ("Duckfile", false)]
       else Err "not a directory";
     duck.blob_OpenBucket := λ s,
       if String.eqb s "s3://store" then Ok listing_bucket
       else duck.blob_OpenBucket world_env s;
     duck.http_Get := duck.http_Get world_env;
     duck.koanf_Load_file := lookup_file;
     duck.koanf_Load_bytes := duck.koanf_Load_bytes world_env;
     duck.MapKeys := duck.MapKeys world_env;
     duck.Strings := duck.Strings world_env;
     duck.Cut := duck.Cut world_env;
     duck.Set_ := duck.Set_ world_env;
     duck.NewTarget := duck.NewTarget world_env |}.

Definition list_config : duck.Config :=
  {| duck.Files := ["/main.duck"]; duck.ListTargets_ := true;
     duck.Target_ := "build"; duck.Daemon := false; duck.DaemonInterval := 60;
     duck.DaemonIterations := 0; duck.DaemonTimeout := 0 |}.


(** Daemons over [/main.duck] with no deadline: one that stops after three
    iterations, and one with no limit. *)
Definition limited_config : duck.Config :=
  {| duck.Files := ["/main.duck"]; duck.ListTargets_ := false;
     duck.Target_ := "build"; duck.Daemon := true; duck.DaemonInterval := 3;
     duck.DaemonIterations := 3; duck.DaemonTimeout := 0 |}.

Definition endless_config : duck.Config :=
  {| duck.Files := ["/main.duck"]; duck.ListTargets_ := false;
     duck.Target_ := "build"; duck.Daemon := true; duck.DaemonInterval := 3;
     duck.DaemonIterations := 0; duck.DaemonTimeout := 0 |}.

(** An interrupt one nanosecond into the sleep. *)
Definition interrupted (rt : Z) : cmd.Tick :=
  {| cmd.run_time := rt; cmd.signal := Some 1%Z; cmd.pick := cmd.IntervalCh |}.

(** *** A small document of a target

    The type of an entry, and the types of the entries of its [checks] and
    of its [actions]; the plugin packages have the dummy check and the
    dummy action only. *)
Definition Doc : Type := string * (list string * list string).

Definition Entry (type : string) : Doc := (type, ([], [])).

Definition doc_loaders : target.Loaders nat Doc :=
  let no_check : Context → Doc → Result (checks.Check nat) :=
    λ _ _, Err "no such plugin" in
  let no_action : Context → Doc → Result (actions.Action nat) :=
    λ _ _, Err "no such plugin" in
  {| target.Load := λ _, Ok (target_of "doc" [] [] no_policy []);
     target.Slices := λ (k : Doc) path,
       if String.eqb path "checks" then Entry <$> k.2.1
       else if String.eqb path "actions" then Entry <$> k.2.2 else [];
     target.String_ := λ (k : Doc) path, if String.eqb path "type" then k.1 else "";
     target.dummycheck_NewCheck := λ _ _, Ok (check_of None true no_override);
     target.filecheck_NewCheck := no_check;
     target.croncheck_NewCheck := no_check;
     target.localstatecheck_NewCheck := no_check;
     target.shellcheck_NewCheck := no_check;
     target.restcheck_NewCheck := no_check;
     target.dummyaction_NewAction := λ _ _, Ok (action_of None action_default);
     target.printaction_NewAction := no_action;
     target.sleepaction_NewAction := no_action;
     target.localstateaction_NewAction := no_action;
     target.restaction_NewAction := no_action;
     target.shellaction_NewAction := no_action;
     target.templateaction_NewAction := no_action |}.

Definition good_doc : Doc := ("", (["dummy"; "dummy"], ["dummy"])).

Definition bad_doc : Doc := ("", (["dummy"], ["dummy"; "file"])).

(** *** A small file system: the files by their paths *)
Definition files_os : os.OS (gmap string string) :=
  {| os.ReadFile := λ path fs,
       match fs !! path with Some data => Ok data | None => Err "no such file" end;
     os.WriteFile := λ path data fs, (None, <[path := data]> fs);
     os.Remove := λ path fs,
       match fs !! path with
       | Some _ => (None, delete path fs)
       | None => (Some "no such file", fs)
       end;
     os.MkdirAll := λ _ fs, (None, fs);
     os.IsNotExist := λ e, String.eqb e "no such file";
     os.filepath_Join := λ dir f, dir +:+ "/" +:+ f;
     os.filepath_Dir := λ _, "/var/lib/duck/states";
     os.TrimSpace := λ s, s |}.

Definition set_state (state : string) (wipe : bool) : localstateaction.LocalStateAction :=
  {| localstateaction.Config := action_default;
     localstateaction.Params_ :=
       {| localstateaction.Path := "/var/lib/duck/states";
          localstateaction.IdPrefix := "_localstate_";
          localstateaction.Id := "deploy";
          localstateaction.State := state;
          localstateaction.WipeState := wipe |} |}.

Definition state_is (matches : list string) : localstatecheck.LocalStateCheck :=
  {| localstatecheck.Status := false;
     localstatecheck.Config := no_override;
     localstatecheck.Params_ :=
       {| localstatecheck.Path := "/var/lib/duck/states";
          localstatecheck.IdPrefix := "_localstate_";
          localstatecheck.Id := "deploy";
          localstatecheck.Matches := matches |} |}.

(** *** A dummy check in the world [nat]: its status is whether the world
    is odd. *)
Definition inverted : checks.Config :=
  {| checks.Invert := true; checks.CancelOnFailure := None;
     checks.ExitOnFailure := None |}.

Definition odd_get (w : nat) : bool := Nat.odd w.
Definition odd_set (b : bool) (w : nat) : nat :=
  if Bool.eqb (Nat.odd w) b then w else S w.

Definition contrary : target.Target nat :=
  target_of "contrary" [dummycheck.as_Check odd_get odd_set inverted]
            [action_of None action_default] cancel_on_check [].

Definition sincere : target.Target nat :=
  target_of "sincere" [dummycheck.as_Check odd_get odd_set no_override]
            [action_of None action_default] no_policy [].

End examples.

(** * Properties *)

(** ** The failure policy of [target.Run] *)
Module target_props.
Import target.

Section policy.
Context {W : Type}.
Implicit Types (t : Target W) (p : Proc W).

Lemma should_effective (item dflt : option bool) :
  (bool_decide (item ≠ None) && deref item) ||
  (bool_decide (item = None) && bool_decide (dflt ≠ None) && deref dflt)
  = effective item dflt.
Proof. by destruct item as [[]|], dflt as [[]|]. Qed.

(** C3: each of the four policies that [Run] resolves (exit and cancel,
    for a check and for an action) is the item's override when that is
    set, else the target's default when that is set, else false; so an
    item-level false wins over a target-level true. *)
Theorem policy_resolution (chkcfg : checks.Config) (actioncfg : actions.Config) t :
  check_shouldExit chkcfg t
    = effective (checks.ExitOnFailure chkcfg) (ExitOnCheckFailure (Config_ t)) ∧
  check_shouldCancel chkcfg t
    = effective (checks.CancelOnFailure chkcfg) (CancelOnCheckFailure (Config_ t)) ∧
  action_shouldExit actioncfg t
    = effective (actions.ExitOnFailure actioncfg) (ExitOnActionFailure (Config_ t)) ∧
  action_shouldCancel actioncfg t
    = effective (actions.CancelOnFailure actioncfg) (CancelOnActionFailure (Config_ t)) ∧
  (∀ dflt, effective (Some false) dflt = false) ∧
  (∀ b dflt, effective (Some b) dflt = b) ∧
  (∀ b, effective None (Some b) = b) ∧
  effective None None = false.
Proof.
  unfold check_shouldExit, check_shouldCancel, action_shouldExit, action_shouldCancel.
  rewrite !should_effective. by repeat split.
Qed.

End policy.

Section body.
Context {W : Type}.
Implicit Types (t : Target W) (p : Proc W) (w : W).

Lemma check_events_snoc id k n :
  check_events id k (S n) = check_events id k n ++ [EvCheck id (k + n)].
Proof. unfold check_events. by rewrite seq_S, fmap_app. Qed.

Lemma check_events_cons id k n :
  check_events id k (S n) = EvCheck id k :: check_events id (S k) n.
Proof. done. Qed.

Lemma action_events_cons id k n :
  action_events id k (S n) = EvAction id k :: action_events id (S k) n.
Proof. done. Qed.

(** A loop that falls through has run every item, left the target alone
    and logged one event per item. *)
Lemma checks_loop_Next cs : ∀ k t p t' p',
  checks_loop k cs t p = (Next, t', p') →
  t' = t ∧ ctx p' = ctx p ∧
  events p' = events p ++ check_events (Id t) k (length cs).
Proof.
  induction cs as [|c cs IH]; intros k t p t' p' H; simpl in H.
  - injection H as <- <-. by rewrite app_nil_r.
  - destruct (checks.Execute c _ _) as [[e|] w] eqn:He; [done|].
    simpl in H. destruct (checks.Check_ c w); simpl in H.
    + apply IH in H as (-> & -> & ->). simpl.
      split; [done|]. split; [done|].
      rewrite check_events_cons. by rewrite <- app_assoc.
    + by repeat case_match.
Qed.

Lemma actions_loop_Next acts : ∀ k t p t' p',
  actions_loop k acts t p = (Next, t', p') →
  t' = t ∧ ctx p' = ctx p ∧
  events p' = events p ++ action_events (Id t) k (length acts).
Proof.
  induction acts as [|a acts IH]; intros k t p t' p' H; simpl in H.
  - injection H as <- <-. by rewrite app_nil_r.
  - destruct (actions.Execute a _ _) as [[e|] w] eqn:He.
    + by repeat case_match.
    + apply IH in H as (-> & -> & ->). simpl.
      split; [done|]. split; [done|].
      rewrite action_events_cons. by rewrite <- app_assoc.
Qed.

(** The loop over [pre ++ rest] is the loop over [pre], then over [rest]. *)
Lemma checks_loop_app pre rest : ∀ k t p,
  checks_loop k (pre ++ rest) t p =
  match checks_loop k pre t p with
  | (Next, t', p') => checks_loop (k + length pre) rest t' p'
  | r => r
  end.
Proof.
  induction pre as [|c pre IH]; intros k t p; simpl.
  - by rewrite Nat.add_0_r.
  - destruct (checks.Execute c _ _) as [[e|] w]; [done|]. simpl.
    destruct (checks.Check_ c w); simpl.
    + rewrite IH. by rewrite Nat.add_succ_r.
    + by repeat case_match.
Qed.

Lemma actions_loop_app pre rest : ∀ k t p,
  actions_loop k (pre ++ rest) t p =
  match actions_loop k pre t p with
  | (Next, t', p') => actions_loop (k + length pre) rest t' p'
  | r => r
  end.
Proof.
  induction pre as [|a pre IH]; intros k t p; simpl.
  - by rewrite Nat.add_0_r.
  - destruct (actions.Execute a _ _) as [[e|] w].
    + by repeat case_match.
    + rewrite IH. by rewrite Nat.add_succ_r.
Qed.

(** [Run] on a target not yet cleared, under a live context, up to the
    check that follows the passing checks [pre]. *)
Lemma Run_reach_check t p p0 pre c post t1 p1 :
  Cleared t = false →
  poll p = (None, p0) →
  Checks t = pre ++ c :: post →
  checks_loop 0 pre t (emit (EvRun (Id t)) p0) = (Next, t1, p1) →
  Run t p =
  match checks_loop (length pre) (c :: post) t p1 with
  | (Return o, t, p) => (o, t, p)
  | (Next, t, p) =>
    match actions_loop 0 (Actions t) t p with
    | (Return o, t, p) => (o, t, p)
    | (Next, t, p) => (Nil, set_Cleared true t, p)
    end
  end.
Proof.
  intros Hc Hp Hcs Hpre. unfold Run. rewrite Hc, Hp, Hcs.
  rewrite checks_loop_app, Hpre.
  by apply checks_loop_Next in Hpre as (-> & _ & _).
Qed.

Lemma Run_reach_events t p p0 pre t1 p1 :
  poll p = (None, p0) →
  checks_loop 0 pre t (emit (EvRun (Id t)) p0) = (Next, t1, p1) →
  events p1 = events p ++ EvRun (Id t) :: check_events (Id t) 0 (length pre).
Proof.
  intros Hp Hpre. apply checks_loop_Next in Hpre as (_ & _ & ->).
  unfold poll in Hp. destruct (ctx_Err (ctx p)) as [e c'].
  injection Hp as _ <-. simpl. by rewrite <- app_assoc.
Qed.

(** C4: a check that fails with neither exit nor cancel resolved makes
    [Run] mark the target Cleared and return nil, with no later check and
    no action executed: the log ends with the failing check. An item-level
    [cancelOnFailure = false] under a target-level
    [cancelOnCheckFailure = true] is such a case. *)
Theorem check_soft_stop t p p0 pre c post t1 p1 w2 :
  Cleared t = false →
  poll p = (None, p0) →
  Checks t = pre ++ c :: post →
  checks_loop 0 pre t (emit (EvRun (Id t)) p0) = (Next, t1, p1) →
  checks.Execute c (ctx p1) (world p1) = (None, w2) →
  checks.Check_ c w2 = false →
  check_shouldExit (checks.GetConfig c) t = false →
  let soft_stop :=
    ∃ p', Run t p = (Nil, set_Cleared true t, p') ∧
          world p' = w2 ∧
          events p' = events p ++
            EvRun (Id t) :: check_events (Id t) 0 (S (length pre)) in
  (check_shouldCancel (checks.GetConfig c) t = false → soft_stop) ∧
  (checks.CancelOnFailure (checks.GetConfig c) = Some false →
   CancelOnCheckFailure (Config_ t) = Some true → soft_stop).
Proof.
  intros Hc Hp Hcs Hpre Hex Hchk Hexit soft_stop.
  assert (check_shouldCancel (checks.GetConfig c) t = false → soft_stop) as Hsoft.
  { intros Hcancel. unfold soft_stop.
    rewrite (Run_reach_check _ _ _ _ _ _ _ _ Hc Hp Hcs Hpre).
    pose proof (Run_reach_events _ _ _ _ _ _ Hp Hpre) as Hev.
    simpl. rewrite Hex. simpl. rewrite Hchk, Hexit, Hcancel. simpl.
    eexists. split; [done|]. split; [done|]. simpl.
    rewrite Hev, check_events_snoc. simpl. by rewrite <- app_assoc. }
  split; [done|]. intros Hitem _. apply Hsoft.
  unfold check_shouldCancel. by rewrite Hitem.
Qed.

(** An error of a check's [Execute] is returned as it is, whatever the
    policies say; an error of an action's [Execute] goes through the exit,
    cancel, continue resolution. *)
Lemma Run_check_error t p p0 pre c post t1 p1 e w2 :
  Cleared t = false →
  poll p = (None, p0) →
  Checks t = pre ++ c :: post →
  checks_loop 0 pre t (emit (EvRun (Id t)) p0) = (Next, t1, p1) →
  checks.Execute c (ctx p1) (world p1) = (Some e, w2) →
  Run t p = (Error e, t, set_world w2 (emit (EvCheck (Id t) (length pre)) p1)).
Proof.
  intros Hc Hp Hcs Hpre Hex.
  rewrite (Run_reach_check _ _ _ _ _ _ _ _ Hc Hp Hcs Hpre).
  simpl. by rewrite Hex.
Qed.

Lemma Run_action_error t p p0 t1 p1 pre a post t2 p2 e w3 :
  Cleared t = false →
  poll p = (None, p0) →
  checks_loop 0 (Checks t) t (emit (EvRun (Id t)) p0) = (Next, t1, p1) →
  Actions t = pre ++ a :: post →
  actions_loop 0 pre t p1 = (Next, t2, p2) →
  actions.Execute a (ctx p2) (world p2) = (Some e, w3) →
  let p' := set_world w3 (emit (EvAction (Id t) (length pre)) p2) in
  Run t p =
  if action_shouldExit (actions.GetConfig a) t then (Exit 1, t, p')
  else if action_shouldCancel (actions.GetConfig a) t
       then (Error "action failed, cancelling run", t, p')
       else (Nil, set_Cleared true t, p').
Proof.
  intros Hc Hp Hcs Has Hpre Hex p'. unfold Run. rewrite Hc, Hp, Hcs.
  apply checks_loop_Next in Hcs as (-> & _ & _).
  rewrite Has, actions_loop_app, Hpre.
  apply actions_loop_Next in Hpre as (-> & _ & _).
  simpl. rewrite Hex. subst p'.
  destruct (action_shouldExit _ t); [done|].
  by destruct (action_shouldCancel _ t).
Qed.

End body.
End target_props.

(** ** The dependency walk of [duck.RunTarget] *)
Module engine_props.
Import target duck target_props.

Section run_facts.
Context {W : Type}.
Implicit Types (t : Target W) (p : Proc W) (T : gmap string (Target W)).

Lemma bodies_app (l1 l2 : list Event) : bodies (l1 ++ l2) = bodies l1 ++ bodies l2.
Proof. apply omap_app. Qed.

Lemma bodies_check_events id k n : bodies (check_events id k n) = [].
Proof. revert k. induction n as [|n IH]; intros k; [done|]. apply (IH (S k)). Qed.

Lemma bodies_action_events id k n : bodies (action_events id k n) = [].
Proof. revert k. induction n as [|n IH]; intros k; [done|]. apply (IH (S k)). Qed.

(** What a loop of [Run] can do to the target and to the log. *)
Lemma checks_loop_inv cs : ∀ k t p c t' p',
  checks_loop k cs t p = (c, t', p') →
  ctx p' = ctx p ∧
  (∃ tr, events p' = events p ++ tr ∧ bodies tr = []) ∧
  (t' = t ∧ c ≠ Return Nil ∨ t' = set_Cleared true t ∧ c = Return Nil).
Proof.
  induction cs as [|ch cs IH]; intros k t p c t' p' H; simpl in H.
  - injection H as <- <- <-. split; [done|]. split; [|by left].
    exists []. by rewrite app_nil_r.
  - destruct (checks.Execute ch _ _) as [[e|] w] eqn:He; simpl in H.
    + injection H as <- <- <-. split; [done|]. split; [|by left]. by exists [EvCheck (Id t) k].
    + destruct (checks.Check_ ch w); simpl in H.
      * apply IH in H as (-> & (tr & -> & Htr) & Ht). split; [done|]. split; [|done].
        exists (EvCheck (Id t) k :: tr). simpl. by rewrite <- app_assoc.
      * destruct (check_shouldExit _ t); [|destruct (check_shouldCancel _ t)];
          injection H as <- <- <-; (split; [done|]);
          (split; [by exists [EvCheck (Id t) k]|]); first [by left | by right].
Qed.

Lemma actions_loop_inv acts : ∀ k t p c t' p',
  actions_loop k acts t p = (c, t', p') →
  ctx p' = ctx p ∧
  (∃ tr, events p' = events p ++ tr ∧ bodies tr = []) ∧
  (t' = t ∧ c ≠ Return Nil ∨ t' = set_Cleared true t ∧ c = Return Nil).
Proof.
  induction acts as [|a acts IH]; intros k t p c t' p' H; simpl in H.
  - injection H as <- <- <-. split; [done|]. split; [|by left].
    exists []. by rewrite app_nil_r.
  - destruct (actions.Execute a _ _) as [[e|] w] eqn:He; simpl in H.
    + destruct (action_shouldExit _ t); [|destruct (action_shouldCancel _ t)];
        injection H as <- <- <-; (split; [done|]);
        (split; [by exists [EvAction (Id t) k]|]); first [by left | by right].
    + apply IH in H as (-> & (tr & -> & Htr) & Ht). split; [done|]. split; [|done].
      exists (EvAction (Id t) k :: tr). simpl. by rewrite <- app_assoc.
Qed.

(** [Run] in one lemma: a cleared target is left alone; otherwise the body
    starts at most once, and a nil return leaves the target cleared. *)
Lemma Run_inv t p o t' p' :
  target.Run t p = (o, t', p') →
  (Cleared t = true ∧ o = Nil ∧ t' = t ∧ p' = p) ∨
  (Cleared t = false ∧
   ∃ tr, events p' = events p ++ tr ∧
         (bodies tr = [Id t] ∨ bodies tr = [] ∧ o ≠ Nil) ∧
         (t' = t ∧ o ≠ Nil ∨ t' = set_Cleared true t ∧ o = Nil)).
Proof.
  unfold target.Run. destruct (Cleared t) eqn:Hc.
  { intros [= <- <- <-]. by left. }
  intros H. right. split; [done|].
  unfold poll in H. destruct (ctx_Err (ctx p)) as [[e|] c'].
  { injection H as <- <- <-. exists []. simpl. rewrite app_nil_r.
    split; [done|]. split; [by right|by left]. }
  destruct (checks_loop _ _ _ _) as [[c1 t1] p1] eqn:H1.
  apply checks_loop_inv in H1 as (_ & (tr1 & Hev1 & Hb1) & Ht1). simpl in Hev1.
  destruct c1 as [|o1].
  - destruct (actions_loop _ _ _ _) as [[c2 t2] p2] eqn:H2.
    apply actions_loop_inv in H2 as (_ & (tr2 & Hev2 & Hb2) & Ht2).
    exists ([EvRun (Id t)] ++ tr1 ++ tr2).
    split. { destruct c2; injection H as <- <- <-; rewrite Hev2, Hev1; by rewrite <- !app_assoc. }
    split. { left. by rewrite !bodies_app, Hb1, Hb2. }
    destruct Ht1 as [[-> _]|[_ ?]]; [|done].
    destruct c2 as [|o2]; injection H as <- <- <-.
    + destruct Ht2 as [[-> _]|[_ ?]]; [|done]. by right.
    + destruct Ht2 as [[-> Hne]|[-> [= ->]]]; [left|right]; split; congruence.
  - injection H as <- <- <-. exists ([EvRun (Id t)] ++ tr1).
    split. { rewrite Hev1. by rewrite <- !app_assoc. }
    split. { left. by rewrite !bodies_app, Hb1. }
    destruct Ht1 as [[-> Hne]|[-> [= ->]]]; [left|right]; split; congruence.
Qed.

Lemma poll_inv p err p0 :
  poll p = (err, p0) → events p0 = events p ∧ world p0 = world p.
Proof. unfold poll. destruct (ctx_Err (ctx p)). by intros [= <- <-]. Qed.

Lemma poll_never p : ctx p = None → poll p = (None, p).
Proof. unfold poll. destruct p as [c w ev]. simpl. by intros ->. Qed.

(** *** Tables that differ by cleared flags *)

Lemma table_le_refl T : table_le T T.
Proof. intros k. by left. Qed.

Lemma table_le_trans T1 T2 T3 : table_le T1 T2 → table_le T2 T3 → table_le T1 T3.
Proof.
  intros H12 H23 k. destruct (H12 k) as [E1|E1], (H23 k) as [E2|E2];
    rewrite E2, E1; auto. right. by destruct (T1 !! k).
Qed.

Lemma table_le_insert T k t t' :
  T !! k = Some t → t' = t ∨ t' = set_Cleared true t → table_le T (<[k:=t']> T).
Proof.
  intros Hk Ht j. destruct (decide (k = j)) as [<-|Hne].
  - rewrite lookup_insert_eq, Hk. destruct Ht as [->| ->]; auto.
  - rewrite lookup_insert_ne by done. by left.
Qed.

Lemma table_le_lookup T T' k t :
  table_le T T' → T !! k = Some t →
  ∃ t', T' !! k = Some t' ∧ (t' = t ∨ t' = set_Cleared true t).
Proof. intros H Hk. destruct (H k) as [E|E]; rewrite E, Hk; eauto. Qed.

Lemma table_le_lookup_inv T T' k t' :
  table_le T T' → T' !! k = Some t' →
  ∃ t, T !! k = Some t ∧ (t' = t ∨ t' = set_Cleared true t).
Proof.
  intros H Hk. destruct (H k) as [E|E]; rewrite E in Hk; [eauto|].
  destruct (T !! k) as [t|]; [|done]. injection Hk as <-. eauto.
Qed.

Lemma table_le_dom T T' : table_le T T' → dom T' = dom T.
Proof.
  intros H. apply set_eq. intros k. rewrite !elem_of_dom.
  destruct (H k) as [E|E]; rewrite E; [done|].
  by rewrite fmap_is_Some.
Qed.

Lemma table_le_dep T T' x y : table_le T T' → dep T' x y ↔ dep T x y.
Proof.
  intros H. split.
  - intros (t' & Hk & Hy). apply (table_le_lookup_inv _ _ _ _ H) in Hk as (t & Hk & [->| ->]);
      by exists t.
  - intros (t & Hk & Hy). apply (table_le_lookup _ _ _ _ H) in Hk as (t' & Hk & [->| ->]);
      by eexists.
Qed.

Lemma table_le_ids_wf T T' : table_le T T' → ids_wf T → ids_wf T'.
Proof.
  intros H Hwf k t' Hk.
  apply (table_le_lookup_inv _ _ _ _ H) in Hk as (t & Hk & [->| ->]); by apply Hwf in Hk.
Qed.

Lemma table_le_cleared T T' x : table_le T T' → cleared_in T x → cleared_in T' x.
Proof.
  intros H (t & Hk & Hc).
  apply (table_le_lookup _ _ _ _ H) in Hk as (t' & Hk & [->| ->]); by eexists.
Qed.

Lemma table_le_acyclic T T' : table_le T T' → acyclic T → acyclic T'.
Proof.
  intros H Hac x Hx. apply (Hac x).
  apply (tc_congruence (R:=dep T') id (dep T) x x); [|done].
  intros a b Hab. by apply (table_le_dep T T' a b H).
Qed.

(** *** The frame of a call *)

Lemma frame_refl L d p : frame L d p Nil L d p.
Proof.
  unfold frame. split_and!; try done.
  - apply table_le_refl.
  - exists []. by rewrite app_nil_r.
  - intros _ Hok. split; [apply Hok|done].
Qed.

Lemma frame_trans L d p L1 d1 p1 o L2 d2 p2 :
  frame L d p Nil L1 d1 p1 → frame L1 d1 p1 o L2 d2 p2 → frame L d p o L2 d2 p2.
Proof.
  intros (HL & HC & HD & HT & (tr & Hev) & Hlog)
         (HL' & HC' & HD' & HT' & (tr' & Hev') & Hlog').
  unfold frame. split_and!.
  - by etrans.
  - congruence.
  - congruence.
  - by eapply table_le_trans.
  - exists (tr ++ tr'). by rewrite Hev', Hev, app_assoc.
  - intros Hwf Hok. destruct (Hlog Hwf Hok) as [_ Hok1]. apply Hlog'.
    + by eapply table_le_ids_wf.
    + by apply Hok1.
Qed.

Lemma frame_poll L d p err p0 o L' d' p' :
  poll p = (err, p0) → frame L d p0 o L' d' p' → frame L d p o L' d' p'.
Proof.
  intros [Hev _]%poll_inv. unfold frame. by rewrite Hev.
Qed.

Lemma frame_stop L d p o : o ≠ Nil → frame L d p o L d p.
Proof.
  intros Ho. unfold frame. split_and!; try done.
  - apply table_le_refl.
  - exists []. by rewrite app_nil_r.
  - intros _ Hok. split; [apply Hok|done].
Qed.

Lemma RunTarget_deps_frame (self : Runner) deps :
  framed self →
  ∀ L d p o L' d' p',
    RunTarget_deps self deps L d p = Some (o, L', d', p') → frame L d p o L' d' p'.
Proof.
  intros Hself. induction deps as [|y deps IH]; intros L d p o L' d' p' H; simpl in H.
  - injection H as <- <- <- <-. apply frame_refl.
  - destruct (self y L d p) as [[[[o1 L1] d1] p1]|] eqn:Hy; [|done].
    apply Hself in Hy. destruct o1.
    + eapply frame_trans; [done|]. by apply IH.
    + by injection H as <- <- <- <-.
    + by injection H as <- <- <- <-.
Qed.

(** The call on [x] once past its guards: the dependencies, then the body. *)
Lemma RunTarget_step depth x L d p p0 t :
  poll p = (None, p0) →
  Targets d !! x = Some t →
  x ∉ L →
  Cleared t = false →
  RunTarget (S depth) x L d p =
  match RunTarget_deps (RunTarget depth) (Dependencies t) ({[x]} ∪ L) d p0 with
  | None => None
  | Some (Nil, lineage, d, p) =>
    match Targets d !! x with
    | None => Some (Exit 2, lineage, d, p)
    | Some t =>
      let '(o, t, p) := target.Run t p in
      Some (o, lineage, set_Targets (<[x := t]> (Targets d)) d, p)
    end
  | Some (o, lineage, d, p) => Some (o, lineage, d, p)
  end.
Proof.
  intros Hp Ht HL Hc. simpl. rewrite Hp, Ht, Hc.
  by rewrite bool_decide_eq_false_2.
Qed.

(** The guards of a call: it ends there, or goes on as [RunTarget_step]. *)
Lemma RunTarget_guards depth x L d p :
  (∃ o p0, RunTarget (S depth) x L d p = Some (o, L, d, p0) ∧
           events p0 = events p ∧
           (o = Nil → x ∈ L ∨ cleared_in (Targets d) x)) ∨
  (∃ p0 t, poll p = (None, p0) ∧ Targets d !! x = Some t ∧ (x ∉ L) ∧
           Cleared t = false).
Proof.
  destruct (poll p) as [[e|] p0] eqn:Hp.
  { left. exists (Error (context_cancelled_before e)), p0. simpl. rewrite Hp.
    split; [done|]. split; [|done]. by apply poll_inv in Hp as [? _]. }
  pose proof (poll_inv _ _ _ Hp) as [Hev _].
  destruct (Targets d !! x) as [t|] eqn:Ht.
  2: { left. eexists _, p0. simpl. rewrite Hp, Ht. done. }
  destruct (decide (x ∈ L)) as [HL|HL].
  { left. exists Nil, p0. simpl. rewrite Hp, Ht. rewrite bool_decide_eq_true_2; auto. }
  destruct (Cleared t) eqn:Hc.
  { left. exists Nil, p0. simpl. rewrite Hp, Ht, Hc. rewrite bool_decide_eq_false_2; [|done].
    split; [done|]. split; [done|]. intros _. right. by exists t. }
  right. by exists p0, t.
Qed.

(** The body of [x] at the end of its call. *)
Lemma Run_body_frame L d p x t o t' p' :
  Targets d !! x = Some t →
  target.Run t p = (o, t', p') →
  frame L d p o L (set_Targets (<[x:=t']> (Targets d)) d) p'.
Proof.
  intros Hx HR. apply Run_inv in HR as [(Hc & -> & -> & ->)|(Hc & tr & Hev & Hb & Ht)].
  { unfold frame. simpl. split_and!; try done.
    - rewrite insert_id by done. apply table_le_refl.
    - exists []. by rewrite app_nil_r.
    - intros _ Hok. rewrite insert_id by done. split; [apply Hok|done]. }
  assert (table_le (Targets d) (<[x:=t']> (Targets d))) as Hle.
  { eapply table_le_insert; [done|]. destruct Ht as [[-> _]|[-> _]]; auto. }
  unfold frame. simpl. split_and!; try done; [by exists tr|].
  intros Hwf [Hnd Hcl]. rewrite Hev, bodies_app.
  assert (x ∉ bodies (events p)) as Hfresh.
  { intros (t0 & Ht0 & Hc0)%Hcl. congruence. }
  assert (NoDup (bodies (events p) ++ bodies tr)) as Hnd'.
  { destruct Hb as [->|[-> _]]; [|by rewrite app_nil_r].
    apply NoDup_app. split; [done|]. rewrite (Hwf _ _ Hx).
    split; [|apply NoDup_singleton]. intros k Hk ->%list_elem_of_singleton. done. }
  split; [done|]. intros ->. split; [by rewrite bodies_app|].
  destruct Ht as [[_ ?]|[-> _]]; [done|].
  intros k. rewrite bodies_app. intros [Hk|Hk]%elem_of_app.
  - eapply table_le_cleared; [done|]. by apply Hcl.
  - exists (set_Cleared true t). split; [|done].
    destruct Hb as [Hb|[Hb _]]; rewrite Hb in Hk; [|by apply elem_of_nil in Hk].
    apply list_elem_of_singleton in Hk as ->. rewrite (Hwf _ _ Hx).
    apply lookup_insert_eq.
Qed.

Lemma RunTarget_frame depth : framed (RunTarget (W:=W) depth).
Proof.
  induction depth as [|depth IH]; intros x L d p o L' d' p' H; [done|].
  destruct (RunTarget_guards depth x L d p)
    as [(o0 & p0 & H0 & Hev & _)|(p0 & t & Hp & Hx & HL & Hc)].
  { rewrite H0 in H. injection H as <- <- <- <-. unfold frame. rewrite Hev.
    split_and!; try done.
    - apply table_le_refl.
    - exists []. by rewrite app_nil_r.
    - intros _ Hok. split; [apply Hok|]. by intros _. }
  rewrite (RunTarget_step _ _ _ _ _ _ _ Hp Hx HL Hc) in H.
  eapply frame_poll; [done|].
  destruct (RunTarget_deps _ _ _ _ _) as [[[[o1 L1] d1] p1]|] eqn:Hdeps; [|done].
  apply (RunTarget_deps_frame _ _ IH) in Hdeps.
  assert (frame L d p0 o1 L1 d1 p1) as Hfr.
  { destruct Hdeps as (HL1 & ?). split; [set_solver|done]. }
  destruct o1; [|by injection H as <- <- <- <-..].
  eapply frame_trans; [done|].
  destruct Hfr as (_ & _ & _ & Hle & _).
  destruct (table_le_lookup _ _ _ _ Hle Hx) as (t1 & Hx1 & _). rewrite Hx1 in H.
  destruct (target.Run t1 p1) as [[o2 t2] p2] eqn:HR. injection H as <- <- <- <-.
  by eapply Run_body_frame.
Qed.

Lemma RunTarget_deps_framed depth deps L d p o L' d' p' :
  RunTarget_deps (RunTarget depth) deps L d p = Some (o, L', d', p') →
  frame L d p o L' d' p'.
Proof. apply RunTarget_deps_frame, RunTarget_frame. Qed.

(** *** The walk returns *)

Lemma RunTarget_deps_total (self : Runner) n deps :
  framed self →
  (∀ x L d p, size (dom (Targets d) ∖ L) < n → is_Some (self x L d p)) →
  ∀ L d p, size (dom (Targets d) ∖ L) < n →
           is_Some (RunTarget_deps self deps L d p).
Proof.
  intros Hfr Hself. induction deps as [|y deps IH]; intros L d p Hn; simpl; [done|].
  destruct (Hself y L d p Hn) as [[[[o1 L1] d1] p1] Hy]. rewrite Hy.
  destruct o1; [|done..]. apply IH.
  apply Hfr in Hy as (HL & _ & _ & Hle%table_le_dom & _). rewrite Hle.
  eapply Nat.le_lt_trans; [|done]. apply subseteq_size. set_solver.
Qed.

Lemma RunTarget_total_from depth : ∀ x L d p,
  size (dom (Targets d) ∖ L) < depth → is_Some (RunTarget depth x L d p).
Proof.
  induction depth as [|depth IH]; intros x L d p Hn; [lia|].
  destruct (RunTarget_guards depth x L d p)
    as [(o0 & p0 & H0 & _)|(p0 & t & Hp & Hx & HL & Hc)]; [by rewrite H0|].
  rewrite (RunTarget_step _ _ _ _ _ _ _ Hp Hx HL Hc).
  assert (size (dom (Targets d) ∖ ({[x]} ∪ L)) < depth) as Hn'.
  { assert (dom (Targets d) ∖ ({[x]} ∪ L) ⊂ dom (Targets d) ∖ L) as Hsub.
    { apply elem_of_dom_2 in Hx. set_solver. }
    apply subset_size in Hsub. lia. }
  destruct (RunTarget_deps_total _ depth (Dependencies t) (RunTarget_frame depth) IH
              _ d p0 Hn') as [[[[o1 L1] d1] p1] Hdeps].
  rewrite Hdeps. destruct o1; [|done..].
  destruct (Targets d1 !! x); [|done]. by destruct (target.Run _ _) as [[??]?].
Qed.

(** The dependency loop that returns nil is the chain of its calls. *)
Lemma RunTarget_deps_visits (self : Runner) deps : ∀ L d p L' d' p',
  RunTarget_deps self deps L d p = Some (Nil, L', d', p') ↔
  visits self deps (L, d, p) (L', d', p').
Proof.
  induction deps as [|y deps IH]; intros L d p L' d' p'; simpl.
  - split; [intros [= <- <- <-]; constructor | by inversion 1].
  - split.
    + destruct (self y L d p) as [[[[[] L1] d1] p1]|] eqn:Hy; try done.
      intros H%IH. by econstructor.
    + inversion 1 as [|????????? Hy Hrest]; subst. rewrite Hy. by apply IH.
Qed.

End run_facts.

(** *** The walk over an acyclic table *)
Section acyclic_walk.
Context {W : Type}.
Implicit Types (t : Target W) (p : Proc W) (T : gmap string (Target W)).
Variable T0 : gmap string (Target W).
Hypothesis Hacyc : acyclic T0.
Hypothesis Hwf : ids_wf T0.

Lemma topo_snoc l x :
  topo T0 l → (∀ y, dep T0 x y → y ∈ l) → topo T0 (l ++ [x]).
Proof.
  intros Hl Hx j z y Hj Hdep.
  destruct (decide (j < length l)) as [Hlt|Hge].
  - rewrite lookup_app_l in Hj by done.
    destruct (Hl j z y Hj Hdep) as (i & Hi & Hy). exists i. split; [done|].
    by apply lookup_app_l_Some.
  - rewrite lookup_app_r in Hj by lia.
    apply list_lookup_singleton_Some in Hj as [Hj ->].
    pose proof (Hx y Hdep) as [i Hi]%list_elem_of_lookup. exists i.
    pose proof (lookup_lt_Some _ _ _ Hi). split; [lia|].
    by apply lookup_app_l_Some.
Qed.

Lemma deps_walk (self : Runner) (A : gset string) :
  framed self →
  (∀ y L d p L' d' p',
      (∀ a, a ∈ A → tc (dep T0) a y) →
      walk_inv T0 (Targets d) (events p) →
      lineage_inv A L (Targets d) →
      self y L d p = Some (Nil, L', d', p') →
      walk_inv T0 (Targets d') (events p') ∧ lineage_inv A L' (Targets d') ∧
      cleared_in (Targets d') y) →
  ∀ deps L d p L' d' p',
    (∀ y a, y ∈ deps → a ∈ A → tc (dep T0) a y) →
    walk_inv T0 (Targets d) (events p) →
    lineage_inv A L (Targets d) →
    RunTarget_deps self deps L d p = Some (Nil, L', d', p') →
    walk_inv T0 (Targets d') (events p') ∧ lineage_inv A L' (Targets d') ∧
    (∀ y, y ∈ deps → cleared_in (Targets d') y).
Proof.
  intros Hfr Hself. induction deps as [|y deps IH];
    intros L d p L' d' p' Hreach Hinv Hlin H; simpl in H.
  - injection H as <- <- <-. split_and!; [done..|]. by intros y ?%elem_of_nil.
  - destruct (self y L d p) as [[[[[] L1] d1] p1]|] eqn:Hy; try done.
    destruct (Hself _ _ _ _ _ _ _ (λ a, Hreach y a (list_elem_of_here _ _)) Hinv Hlin Hy)
      as (Hinv1 & Hlin1 & Hy1).
    pose proof (RunTarget_deps_frame _ _ Hfr _ _ _ _ _ _ _ H) as (_ & _ & _ & Hle & _).
    destruct (IH _ _ _ _ _ _ (λ z a Hz, Hreach z a (list_elem_of_further _ _ _ Hz))
                 Hinv1 Hlin1 H) as (Hinv2 & Hlin2 & Hcl).
    split_and!; [done..|].
    intros z [->|Hz]%elem_of_cons; [|by apply Hcl].
    by eapply table_le_cleared.
Qed.

Lemma RunTarget_walk depth : ∀ (A : gset string) x L d p L' d' p',
  (∀ a, a ∈ A → tc (dep T0) a x) →
  walk_inv T0 (Targets d) (events p) →
  lineage_inv A L (Targets d) →
  RunTarget depth x L d p = Some (Nil, L', d', p') →
  walk_inv T0 (Targets d') (events p') ∧ lineage_inv A L' (Targets d') ∧
  cleared_in (Targets d') x.
Proof.
  induction depth as [|depth IH]; intros A x L d p L' d' p' Hreach Hinv Hlin H; [done|].
  destruct (RunTarget_guards depth x L d p)
    as [(o0 & p0 & H0 & Hev & Hnil)|(p0 & t & Hp & Hx & HL & Hc)].
  { rewrite H0 in H. injection H as -> <- <- <-. rewrite Hev.
    split_and!; [done..|].
    destruct (Hnil eq_refl) as [[Ha|Hcl]%Hlin|Hcl]; [|done..].
    destruct (Hacyc x). by apply Hreach. }
  rewrite (RunTarget_step _ _ _ _ _ _ _ Hp Hx HL Hc) in H.
  apply poll_inv in Hp as [Hev0 _].
  destruct (RunTarget_deps _ _ _ _ _) as [[[[o1 L1] d1] p1]|] eqn:Hdeps; [|done].
  destruct o1; [|by injection H..].
  pose proof Hinv as (Hle0 & _).
  assert (∀ y, y ∈ Dependencies t → dep T0 x y) as Hdep.
  { intros y Hy. apply (table_le_dep _ _ _ _ Hle0). by exists t. }
  destruct (deps_walk (RunTarget depth) (A ∪ {[x]}) (RunTarget_frame depth)
              (IH (A ∪ {[x]})) (Dependencies t) ({[x]} ∪ L) d p0 L1 d1 p1)
    as (Hinv1 & Hlin1 & Hcl1); [| |  |done|].
  { intros y a Hy [Ha| ->%elem_of_singleton]%elem_of_union.
    - eapply tc_r; [by apply Hreach|by apply Hdep].
    - by apply tc_once, Hdep. }
  { by rewrite Hev0. }
  { intros k [->%elem_of_singleton|Hk]%elem_of_union; [left; set_solver|].
    destruct (Hlin k Hk); [left; set_solver|by right]. }
  pose proof (RunTarget_deps_framed _ _ _ _ _ _ _ _ _ Hdeps) as (_ & _ & _ & Hle1 & _).
  destruct (table_le_lookup _ _ _ _ Hle1 Hx) as (t1 & Hx1 & Ht1). rewrite Hx1 in H.
  destruct (target.Run t1 p1) as [[o2 t2] p2] eqn:HR. injection H as -> <- <- <-.
  destruct Hinv1 as (Hle01 & Hok1 & Hcb1 & Htopo1).
  pose proof (table_le_ids_wf _ _ Hle01 Hwf) as Hwf1.
  pose proof (Run_body_frame L1 d1 p1 x t1 Nil t2 p2 Hx1 HR)
    as (_ & _ & _ & Hle2 & _ & Hlog). simpl in Hle2, Hlog.
  destruct (Hlog Hwf1 Hok1) as [_ Hok2]. specialize (Hok2 eq_refl).
  assert (cleared_in (<[x:=t2]> (Targets d1)) x) as Hxc.
  { exists t2. split; [apply lookup_insert_eq|].
    apply Run_inv in HR as [(? & _ & -> & _)|(_ & _ & _ & _ & [[_ ?]|[-> _]])]; done. }
  simpl. split_and!; [| |done].
  - split_and!; [by eapply table_le_trans|done| |].
    + intros k Hk. apply Run_inv in HR as [(? & _ & -> & ->)|(Hc1 & tr & -> & Hb & _)].
      { apply Hcb1. by rewrite insert_id in Hk. }
      rewrite bodies_app. destruct (decide (k = x)) as [->|Hne].
      * destruct Hb as [->|[_ ?]]; [|done]. rewrite (Hwf1 _ _ Hx1). set_solver.
      * apply elem_of_app. left. apply Hcb1.
        destruct Hk as (tk & Hk & Hck). rewrite lookup_insert_ne in Hk by done.
        by exists tk.
    + apply Run_inv in HR as [(? & _ & -> & ->)|(Hc1 & tr & -> & Hb & _)]; [done|].
      rewrite bodies_app. destruct Hb as [->|[_ ?]]; [|done].
      rewrite (Hwf1 _ _ Hx1). apply topo_snoc; [done|].
      intros y (t' & Hx0 & Hy)%(table_le_dep _ _ _ _ Hle0). apply Hcb1, Hcl1.
      by replace t with t' by congruence.
  - intros k Hk. destruct (Hlin1 k Hk) as [[Ha| ->%elem_of_singleton]%elem_of_union|Hkc].
    + by left.
    + by right.
    + right. by eapply table_le_cleared.
Qed.

(** Whatever the outcome of a call, a body that ran did so after the bodies
    of the dependencies of its target. *)
Lemma RunTarget_topo depth : ∀ (A : gset string) x L d p o L' d' p',
  (∀ a, a ∈ A → tc (dep T0) a x) →
  walk_inv T0 (Targets d) (events p) →
  lineage_inv A L (Targets d) →
  RunTarget depth x L d p = Some (o, L', d', p') →
  topo T0 (bodies (events p')).
Proof.
  induction depth as [|depth IH]; intros A x L d p o L' d' p' Hreach Hinv Hlin H; [done|].
  destruct (RunTarget_guards depth x L d p)
    as [(o0 & p0 & H0 & Hev & Hnil)|(p0 & t & Hp & Hx & HL & Hc)].
  { rewrite H0 in H. injection H as <- <- <- <-. rewrite Hev. apply Hinv. }
  rewrite (RunTarget_step _ _ _ _ _ _ _ Hp Hx HL Hc) in H.
  apply poll_inv in Hp as [Hev0 _].
  pose proof Hinv as (Hle0 & _).
  assert (∀ y, y ∈ Dependencies t → dep T0 x y) as Hdep.
  { intros y Hy. apply (table_le_dep _ _ _ _ Hle0). by exists t. }
  assert (∀ y a, y ∈ Dependencies t → a ∈ A ∪ {[x]} → tc (dep T0) a y) as Hreach'.
  { intros y a Hy [Ha| ->%elem_of_singleton]%elem_of_union.
    - eapply tc_r; [by apply Hreach|by apply Hdep].
    - by apply tc_once, Hdep. }
  assert (walk_inv T0 (Targets d) (events p0)) as Hinv0 by (by rewrite Hev0).
  assert (lineage_inv (A ∪ {[x]}) ({[x]} ∪ L) (Targets d)) as Hlin0.
  { intros k [->%elem_of_singleton|Hk]%elem_of_union; [left; set_solver|].
    destruct (Hlin k Hk); [left; set_solver|by right]. }
  assert (∀ deps L d p o L' d' p',
             (∀ y a, y ∈ deps → a ∈ A ∪ {[x]} → tc (dep T0) a y) →
             walk_inv T0 (Targets d) (events p) →
             lineage_inv (A ∪ {[x]}) L (Targets d) →
             RunTarget_deps (RunTarget depth) deps L d p = Some (o, L', d', p') →
             topo T0 (bodies (events p'))) as Hloop.
  { clear -IH Hacyc Hwf. induction deps as [|y deps IHd];
      intros L d p o L' d' p' Hreach Hinv Hlin H; simpl in H.
    - injection H as <- <- <- <-. apply Hinv.
    - destruct (RunTarget depth y L d p) as [[[[o1 L1] d1] p1]|] eqn:Hy; [|done].
      assert (∀ a, a ∈ A ∪ {[x]} → tc (dep T0) a y) as Hy'.
      { intros a. apply Hreach, list_elem_of_here. }
      destruct (decide (o1 = Nil)) as [->|Hne].
      + destruct (RunTarget_walk depth _ _ _ _ _ _ _ _ Hy' Hinv Hlin Hy) as (Hinv1 & Hlin1 & _).
        eapply IHd; [|done..]. intros z a Hz. by apply Hreach, list_elem_of_further.
      + assert (Some (o1, L1, d1, p1) = Some (o, L', d', p')) as [= <- <- <- <-]
          by (by destruct o1).
        by eapply (IH (A ∪ {[x]})). }
  destruct (RunTarget_deps _ _ _ _ _) as [[[[o1 L1] d1] p1]|] eqn:Hdeps; [|done].
  destruct (decide (o1 = Nil)) as [->|Hne].
  2: { assert (Some (o1, L1, d1, p1) = Some (o, L', d', p')) as [= <- <- <- <-]
         by (by destruct o1).
       by eapply Hloop. }
  destruct (deps_walk (RunTarget depth) (A ∪ {[x]}) (RunTarget_frame depth)
              (RunTarget_walk depth (A ∪ {[x]})) (Dependencies t) ({[x]} ∪ L) d p0 L1 d1 p1)
    as ((Hle01 & Hok1 & Hcb1 & Htopo1) & Hlin1 & Hcl1); [done..|].
  pose proof (RunTarget_deps_framed _ _ _ _ _ _ _ _ _ Hdeps) as (_ & _ & _ & Hle1 & _).
  destruct (table_le_lookup _ _ _ _ Hle1 Hx) as (t1 & Hx1 & Ht1). rewrite Hx1 in H.
  destruct (target.Run t1 p1) as [[o2 t2] p2] eqn:HR. injection H as <- <- <- <-.
  pose proof (table_le_ids_wf _ _ Hle01 Hwf) as Hwf1.
  apply Run_inv in HR as [(? & _ & -> & ->)|(Hc1 & tr & -> & Hb & _)]; [done|].
  rewrite bodies_app. destruct Hb as [->|[-> _]]; [|by rewrite app_nil_r].
  rewrite (Hwf1 _ _ Hx1). apply topo_snoc; [done|].
  intros y (t' & Hx0 & Hy)%(table_le_dep _ _ _ _ Hle0). apply Hcb1, Hcl1.
  by replace t with t' by congruence.
Qed.

End acyclic_walk.

Section acyclic_run.
Context {W : Type}.
Implicit Types (t : Target W) (p : Proc W) (d : Duck W).

(** A top-level call returns, whatever the table. *)
Lemma RunTarget_total d p x :
  is_Some (RunTarget (depth_for ∅ d) x ∅ d p).
Proof. apply RunTarget_total_from. unfold depth_for. lia. Qed.

(** A call that returns nil skipped its target, or made the calls for the
    declared dependencies in their order and then ran the body. *)
Lemma RunTarget_Nil_inv depth x L d p L' d' p' :
  RunTarget (S depth) x L d p = Some (Nil, L', d', p') →
  (L' = L ∧ d' = d ∧ events p' = events p ∧ (x ∈ L ∨ cleared_in (Targets d) x)) ∨
  (∃ t p0 d1 p1 t1 t',
      Targets d !! x = Some t ∧ poll p = (None, p0) ∧
      visits (RunTarget depth) (Dependencies t) ({[x]} ∪ L, d, p0) (L', d1, p1) ∧
      Targets d1 !! x = Some t1 ∧
      target.Run t1 p1 = (Nil, t', p') ∧
      d' = set_Targets (<[x:=t']> (Targets d1)) d1).
Proof.
  intros H. destruct (RunTarget_guards depth x L d p)
    as [(o0 & p0 & H0 & Hev & Hnil)|(p0 & t & Hp & Hx & HL & Hc)].
  { rewrite H0 in H. injection H as -> <- <- <-. left. auto. }
  right. rewrite (RunTarget_step _ _ _ _ _ _ _ Hp Hx HL Hc) in H.
  destruct (RunTarget_deps _ _ _ _ _) as [[[[o1 L1] d1] p1]|] eqn:Hdeps; [|done].
  destruct o1; [|by injection H..].
  apply RunTarget_deps_visits in Hdeps.
  destruct (Targets d1 !! x) as [t1|] eqn:Hx1; [|done].
  destruct (target.Run t1 p1) as [[o2 t2] p2] eqn:HR. injection H as -> <- <- <-.
  by exists t, p0, d1, p1, t1, t2.
Qed.

Lemma before_trans (l : list string) x y z :
  NoDup l → before x y l → before y z l → before x z l.
Proof.
  intros Hnd (i & j & Hij & Hi & Hj) (j' & k & Hjk & Hj' & Hk).
  rewrite (NoDup_lookup _ _ _ _ Hnd Hj Hj') in Hij.
  exists i, k. split; [lia|done].
Qed.

(** *** The log is written, never read *)

Lemma after_log_unlogged p : after_log (events p) (unlogged p) = p.
Proof. destruct p as [c w ev]. unfold after_log. simpl. by rewrite app_nil_r. Qed.

Lemma poll_after_log ev p :
  poll (after_log ev p) = ((poll p).1, after_log ev (poll p).2).
Proof. unfold poll. simpl. by destruct (ctx_Err (ctx p)). Qed.

Lemma emit_after_log ev e p : emit e (after_log ev p) = after_log ev (emit e p).
Proof. unfold emit, after_log. simpl. by rewrite app_assoc. Qed.

Lemma step_after_log ev e w p :
  set_world w (emit e (after_log ev p)) = after_log ev (set_world w (emit e p)).
Proof. unfold emit, after_log, set_world. simpl. by rewrite app_assoc. Qed.

Lemma checks_loop_after_log ev cs : ∀ k t p,
  checks_loop k cs t (after_log ev p) =
  let '(c, t', p') := checks_loop k cs t p in (c, t', after_log ev p').
Proof.
  induction cs as [|c cs IH]; intros k t p; simpl; [done|].
  destruct (checks.Execute c (ctx p) (world p)) as [[e|] w];
    rewrite ?step_after_log; [done|].
  destruct (checks.Check_ c w); simpl; [apply IH|].
  destruct (check_shouldExit _ t); [done|]. by destruct (check_shouldCancel _ t).
Qed.

Lemma actions_loop_after_log ev acts : ∀ k t p,
  actions_loop k acts t (after_log ev p) =
  let '(c, t', p') := actions_loop k acts t p in (c, t', after_log ev p').
Proof.
  induction acts as [|a acts IH]; intros k t p; simpl; [done|].
  destruct (actions.Execute a (ctx p) (world p)) as [[e|] w];
    rewrite ?step_after_log; [|apply IH].
  destruct (action_shouldExit _ t); [done|]. by destruct (action_shouldCancel _ t).
Qed.

Lemma Run_after_log ev t p :
  target.Run t (after_log ev p) =
  let '(o, t', p') := target.Run t p in (o, t', after_log ev p').
Proof.
  unfold target.Run. destruct (Cleared t); [done|].
  rewrite poll_after_log. destruct (poll p) as [[e|] p0]; [done|]. simpl.
  rewrite emit_after_log, checks_loop_after_log.
  destruct (checks_loop _ _ _ _) as [[[|o] t1] p1]; [|done].
  rewrite actions_loop_after_log. by destruct (actions_loop _ _ _ _) as [[[|o] t2] p2].
Qed.

Lemma RunTarget_after_log ev depth : ∀ x L d p,
  RunTarget depth x L d (after_log ev p) =
  match RunTarget depth x L d p with
  | Some (o, L', d', p') => Some (o, L', d', after_log ev p')
  | None => None
  end.
Proof.
  induction depth as [|depth IH]; intros x L d p; [done|]. simpl.
  rewrite poll_after_log. destruct (poll p) as [[e|] p0]; [done|]. simpl.
  destruct (Targets d !! x) as [t|]; [|done].
  case_bool_decide; [done|]. destruct (Cleared t); [done|].
  assert (∀ deps L d p,
             RunTarget_deps (RunTarget depth) deps L d (after_log ev p) =
             match RunTarget_deps (RunTarget depth) deps L d p with
             | Some (o, L', d', p') => Some (o, L', d', after_log ev p')
             | None => None
             end) as Hdeps.
  { clear -IH. induction deps as [|y deps IHd]; intros L d p; simpl; [done|].
    rewrite IH. destruct (RunTarget depth y L d p) as [[[[[] L1] d1] p1]|]; auto. }
  rewrite Hdeps.
  destruct (RunTarget_deps _ _ _ _ p0) as [[[[[] L1] d1] p1]|]; try done.
  destruct (Targets d1 !! x) as [t1|]; [|done].
  rewrite Run_after_log. by destruct (target.Run t1 p1) as [[o t2] p2].
Qed.

(** C1: over an acyclic table in which nothing is cleared yet, a
    top-level call of [RunTarget] with an empty lineage returns. Whatever
    it returns, no body ran twice during the call, and every body that ran
    did so after the bodies of the declared dependencies of its target.
    When it returns nil, the body of every transitive dependency of the
    root, and of the root, has run exactly once, every one after the
    bodies of all the transitive dependencies of its target. The calls for
    the dependencies of a target, of the root as of any other, are made
    one after the other in their declared order. *)
Theorem acyclic_run d p root :
  acyclic (Targets d) →
  ids_wf (Targets d) →
  uncleared (Targets d) →
  is_Some (RunTarget (depth_for ∅ d) root ∅ d p) ∧
  (∀ depth o L' d' p',
    RunTarget (S depth) root ∅ d p = Some (o, L', d', p') →
    ∃ tr, events p' = events p ++ tr ∧
    let run := bodies tr in
    NoDup run ∧
    topo (Targets d) run ∧
    (o = Nil →
     (∀ y, rtc (dep (Targets d)) root y → y ∈ run) ∧
     (∀ x y, rtc (dep (Targets d)) root x → tc (dep (Targets d)) x y →
             before y x run) ∧
     (∃ t p0 d1 p1 t1 t',
         Targets d !! root = Some t ∧ poll p = (None, p0) ∧
         visits (RunTarget depth) (Dependencies t)
                ({[root]} ∪ ∅, d, p0) (L', d1, p1) ∧
         Targets d1 !! root = Some t1 ∧
         target.Run t1 p1 = (Nil, t', p') ∧
         d' = set_Targets (<[root:=t']> (Targets d1)) d1))) ∧
  (∀ depth x L d0 p0 L1 d1 p1,
    RunTarget (S depth) x L d0 p0 = Some (Nil, L1, d1, p1) →
    (L1 = L ∧ d1 = d0 ∧ events p1 = events p0 ∧
     (x ∈ L ∨ cleared_in (Targets d0) x)) ∨
    (∃ t q0 d2 q1 t1 t',
        Targets d0 !! x = Some t ∧ poll p0 = (None, q0) ∧
        visits (RunTarget depth) (Dependencies t) ({[x]} ∪ L, d0, q0) (L1, d2, q1) ∧
        Targets d2 !! x = Some t1 ∧
        target.Run t1 q1 = (Nil, t', p1) ∧
        d1 = set_Targets (<[x:=t']> (Targets d2)) d2)).
Proof.
  intros Hacyc Hwf Hunc. split_and!; [apply RunTarget_total| |apply RunTarget_Nil_inv].
  intros depth o L' d' p' H.
  assert (∀ k, ¬ cleared_in (Targets d) k) as Hnc.
  { intros k (t & Hk & Hc). apply Hunc in Hk. congruence. }
  (* the same call, on an empty log *)
  pose proof H as Hq. rewrite <- (after_log_unlogged p), RunTarget_after_log in Hq.
  set (q := unlogged p) in *.
  destruct (RunTarget (S depth) root ∅ d q) as [[[[oq Lq] dq] q']|] eqn:Hrun; [|done].
  injection Hq as -> -> -> <-.
  exists (events q'). split; [done|]. intros run.
  assert (walk_inv (Targets d) (Targets d) (events q)) as Hinv.
  { split_and!.
    - apply table_le_refl.
    - split; [constructor|by intros k ?%elem_of_nil].
    - intros k Hk. by destruct (Hnc k).
    - by intros j x y ?. }
  assert (lineage_inv ∅ ∅ (Targets d)) as Hlin by set_solver.
  assert (∀ a, a ∈ (∅ : gset string) → tc (dep (Targets d)) a root) as Hreach by set_solver.
  split_and!.
  - pose proof (RunTarget_frame _ _ _ _ _ _ _ _ _ Hrun) as (_ & _ & _ & _ & _ & Hlog).
    destruct Hinv as (_ & Hok & _). by destruct (Hlog Hwf Hok).
  - by eapply (RunTarget_topo (Targets d) Hacyc Hwf (S depth) ∅ root ∅ d q).
  - intros ->.
    destruct (RunTarget_walk (Targets d) Hacyc Hwf (S depth) ∅ root ∅ d q L' d' q'
                Hreach Hinv Hlin Hrun) as ((Hle & [Hnd Hcl] & Hcb & Htopo) & _ & Hroot).
    fold run in Hnd, Hcl, Hcb, Htopo.
    assert (∀ y, rtc (dep (Targets d)) root y → y ∈ run) as Hall.
    { apply (rtc_ind_r (R:=dep (Targets d)) (λ y, y ∈ run) root); [by apply Hcb|].
      intros x y _ Hxy [j Hj]%list_elem_of_lookup.
      destruct (Htopo j x y Hj Hxy) as (i & _ & Hi). by eapply list_elem_of_lookup_2. }
    assert (∀ x y, x ∈ run → dep (Targets d) x y → before y x run) as Hedge.
    { intros x y [j Hj]%list_elem_of_lookup Hxy.
      destruct (Htopo j x y Hj Hxy) as (i & Hij & Hi). by exists i, j. }
    split_and!; [done| |].
    + intros x y Hx Hxy. induction Hxy as [x y Hxy|x z y Hxz Hzy IH].
      * apply Hedge; [by apply Hall|done].
      * eapply before_trans; [done| |].
        -- apply IH. by eapply rtc_r.
        -- apply Hedge; [by apply Hall|done].
    + apply RunTarget_Nil_inv in H as [(_ & _ & _ & [?|?])|H];
        [set_solver|by destruct (Hnc root)|done].
Qed.

End acyclic_run.

Section errors.
Context {W : Type}.
Implicit Types (t : Target W) (p : Proc W) (d : Duck W).

Lemma RunTarget_deps_app (self : Runner) pre rest : ∀ L d p,
  RunTarget_deps self (pre ++ rest) L d p =
  match RunTarget_deps self pre L d p with
  | Some (Nil, L, d, p) => RunTarget_deps self rest L d p
  | r => r
  end.
Proof.
  induction pre as [|y pre IH]; intros L d p; simpl; [done|].
  destruct (self y L d p) as [[[[[] L1] d1] p1]|]; by rewrite ?IH.
Qed.

(** An error of the call for a dependency is the error of the call. *)
Lemma RunTarget_dep_error depth x L d p p0 t pre y post L1 d1 p1 e L2 d2 p2 :
  poll p = (None, p0) →
  Targets d !! x = Some t →
  x ∉ L →
  Cleared t = false →
  Dependencies t = pre ++ y :: post →
  RunTarget_deps (RunTarget depth) pre ({[x]} ∪ L) d p0 = Some (Nil, L1, d1, p1) →
  RunTarget depth y L1 d1 p1 = Some (Error e, L2, d2, p2) →
  RunTarget (S depth) x L d p = Some (Error e, L2, d2, p2).
Proof.
  intros Hp Hx HL Hc Hdeps Hpre Hy.
  rewrite (RunTarget_step _ _ _ _ _ _ _ Hp Hx HL Hc), Hdeps.
  rewrite RunTarget_deps_app, Hpre. simpl. by rewrite Hy.
Qed.

(** The outcome of the body is the outcome of the call. *)
Lemma RunTarget_body depth x L d p p0 t L1 d1 p1 t1 o t' p' :
  poll p = (None, p0) →
  Targets d !! x = Some t →
  x ∉ L →
  Cleared t = false →
  RunTarget_deps (RunTarget depth) (Dependencies t) ({[x]} ∪ L) d p0
    = Some (Nil, L1, d1, p1) →
  Targets d1 !! x = Some t1 →
  target.Run t1 p1 = (o, t', p') →
  RunTarget (S depth) x L d p
    = Some (o, L1, set_Targets (<[x:=t']> (Targets d1)) d1, p').
Proof.
  intros Hp Hx HL Hc Hdeps Hx1 HR.
  by rewrite (RunTarget_step _ _ _ _ _ _ _ Hp Hx HL Hc), Hdeps, Hx1, HR.
Qed.

(** The outcome of the top-level call is the outcome of [Run]. *)
Lemma Run_RunTarget (env : Env W) d p p0 d1 p1 o L d2 p2 :
  poll p = (None, p0) →
  CompileTargets env d p0 = (None, d1, p1) →
  ListTargets_ (duck.Config_ d1) = false →
  RunTarget (depth_for ∅ d1) (Target_ (duck.Config_ d1)) ∅ d1 p1
    = Some (o, L, d2, p2) →
  duck.Run env d p = Some (o, d2, p2).
Proof.
  intros Hp Hcomp Hlist HR. unfold duck.Run. by rewrite Hp, Hcomp, Hlist, HR.
Qed.

(** C2: an error of a check's [Execute] is what [Run] returns, whatever
    policies are configured; the call of [RunTarget] for that target
    returns it, so does the call for a target that depends on it, and so
    does the top-level [Run]. An error of an action's [Execute] is
    resolved by the exit and cancel policies: [os.Exit], an error, or a
    nil return with the target cleared. *)
Theorem check_error_fatal_action_error_policy :
  (∀ t p p0 pre c post t1 p1 e w2,
      Cleared t = false →
      poll p = (None, p0) →
      Checks t = pre ++ c :: post →
      checks_loop 0 pre t (emit (EvRun (Id t)) p0) = (Next, t1, p1) →
      checks.Execute c (ctx p1) (world p1) = (Some e, w2) →
      target.Run t p
        = (Error e, t, set_world w2 (emit (EvCheck (Id t) (length pre)) p1))) ∧
  (∀ depth x L d p p0 t L1 d1 p1 t1 e t' p',
      poll p = (None, p0) →
      Targets d !! x = Some t →
      x ∉ L →
      Cleared t = false →
      RunTarget_deps (RunTarget depth) (Dependencies t) ({[x]} ∪ L) d p0
        = Some (Nil, L1, d1, p1) →
      Targets d1 !! x = Some t1 →
      target.Run t1 p1 = (Error e, t', p') →
      RunTarget (S depth) x L d p
        = Some (Error e, L1, set_Targets (<[x:=t']> (Targets d1)) d1, p')) ∧
  (∀ depth x L d p p0 t pre y post L1 d1 p1 e L2 d2 p2,
      poll p = (None, p0) →
      Targets d !! x = Some t →
      x ∉ L →
      Cleared t = false →
      Dependencies t = pre ++ y :: post →
      RunTarget_deps (RunTarget depth) pre ({[x]} ∪ L) d p0
        = Some (Nil, L1, d1, p1) →
      RunTarget depth y L1 d1 p1 = Some (Error e, L2, d2, p2) →
      RunTarget (S depth) x L d p = Some (Error e, L2, d2, p2)) ∧
  (∀ (env : Env W) d p p0 d1 p1 e L d2 p2,
      poll p = (None, p0) →
      CompileTargets env d p0 = (None, d1, p1) →
      ListTargets_ (duck.Config_ d1) = false →
      RunTarget (depth_for ∅ d1) (Target_ (duck.Config_ d1)) ∅ d1 p1
        = Some (Error e, L, d2, p2) →
      duck.Run env d p = Some (Error e, d2, p2)) ∧
  (∀ t p p0 t1 p1 pre a post t2 p2 e w3,
      Cleared t = false →
      poll p = (None, p0) →
      checks_loop 0 (Checks t) t (emit (EvRun (Id t)) p0) = (Next, t1, p1) →
      Actions t = pre ++ a :: post →
      actions_loop 0 pre t p1 = (Next, t2, p2) →
      actions.Execute a (ctx p2) (world p2) = (Some e, w3) →
      let p' := set_world w3 (emit (EvAction (Id t) (length pre)) p2) in
      target.Run t p =
      if effective (actions.ExitOnFailure (actions.GetConfig a))
                   (ExitOnActionFailure (target.Config_ t))
      then (Exit 1, t, p')
      else if effective (actions.CancelOnFailure (actions.GetConfig a))
                        (CancelOnActionFailure (target.Config_ t))
           then (Error "action failed, cancelling run", t, p')
           else (Nil, set_Cleared true t, p')).
Proof.
  split_and!.
  - apply Run_check_error.
  - intros. by eapply RunTarget_body.
  - intros. by eapply RunTarget_dep_error.
  - intros. by eapply Run_RunTarget.
  - intros t p p0 t1 p1 pre a post t2 p2 e w3 Hc Hp Hcs Has Hpre Hex p'.
    rewrite <- (should_effective (actions.ExitOnFailure _)),
            <- (should_effective (actions.CancelOnFailure _)).
    by eapply Run_action_error.
Qed.

End errors.

Section cycles.
Context {W : Type}.
Implicit Types (t : Target W) (p : Proc W) (d : Duck W).

Lemma depth_for_two d a b :
  a ≠ b → is_Some (Targets d !! a) → is_Some (Targets d !! b) →
  ∃ n, depth_for ∅ d = S (S (S n)).
Proof.
  intros Hne Ha%elem_of_dom Hb%elem_of_dom. unfold depth_for.
  assert (size ({[a; b]} : gset string) ≤ size (dom (Targets d) ∖ ∅))%nat as Hsz.
  { apply subseteq_size. set_solver. }
  rewrite size_union, !size_singleton in Hsz by set_solver.
  exists (size (dom (Targets d) ∖ ∅) - 2). lia.
Qed.

(** The walk over the cycle of [a] and [b], at any depth that allows the
    three nested calls. *)
Lemma two_cycle_walk n d p a b ta tb :
  a ≠ b →
  Targets d !! a = Some ta → Targets d !! b = Some tb →
  Dependencies ta = [b] → Dependencies tb = [a] →
  Cleared ta = false → Cleared tb = false →
  Id ta = a → Id tb = b →
  ∃ o L' d' p' tr,
    RunTarget (S (S (S n))) a ∅ d p = Some (o, L', d', p') ∧
    events p' = events p ++ tr ∧
    (o = Nil → bodies tr = [b; a]) ∧
    (bodies tr = [b; a] ∨ bodies tr = [b] ∨ bodies tr = []).
Proof.
  intros Hne Ha Hb Hda Hdb Hca Hcb Hia Hib.
  assert (∀ (o : Outcome) (p0 : Proc W), events p0 = events p → o ≠ Nil →
            ∃ tr, events p0 = events p ++ tr ∧ (o = Nil → bodies tr = [b; a]) ∧
                  (bodies tr = [b; a] ∨ bodies tr = [b] ∨ bodies tr = [])) as Hstop.
  { intros o p0 Hev Ho. exists []. rewrite app_nil_r. split_and!; [done|done|auto]. }
  (* the call on [a] *)
  destruct (RunTarget_guards (S (S n)) a ∅ d p)
    as [(o0 & p0 & H0 & Hev0 & Hnil0)|(p0 & ta' & Hp0 & Ha' & _ & _)].
  { exists o0, ∅, d, p0. rewrite H0.
    destruct (Hstop o0 p0 Hev0) as (tr & ? & ? & ?); [|by exists tr].
    intros ->. destruct (Hnil0 eq_refl) as [?|(t & Ht & Hc)]; [set_solver|congruence]. }
  replace ta' with ta in * by congruence. clear Ha'.
  rewrite (RunTarget_step _ _ _ _ _ _ _ Hp0 Ha (not_elem_of_empty a) Hca), Hda.
  apply poll_inv in Hp0 as [Hev0 _]. cbn [RunTarget_deps].
  (* the call on [b] *)
  destruct (RunTarget_guards (S n) b ({[a]} ∪ ∅) d p0)
    as [(o1 & p1 & H1 & Hev1 & Hnil1)|(p1 & tb' & Hp1 & Hb' & HLb & _)].
  { rewrite H1. assert (o1 ≠ Nil) as Ho1.
    { intros ->. destruct (Hnil1 eq_refl) as [?|(t & Ht & Hc)]; [set_solver|congruence]. }
    destruct (Hstop o1 p1) as (tr & ? & ? & ?); [congruence|done|].
    exists o1, ({[a]} ∪ ∅), d, p1, tr. by destruct o1. }
  replace tb' with tb in * by congruence. clear Hb'.
  rewrite (RunTarget_step _ _ _ _ _ _ _ Hp1 Hb HLb Hcb), Hdb.
  apply poll_inv in Hp1 as [Hev1 _]. cbn [RunTarget_deps].
  (* the call on [a] again: it is in the lineage *)
  destruct (RunTarget_guards n a ({[b]} ∪ ({[a]} ∪ ∅)) d p1)
    as [(o2 & p2 & H2 & Hev2 & _)|(p2 & t2 & _ & _ & HLa & _)]; [|set_solver].
  rewrite H2.
  destruct (decide (o2 = Nil)) as [->|Ho2].
  2: { destruct (Hstop o2 p2) as (tr & ? & ? & ?); [congruence|done|].
       exists o2, ({[b]} ∪ ({[a]} ∪ ∅)), d, p2, tr. by destruct o2. }
  (* the body of [b] *)
  rewrite Hb. destruct (target.Run tb p2) as [[ob tb1] pb] eqn:HRb.
  apply Run_inv in HRb as [(? & _)|(_ & trb & Hevb & Hbb & Htb)]; [congruence|].
  rewrite Hib in Hbb.
  destruct (decide (ob = Nil)) as [->|Hob].
  2: { exists ob, ({[b]} ∪ ({[a]} ∪ ∅)), (set_Targets (<[b:=tb1]> (Targets d)) d), pb, trb.
       split; [by destruct ob|]. split; [congruence|]. split; [done|].
       destruct Hbb as [->|[-> _]]; auto. }
  destruct Hbb as [Hbb|[_ ?]]; [|done].
  (* the body of [a] *)
  simpl. rewrite lookup_insert_ne, Ha by done.
  destruct (target.Run ta pb) as [[oa ta1] pa] eqn:HRa.
  apply Run_inv in HRa as [(? & _)|(_ & tra & Heva & Hba & Hta)]; [congruence|].
  rewrite Hia in Hba.
  eexists oa, _, _, pa, (trb ++ tra). split; [done|].
  split; [rewrite Heva, Hevb; by rewrite app_assoc; congruence|].
  rewrite bodies_app, Hbb.
  destruct Hba as [->|[-> Hoa]]; simpl; [auto|].
  split; [done|auto].
Qed.

(** C5: when [a] depends on [b] and [b] on [a], a top-level call on [a]
    with an empty lineage returns; no body runs twice, the body of [a]
    never runs without the body of [b] before it, and when the call
    returns nil both bodies have run, each exactly once. *)
Theorem two_cycle d p a b ta tb :
  a ≠ b →
  Targets d !! a = Some ta → Targets d !! b = Some tb →
  Dependencies ta = [b] → Dependencies tb = [a] →
  Cleared ta = false → Cleared tb = false →
  Id ta = a → Id tb = b →
  ∃ o L' d' p' tr,
    RunTarget (depth_for ∅ d) a ∅ d p = Some (o, L', d', p') ∧
    events p' = events p ++ tr ∧
    (o = Nil → bodies tr = [b; a]) ∧
    (bodies tr = [b; a] ∨ bodies tr = [b] ∨ bodies tr = []).
Proof.
  intros Hne Ha Hb. destruct (depth_for_two d a b) as [n ->]; [done..|].
  by apply two_cycle_walk.
Qed.

End cycles.

Section lineage.
Context {W : Type}.
Implicit Types (t : Target W) (p : Proc W) (d : Duck W).


End lineage.
End engine_props.

(** ** The document resolver *)
Module resolver_props.
Import duck.

Section expand.
Context {W : Type} (env : Env W).
Implicit Types (p : Proc W) (d : Duck W) (u : URL).

(** C10: a locator of an object store that addresses one object, with a
    path that is not empty and does not end in a separator, expands to no
    document and no error when the object does not exist; [GetDuckfiles]
    returns the empty list and [CompileTargets] goes on with the locators
    that follow. *)
Theorem missing_object_contributes_nothing floc files d p p1 p2 u bucket :
  poll p = (None, p1) →
  Contains floc "://" = true →
  url_Parse env floc = Ok u →
  Scheme u = "s3" ∨ Scheme u = "gs" ∨ Scheme u = "azblob" →
  poll p1 = (None, p2) →
  blob_OpenBucket env
    (if negb (String.eqb (RawQuery u) "")
     then (Scheme u +:+ "://" +:+ Host u) +:+ "?" +:+ RawQuery u
     else Scheme u +:+ "://" +:+ Host u) = Ok bucket →
  HasSuffix (TrimPrefix (Path u) "/") "/" = false →
  TrimPrefix (Path u) "/" ≠ "" →
  Exists bucket (TrimPrefix (Path u) "/") = Ok false →
  handleCloudURL env u floc p1 = (Ok [], p2) ∧
  GetDuckfiles env floc p = (Ok [], p2) ∧
  CompileTargets_files env (floc :: files) d p = CompileTargets_files env files d p2.
Proof.
  intros Hp Hc Hparse Hs Hp1 Hopen Hsuf Hne Hex.
  assert (handleCloudURL env u floc p1 = (Ok [], p2)) as Hcloud.
  { unfold handleCloudURL. rewrite Hp1, Hopen, Hsuf, Hex.
    apply String.eqb_neq in Hne. by rewrite Hne. }
  assert (GetDuckfiles env floc p = (Ok [], p2)) as Hget.
  { unfold GetDuckfiles. rewrite Hp, Hc, Hparse.
    by destruct Hs as [Hs|[Hs|Hs]]; rewrite Hs. }
  split_and!; [done..|]. simpl. by rewrite Hget.
Qed.

End expand.

Section merge.
Context {W : Type} (env : Env W).
Implicit Types (p : Proc W) (d : Duck W) (u v : URL) (self : @Loader W).

Ltac poll_cases H :=
  match type of H with
  | context [poll ?p] =>
    let e := fresh "e" in let p0 := fresh "p0" in let Hp := fresh "Hp" in
    destruct (poll p) as [[e|] p0] eqn:Hp;
    apply engine_props.poll_inv in Hp as [? ?]
  end.

Lemma res_frame_refl d p : res_frame d p d p.
Proof. by unfold res_frame. Qed.

Lemma res_frame_trans d p d1 p1 d2 p2 :
  res_frame d p d1 p1 → res_frame d1 p1 d2 p2 → res_frame d p d2 p2.
Proof.
  intros (? & ? & ? & ? & ?) (? & ? & ? & ? & ?). unfold res_frame.
  split_and!; try congruence; by etrans.
Qed.

Lemma res_frame_proc d p p' :
  events p' = events p → world p' = world p → res_frame d p d p'.
Proof. by unfold res_frame. Qed.

(** *** The loaders and the expansion touch nothing but the context *)

Lemma GetDuckfiles_inv floc p r p' :
  GetDuckfiles env floc p = (r, p') → events p' = events p ∧ world p' = world p.
Proof.
  unfold GetDuckfiles, handleFileURL, handleCloudURL, handleHTTPURL. intros H.
  poll_cases H; [by injection H as <- <-|].
  repeat case_match; simplify_eq; try done;
    match goal with
    | H : poll _ = _ |- _ => apply engine_props.poll_inv in H as [? ?]; split; congruence
    end.
Qed.

Lemma LoadDuckfile_switch_inv u p r p' :
  LoadDuckfile_switch env u p = (r, p') → events p' = events p ∧ world p' = world p.
Proof.
  unfold LoadDuckfile_switch, loadFileURL, loadHTTPURL, loadCloudURL. intros H.
  repeat case_match; simplify_eq; try done;
    match goal with
    | H : poll _ = _ |- _ => by apply engine_props.poll_inv in H
    end.
Qed.

(** A load that succeeds gives the tree that any other load of the same
    document gives. *)
Lemma loads_det u k k' : loads env u k → loads env u k' → k = k'.
Proof.
  intros (p & p' & H) (q & q' & H').
  unfold LoadDuckfile_switch, loadFileURL, loadHTTPURL, loadCloudURL in *.
  repeat case_match; simplify_eq; done.
Qed.

(** An expansion that succeeds gives the list that any other expansion
    of the same locator gives. *)
Lemma GetDuckfiles_det floc p p' q q' urls urls' :
  GetDuckfiles env floc p = (Ok urls, p') →
  GetDuckfiles env floc q = (Ok urls', q') → urls = urls'.
Proof.
  unfold GetDuckfiles, handleFileURL, handleCloudURL, handleHTTPURL.
  intros H H'. repeat case_match; simplify_eq; try done; congruence.
Qed.

(** *** [appendTarget] *)

Lemma appendTarget_inv name konfig d p r d' p' :
  appendTarget env name konfig d p = (r, d', p') →
  events p' = events p ∧ world p' = world p ∧
  match r with
  | None => Targets d !! name = None ∧
            ∃ t, d' = set_Targets (<[name:=t]> (Targets d)) d
  | Some _ => d' = d
  end.
Proof.
  unfold appendTarget. intros H. poll_cases H; [by injection H as <- <- <-|].
  case_bool_decide as Hex; [by injection H as <- <- <-|].
  destruct (NewTarget env _ _) as [t|e]; injection H as <- <- <-; [|done].
  split_and!; [done..| |by exists t].
  by apply eq_None_not_Some.
Qed.

Lemma appendTarget_exists name konfig d p p0 :
  poll p = (None, p0) →
  is_Some (Targets d !! name) →
  appendTarget env name konfig d p
    = (Some ("target " +:+ name +:+ " already exists"), d, p0).
Proof.
  intros Hp Hex. unfold appendTarget. rewrite Hp. by rewrite bool_decide_eq_true_2.
Qed.

Lemma appendTarget_frame name konfig d p r d' p' :
  appendTarget env name konfig d p = (r, d', p') → res_frame d p d' p'.
Proof.
  intros (Hev & Hw & Hr)%appendTarget_inv. destruct r as [e|].
  - subst d'. by apply res_frame_proc.
  - destruct Hr as (Hfresh & t & ->). unfold res_frame. simpl.
    split_and!; try done. by apply insert_subseteq.
Qed.

(** *** The frame of the loops of [LoadDuckfile] *)

Section loops_frame.
Variable self : @Loader W.
Hypothesis self_frame :
  ∀ v d p r d' p', self v false d p = (r, d', p') → res_frame d p d' p'.

Lemma depURLs_frame depURLs : ∀ d p r d' p',
  LoadDuckfile_depURLs env self depURLs d p = (r, d', p') → res_frame d p d' p'.
Proof.
  induction depURLs as [|v vs IH]; intros d p r d' p' H; simpl in H.
  - injection H as <- <- <-. apply res_frame_refl.
  - destruct (self v false d p) as [[[e|] d1] p1] eqn:Hv; apply self_frame in Hv.
    + by injection H as <- <- <-.
    + eapply res_frame_trans; [done|]. by eapply IH.
Qed.

Lemma deps_frame deps : ∀ d p r d' p',
  LoadDuckfile_deps env self deps d p = (r, d', p') → res_frame d p d' p'.
Proof.
  induction deps as [|dep deps IH]; intros d p r d' p' H; simpl in H.
  - injection H as <- <- <-. apply res_frame_refl.
  - destruct (GetDuckfiles env dep p) as [[urls|e] p1] eqn:Hg;
      apply GetDuckfiles_inv in Hg as [Hev Hw].
    + destruct (LoadDuckfile_depURLs _ _ _ _ _) as [[[e|] d2] p2] eqn:Hu;
        apply depURLs_frame in Hu;
        (eapply res_frame_trans; [by apply (res_frame_proc d p p1)|]).
      * by injection H as <- <- <-.
      * eapply res_frame_trans; [done|]. by eapply IH.
    + injection H as <- <- <-. by apply res_frame_proc.
Qed.

Lemma keys_frame k recurse keys : ∀ d p r d' p',
  LoadDuckfile_keys env self k recurse keys d p = (r, d', p') → res_frame d p d' p'.
Proof.
  induction keys as [|key keys IH]; intros d p r d' p' H; simpl in H.
  - injection H as <- <- <-. apply res_frame_refl.
  - destruct (String.eqb key "_meta").
    + destruct recurse; [|by eapply IH].
      destruct (0 <? _)%nat; [|by eapply IH].
      destruct (LoadDuckfile_deps _ _ _ _ _) as [[[e|] d1] p1] eqn:Hd;
        apply deps_frame in Hd.
      * by injection H as <- <- <-.
      * eapply res_frame_trans; [done|]. by eapply IH.
    + destruct (appendTarget _ _ _ _ _) as [[[e|] d1] p1] eqn:Ha;
        apply appendTarget_frame in Ha.
      * by injection H as <- <- <-.
      * eapply res_frame_trans; [done|]. by eapply IH.
Qed.

Lemma LoadDuckfile_body_frame u recurse d p r d' p' :
  LoadDuckfile_body env self u recurse d p = (r, d', p') → res_frame d p d' p'.
Proof.
  unfold LoadDuckfile_body. intros H. poll_cases H.
  { injection H as <- <- <-. by apply res_frame_proc. }
  eapply res_frame_trans; [by apply (res_frame_proc d p p0)|].
  case_bool_decide as Hex; [injection H as <- <- <-; apply res_frame_refl|].
  destruct (LoadDuckfile_switch env u p0) as [[k|e] p1] eqn:Hs;
    apply LoadDuckfile_switch_inv in Hs as [Hev Hw].
  - apply keys_frame in H. destruct H as (? & ? & Hsub & ? & ?).
    unfold res_frame. simpl in *. split_and!; try congruence; [done|].
    etrans; [|done]. apply insert_subseteq. by apply eq_None_not_Some.
  - injection H as <- <- <-. unfold res_frame. simpl. split_and!; try done.
    apply insert_subseteq. by apply eq_None_not_Some.
Qed.

End loops_frame.

(** *** The recursion of [LoadDuckfile] *)

Lemma keys_ext self self' k recurse keys :
  (∀ v d p, self v false d p = self' v false d p) →
  ∀ d p, LoadDuckfile_keys env self k recurse keys d p
         = LoadDuckfile_keys env self' k recurse keys d p.
Proof.
  intros Hext.
  assert (∀ vs d p, LoadDuckfile_depURLs env self vs d p
                    = LoadDuckfile_depURLs env self' vs d p) as Hurls.
  { induction vs as [|v vs IH]; intros d p; simpl; [done|].
    rewrite Hext. destruct (self' v false d p) as [[[e|] d1] p1]; [done|apply IH]. }
  assert (∀ deps d p, LoadDuckfile_deps env self deps d p
                      = LoadDuckfile_deps env self' deps d p) as Hdeps.
  { induction deps as [|dep deps IH]; intros d p; simpl; [done|].
    destruct (GetDuckfiles env dep p) as [[urls|e] p1]; [|done].
    rewrite Hurls. destruct (LoadDuckfile_depURLs _ _ _ _ _) as [[[e|] d2] p2];
      [done|apply IH]. }
  induction keys as [|key keys IH]; intros d p; simpl; [done|].
  destruct (String.eqb key "_meta").
  - destruct recurse; [|apply IH]. destruct (0 <? _)%nat; [|apply IH].
    rewrite Hdeps. destruct (LoadDuckfile_deps _ _ _ _ _) as [[[e|] d1] p1];
      [done|apply IH].
  - destruct (appendTarget _ _ _ _ _) as [[[e|] d1] p1]; [done|apply IH].
Qed.

(** A call with [recurse = false] makes no recursive call. *)
Lemma keys_leaf self self' k keys : ∀ d p,
  LoadDuckfile_keys env self k false keys d p
  = LoadDuckfile_keys env self' k false keys d p.
Proof.
  induction keys as [|key keys IH]; intros d p; simpl; [done|].
  destruct (String.eqb key "_meta"); [apply IH|].
  destruct (appendTarget _ _ _ _ _) as [[[e|] d1] p1]; [done|apply IH].
Qed.

Lemma body_leaf self self' u d p :
  LoadDuckfile_body env self u false d p = LoadDuckfile_body env self' u false d p.
Proof.
  unfold LoadDuckfile_body. destruct (poll p) as [[e|] p0]; [done|].
  case_bool_decide; [done|].
  destruct (LoadDuckfile_switch env u p0) as [[k|e] p1]; [apply keys_leaf|done].
Qed.

(** [LoadDuckfile] is the function that its source defines: the body,
    with [LoadDuckfile] itself at the recursive call. *)
Lemma LoadDuckfile_unfold u recurse d p :
  LoadDuckfile env u recurse d p
  = LoadDuckfile_body env (LoadDuckfile env) u recurse d p.
Proof.
  unfold LoadDuckfile at 1. unfold LoadDuckfile_body.
  destruct (poll p) as [[e|] p0]; [done|]. case_bool_decide; [done|].
  destruct (LoadDuckfile_switch env u p0) as [[k|e] p1]; [|done].
  apply keys_ext. intros v d1 p2. unfold LoadDuckfile, LoadDuckfile_leaf.
  apply body_leaf.
Qed.

Lemma LoadDuckfile_leaf_frame v d p r d' p' :
  LoadDuckfile_leaf env v false d p = (r, d', p') → res_frame d p d' p'.
Proof. apply LoadDuckfile_body_frame. intros ?????? [= _ <- <-]. apply res_frame_refl. Qed.

Lemma LoadDuckfile_frame u recurse d p r d' p' :
  LoadDuckfile env u recurse d p = (r, d', p') → res_frame d p d' p'.
Proof. apply LoadDuckfile_body_frame, LoadDuckfile_leaf_frame. Qed.

Lemma CompileTargets_duckfiles_frame duckfiles : ∀ d p r d' p',
  CompileTargets_duckfiles env duckfiles d p = (r, d', p') → res_frame d p d' p'.
Proof.
  induction duckfiles as [|v vs IH]; intros d p r d' p' H; simpl in H.
  - injection H as <- <- <-. apply res_frame_refl.
  - destruct (LoadDuckfile env v true d p) as [[[e|] d1] p1] eqn:Hv;
      apply LoadDuckfile_frame in Hv.
    + by injection H as <- <- <-.
    + eapply res_frame_trans; [done|]. by eapply IH.
Qed.

Lemma CompileTargets_files_frame files : ∀ d p r d' p',
  CompileTargets_files env files d p = (r, d', p') → res_frame d p d' p'.
Proof.
  induction files as [|floc files IH]; intros d p r d' p' H; simpl in H.
  - injection H as <- <- <-. apply res_frame_refl.
  - destruct (GetDuckfiles env floc p) as [[urls|e] p1] eqn:Hg;
      apply GetDuckfiles_inv in Hg as [Hev Hw].
    + eapply res_frame_trans; [by apply (res_frame_proc d p p1)|].
      destruct (CompileTargets_duckfiles _ _ _ _) as [[[e|] d2] p2] eqn:Hu;
        apply CompileTargets_duckfiles_frame in Hu.
      * by injection H as <- <- <-.
      * eapply res_frame_trans; [done|]. by eapply IH.
    + injection H as <- <- <-. by apply res_frame_proc.
Qed.

Lemma CompileTargets_frame d p r d' p' :
  CompileTargets env d p = (r, d', p') → res_frame d p d' p'.
Proof.
  unfold CompileTargets. intros H. poll_cases H.
  - injection H as <- <- <-. by apply res_frame_proc.
  - eapply res_frame_trans; [by apply (res_frame_proc d p p0)|].
    by eapply CompileTargets_files_frame.
Qed.

(** *** Which documents a pass loads *)




Lemma adds_same P d d' : Duckfiles d' = Duckfiles d → adds P d d'.
Proof. intros Heq s u. rewrite Heq. by left. Qed.



Section loops_adds.
Variable self : @Loader W.
Hypothesis self_adds :
  ∀ v d p r d' p', self v false d p = (r, d', p') → adds (λ u, u = v) d d'.





End loops_adds.




(** *** What a load merges *)


Lemma merge_inv_weaken owner owner' I d d' :
  merge_inv env owner I d → owner ⊆ owner' →
  dom owner' ⊆ dom (Targets d') → Duckfiles d' = Duckfiles d →
  merge_inv env owner' I d'.
Proof.
  intros [_ Hown] Hsub Hdom HD. split; [done|].
  intros s u key Hs HI Hkey. rewrite HD in Hs.
  eapply lookup_weaken; [|done]. by eapply Hown.
Qed.

Section loops_own.
Variable self : @Loader W.
Hypothesis self_frame :
  ∀ v d p r d' p', self v false d p = (r, d', p') → res_frame d p d' p'.
Hypothesis self_own :
  ∀ I v d p d' p' owner,
    merge_inv env owner I d → self v false d p = (None, d', p') →
    ∃ owner', owner ⊆ owner' ∧ merge_inv env owner' I d'.

Lemma depURLs_own I depURLs : ∀ d p d' p' owner,
  merge_inv env owner I d →
  LoadDuckfile_depURLs env self depURLs d p = (None, d', p') →
  ∃ owner', owner ⊆ owner' ∧ merge_inv env owner' I d'.
Proof.
  induction depURLs as [|v vs IH]; intros d p d' p' owner Hinv H; simpl in H.
  - injection H as <- <-. by exists owner.
  - destruct (self v false d p) as [[[e|] d1] p1] eqn:Hv; [done|].
    destruct (self_own _ _ _ _ _ _ _ Hinv Hv) as (owner1 & Hsub1 & Hinv1).
    destruct (IH _ _ _ _ _ Hinv1 H) as (owner2 & Hsub2 & Hinv2).
    exists owner2. split; [by etrans|done].
Qed.

Lemma deps_own I deps : ∀ d p d' p' owner,
  merge_inv env owner I d →
  LoadDuckfile_deps env self deps d p = (None, d', p') →
  ∃ owner', owner ⊆ owner' ∧ merge_inv env owner' I d'.
Proof.
  induction deps as [|dep deps IH]; intros d p d' p' owner Hinv H; simpl in H.
  - injection H as <- <-. by exists owner.
  - destruct (GetDuckfiles env dep p) as [[urls|e] p1]; [|done].
    destruct (LoadDuckfile_depURLs _ _ _ _ _) as [[[e|] d2] p2] eqn:Hu; [done|].
    destruct (depURLs_own _ _ _ _ _ _ _ Hinv Hu) as (owner1 & Hsub1 & Hinv1).
    destruct (IH _ _ _ _ _ Hinv1 H) as (owner2 & Hsub2 & Hinv2).
    exists owner2. split; [by etrans|done].
Qed.

Lemma keys_own I sv k recurse keys : ∀ d p d' p' owner,
  merge_inv env owner I d →
  LoadDuckfile_keys env self k recurse keys d p = (None, d', p') →
  ∃ owner', owner ⊆ owner' ∧ merge_inv env owner' I d' ∧
            ∀ key, key ∈ keys → key ≠ "_meta" → owner' !! key = Some sv.
Proof.
  induction keys as [|key0 keys IH]; intros d p d' p' owner Hinv H; simpl in H.
  - injection H as <- <-. exists owner. split_and!; [done..|].
    by intros key ?%elem_of_nil.
  - destruct (String.eqb_spec key0 "_meta") as [->|Hne0].
    + assert (∃ d1 p1 owner1, owner ⊆ owner1 ∧ merge_inv env owner1 I d1 ∧
                LoadDuckfile_keys env self k recurse keys d1 p1 = (None, d', p'))
        as (d1 & p1 & owner1 & Hsub1 & Hinv1 & H1).
      { destruct recurse; [|by exists d, p, owner].
        destruct (0 <? _)%nat; [|by exists d, p, owner].
        destruct (LoadDuckfile_deps _ _ _ _ _) as [[[e|] d1] p1] eqn:Hd; [done|].
        destruct (deps_own _ _ _ _ _ _ _ Hinv Hd) as (owner1 & ? & ?).
        by exists d1, p1, owner1. }
      destruct (IH _ _ _ _ _ Hinv1 H1) as (owner2 & Hsub2 & Hinv2 & Hkeys).
      exists owner2. split_and!; [by etrans|done|].
      intros key [->|?]%elem_of_cons; [done|auto].
    + destruct (appendTarget _ _ _ _ _) as [[[e|] d1] p1] eqn:Ha; [done|].
      apply appendTarget_inv in Ha as (_ & _ & Hfresh & t & ->).
      assert (owner !! key0 = None) as Hnone.
      { apply not_elem_of_dom. intros Hin. destruct Hinv as [Hdom _].
        apply Hdom, elem_of_dom in Hin. rewrite Hfresh in Hin. by destruct Hin. }
      assert (merge_inv env (<[key0:=sv]> owner) I
                (set_Targets (<[key0:=t]> (Targets d)) d)) as Hinv1.
      { eapply merge_inv_weaken; [done|by apply insert_subseteq| |done].
        simpl. rewrite !dom_insert_L. destruct Hinv as [Hdom _]. set_solver. }
      destruct (IH _ _ _ _ _ Hinv1 H) as (owner2 & Hsub2 & Hinv2 & Hkeys).
      exists owner2. split_and!; [|done|].
      * etrans; [|done]. by apply insert_subseteq.
      * intros key [->|?]%elem_of_cons; [|auto]. intros _.
        eapply lookup_weaken; [|done]. apply lookup_insert_eq.
Qed.

Lemma body_own I u recurse d p d' p' owner :
  merge_inv env owner I d →
  LoadDuckfile_body env self u recurse d p = (None, d', p') →
  ∃ owner', owner ⊆ owner' ∧ merge_inv env owner' I d'.
Proof.
  unfold LoadDuckfile_body. intros Hinv H.
  destruct (poll p) as [[e|] p0]; [done|].
  case_bool_decide as Hex; [injection H as <- <-; by exists owner|].
  apply eq_None_not_Some in Hex.
  destruct (LoadDuckfile_switch env u p0) as [[k|e] p1] eqn:Hs; [|done].
  set (su := url_String env u) in *.
  set (d0 := set_Duckfiles (<[su:=u]> (Duckfiles d)) d) in *.
  assert (merge_inv env owner (I ∪ {[su]}) d0) as Hinv0.
  { destruct Hinv as [Hdom Hown]. split; [done|].
    intros s v key Hv Hs' Hkey. simpl in Hv.
    rewrite lookup_insert_ne in Hv by set_solver.
    apply (Hown s v key Hv); [set_solver|done]. }
  destruct (keys_own _ su _ _ _ _ _ _ _ _ Hinv0 H) as (owner' & Hsub & [Hdom Hown] & Hkeys).
  exists owner'. split; [done|]. split; [done|].
  intros s v key Hv HI Hkey. destruct (decide (s = su)) as [->|Hne].
  - apply (keys_frame self self_frame) in H as (_ & _ & HD & _).
    assert (Duckfiles d' !! su = Some u) as Hu.
    { eapply lookup_weaken; [|done]. apply lookup_insert_eq. }
    replace v with u in * by congruence.
    destruct Hkey as (k' & Hk' & Hin & Hmeta).
    rewrite (loads_det u k' k Hk') in Hin by (by exists p0, p1). by apply Hkeys.
  - apply (Hown s v key Hv); [set_solver|done].
Qed.

End loops_own.

Lemma LoadDuckfile_leaf_own I v d p d' p' owner :
  merge_inv env owner I d → LoadDuckfile_leaf env v false d p = (None, d', p') →
  ∃ owner', owner ⊆ owner' ∧ merge_inv env owner' I d'.
Proof.
  apply body_own.
  - intros ?????? [= _ <- <-]. apply res_frame_refl.
  - intros ??????? Hinv [= <- <-]. by eexists.
Qed.

Lemma LoadDuckfile_own I u recurse d p d' p' owner :
  merge_inv env owner I d → LoadDuckfile env u recurse d p = (None, d', p') →
  ∃ owner', owner ⊆ owner' ∧ merge_inv env owner' I d'.
Proof.
  apply body_own; [apply LoadDuckfile_leaf_frame|].
  intros. by eapply LoadDuckfile_leaf_own.
Qed.

Lemma CompileTargets_own d p d' p' owner :
  merge_inv env owner ∅ d → CompileTargets env d p = (None, d', p') →
  ∃ owner', owner ⊆ owner' ∧ merge_inv env owner' ∅ d'.
Proof.
  assert (∀ vs d p d' p' owner,
             merge_inv env owner ∅ d →
             CompileTargets_duckfiles env vs d p = (None, d', p') →
             ∃ owner', owner ⊆ owner' ∧ merge_inv env owner' ∅ d') as Hdocs.
  { clear. induction vs as [|v vs IH]; intros d p d' p' owner Hinv H; simpl in H.
    - injection H as <- <-. by exists owner.
    - destruct (LoadDuckfile env v true d p) as [[[e|] d1] p1] eqn:Hv; [done|].
      destruct (LoadDuckfile_own _ _ _ _ _ _ _ _ Hinv Hv) as (owner1 & ? & Hinv1).
      destruct (IH _ _ _ _ _ Hinv1 H) as (owner2 & ? & ?).
      exists owner2. split; [by etrans|done]. }
  assert (∀ files d p d' p' owner,
             merge_inv env owner ∅ d →
             CompileTargets_files env files d p = (None, d', p') →
             ∃ owner', owner ⊆ owner' ∧ merge_inv env owner' ∅ d') as Hfiles.
  { clear -Hdocs. induction files as [|f files IH]; intros d p d' p' owner Hinv H;
      simpl in H.
    - injection H as <- <-. by exists owner.
    - destruct (GetDuckfiles env f p) as [[urls|e] p1]; [|done].
      destruct (CompileTargets_duckfiles _ _ _ _) as [[[e|] d2] p2] eqn:Hu; [done|].
      destruct (Hdocs _ _ _ _ _ _ Hinv Hu) as (owner1 & ? & Hinv1).
      destruct (IH _ _ _ _ _ Hinv1 H) as (owner2 & ? & ?).
      exists owner2. split; [by etrans|done]. }
  intros Hinv. unfold CompileTargets. destruct (poll p) as [[e|] p0]; [done|].
  by apply Hfiles.
Qed.


(** C6: a target id is merged once. [appendTarget] refuses an id that is
    in the table and leaves the table as it is; a pass of [CompileTargets]
    never replaces a target; when the pass succeeds on a new instance, no
    two of the documents it loaded declare the same id, and every declared
    id is in the table; and when the pass fails, [Run] returns its error
    with no target run. *)
Theorem duplicate_target_is_fatal :
  (∀ name konfig d p p0,
      poll p = (None, p0) →
      is_Some (Targets d !! name) →
      appendTarget env name konfig d p
        = (Some ("target " +:+ name +:+ " already exists"), d, p0)) ∧
  (∀ d p r d' p',
      CompileTargets env d p = (r, d', p') → Targets d ⊆ Targets d') ∧
  (∀ cfg p d' p',
      CompileTargets env (NewDuck cfg) p = (None, d', p') →
      ∀ s1 u1 s2 u2 key,
        Duckfiles d' !! s1 = Some u1 → Duckfiles d' !! s2 = Some u2 →
        defines env u1 key → defines env u2 key →
        s1 = s2 ∧ is_Some (Targets d' !! key)) ∧
  (∀ d p p0 e d1 p1,
      poll p = (None, p0) →
      CompileTargets env d p0 = (Some e, d1, p1) →
      duck.Run env d p = Some (Error e, d1, p1) ∧ events p1 = events p).
Proof.
  split_and!.
  - apply appendTarget_exists.
  - intros d p r d' p' H. by apply CompileTargets_frame in H as (_ & ? & _).
  - intros cfg p d' p' H s1 u1 s2 u2 key Hu1 Hu2 Hk1 Hk2.
    destruct (CompileTargets_own (NewDuck cfg) p d' p' ∅) as (owner & _ & Hdom & Hown);
      [|done|].
    { split; [set_solver|]. intros s u k0 Hs. simpl in Hs. by rewrite lookup_empty in Hs. }
    pose proof (Hown s1 u1 key Hu1 (not_elem_of_empty s1) Hk1) as H1.
    pose proof (Hown s2 u2 key Hu2 (not_elem_of_empty s2) Hk2) as H2.
    split; [congruence|]. apply elem_of_dom, Hdom, elem_of_dom. by eexists.
  - intros d p p0 e d1 p1 Hp Hc. unfold duck.Run. rewrite Hp, Hc. split; [done|].
    apply CompileTargets_frame in Hc as (_ & _ & _ & Hev & _).
    apply engine_props.poll_inv in Hp as [Hev0 _]. congruence.
Qed.

End merge.
End resolver_props.

(** ** The daemon loop of [cmd.DefaultApp] *)
Module daemon_props.
Import cmd.

Section deadline.
Context {W : Type} (env : duck.Env W) (konfig : duck.Config).
Implicit Types (s : Loop W) (tk : Tick).

Local Abbreviation T := (duck.DaemonTimeout konfig).
Local Abbreviation I := (duck.DaemonInterval konfig).

Open Scope Z_scope.

(** [Run] returns: the depth it gives [RunTarget] is enough. *)
Lemma Run_total (d : duck.Duck W) (p : Proc W) : is_Some (duck.Run env d p).
Proof.
  unfold duck.Run. destruct (poll p) as [[e|] p0]; [done|].
  destruct (duck.CompileTargets env d p0) as [[[e|] d1] p1]; [done|].
  destruct (duck.ListTargets_ _).
  { by destruct (duck.ListTargets env d1 p1) as [[[e|] d2] p2]. }
  destruct (engine_props.RunTarget_total d1 p1 (duck.Target_ (duck.Config_ d1)))
    as [[[[o L] d2] p2] ->]. done.
Qed.

(** A number of seconds that fits a [Duration] is converted as it is; a
    greater one wraps around. *)
Lemma seconds_small n : 0 ≤ n ≤ max_seconds → seconds n = n * Second.
Proof.
  unfold seconds, int64, Second, max_seconds. intros Hn.
  change (2 ^ 63) with 9223372036854775808.
  change (2 ^ 64) with 18446744073709551616.
  rewrite (Z.mod_small (n + _)) by lia.
  replace (n + 9223372036854775808 - 9223372036854775808) with n by lia.
  rewrite Z.mod_small by lia. lia.
Qed.

Lemma interval_nonneg : 0 ≤ interval konfig.
Proof. unfold interval. lia. Qed.

Lemma wake_bounds tk s :
  now s ≤ wake konfig tk s ∧
  wake konfig tk s ≤ now s + interval konfig ∧
  (∀ dl, timeoutCh s = Some dl → wake konfig tk s ≤ Z.max (now s) dl).
Proof.
  pose proof interval_nonneg.
  unfold wake, earlier, ready_at.
  destruct (timeoutCh s) as [dl|]; simpl;
    (destruct (ctx (proc s)) as [[|n]|]; simpl; [|destruct (signal tk); simpl..]);
    split_and!; try lia; intros dl' [= <-]; lia.
Qed.

Lemma wake_cases tk s :
  ready_at konfig tk s CtxDone = Some (wake konfig tk s) ∨
  ready_at konfig tk s TimeoutCh = Some (wake konfig tk s) ∨
  ready_at konfig tk s IntervalCh = Some (wake konfig tk s).
Proof.
  assert (ready_at konfig tk s IntervalCh = Some (now s + interval konfig)) as -> by done.
  unfold wake, earlier. generalize (now s + interval konfig). intros c.
  destruct (ready_at konfig tk s CtxDone) as [a|],
           (ready_at konfig tk s TimeoutCh) as [b|].
  - assert (Z.min a (Z.min b c) = a ∨ Z.min a (Z.min b c) = b
            ∨ Z.min a (Z.min b c) = c) as [-> | [-> | ->]] by lia; auto.
  - assert (Z.min a c = a ∨ Z.min a c = c) as [->| ->] by lia; auto.
  - assert (Z.min b c = b ∨ Z.min b c = c) as [->| ->] by lia; auto.
  - auto.
Qed.

Lemma chosen_ready tk s :
  ready_at konfig tk s (chosen konfig tk s) = Some (wake konfig tk s).
Proof.
  unfold chosen, is_ready. repeat case_bool_decide; try done.
  by destruct (wake_cases tk s) as [?|[?|?]].
Qed.

Lemma arm_spec s :
  0 < T →
  now (arm konfig s) = now s ∧ slept (arm konfig s) = slept s ∧
  running (arm konfig s) = running s ∧ proc (arm konfig s) = proc s ∧
  iterationCount (arm konfig s) = iterationCount s ∧
  match timeoutCh s with
  | Some dl => timeoutCh (arm konfig s) = Some dl ∧ armed (arm konfig s) = armed s
  | None => timeoutCh (arm konfig s) = Some (now s + seconds T) ∧
            armed (arm konfig s) = S (armed s)
  end.
Proof.
  intros HT. unfold arm. destruct (timeoutCh s) as [dl|] eqn:Hdl.
  - rewrite bool_decide_eq_false_2 by done. simpl. by rewrite Hdl.
  - rewrite bool_decide_eq_true_2 by done.
    by replace (0 <? T) with true by (symmetry; apply Z.ltb_lt; lia).
Qed.

(** The Sleeping phase: the deadline is set, the sleep ends by the
    deadline if it began before it, the loop goes on only when the
    interval timer fired, and [iterationCount] moves only then. *)
Lemma sleeping_spec tk s :
  0 < T →
  let s' := sleeping konfig tk s in
  ∃ dl, timeoutCh (arm konfig s) = Some dl ∧ timeoutCh s' = Some dl ∧
        armed s' = armed (arm konfig s) ∧
        now s ≤ now s' ∧ now s' ≤ Z.max (now s) dl ∧
        slept s' = slept s + (now s' - now s) ∧
        (running s' = true → running s = true ∧ now s' = now s + interval konfig) ∧
        (iterationCount s' ≠ iterationCount s → now s' = now s + interval konfig).
Proof.
  intros HT s'. subst s'. unfold sleeping.
  destruct (arm_spec s HT) as (Hnow & Hsl & Hrun & Hproc & Hit & Harm).
  set (s1 := arm konfig s) in *.
  assert (∃ dl, timeoutCh s1 = Some dl) as [dl Hdl].
  { destruct (timeoutCh s); destruct Harm; eauto. }
  exists dl. split; [done|].
  destruct (wake_bounds tk s1) as (Hw1 & Hw2 & Hw3). specialize (Hw3 dl Hdl).
  pose proof (chosen_ready tk s1) as Hch.
  destruct (chosen konfig tk s1); simpl;
    try (rewrite Hdl; split_and!; [done|done|lia..|done|congruence]).
  simpl in Hch. injection Hch as Hch.
  destruct (_ && _); simpl; rewrite Hdl; (split_and!; [done|done|lia..| |]);
    try done; try (intros _; lia).
  intros Hr. split; [congruence|lia].
Qed.

Lemma sleeping_inv tk s :
  0 < T → deadline_inv konfig s → deadline_inv konfig (sleeping konfig tk s).
Proof.
  intros HT Hinv. destruct (sleeping_spec tk s HT)
    as (dl & Harm & Hdl & Ha & Hn1 & Hn2 & Hsl & _).
  destruct (arm_spec s HT) as (_ & _ & _ & _ & _ & Harm').
  unfold deadline_inv in *. rewrite Hdl, Ha, Hsl.
  destruct (timeoutCh s) as [dl0|].
  - destruct Harm' as [Hdl0 ->]. rewrite Hdl0 in Harm. injection Harm as ->.
    destruct Hinv as (-> & ? & ? & ?). split; [done|]. lia.
  - destruct Harm' as [Hdl0 ->]. rewrite Hdl0 in Harm. injection Harm as <-.
    destruct Hinv as (-> & ->). split; [done|]. lia.
Qed.

Lemma pass_inv tk s r s' :
  0 < T → 0 ≤ run_time tk →
  deadline_inv konfig s → pass env konfig tk s = Some (r, s') →
  deadline_inv konfig s'.
Proof.
  intros HT Hrt Hinv. unfold pass.
  destruct (poll (proc s)) as [[e|] p0]; [by intros [= <- <-]|].
  destruct (duck.Run _ _ _) as [[[o d1] p1]|]; [|done].
  assert (deadline_inv konfig (elapse (run_time tk) (set_proc p1 (set_proc p0 s)))) as He.
  { unfold deadline_inv in *. simpl. destruct (timeoutCh s); [|done].
    destruct Hinv as (? & ? & ? & ?). split_and!; [done..|lia]. }
  destruct o; try by intros [= <- <-].
  destruct (duck.Daemon konfig); intros [= <- <-]; [by apply sleeping_inv|done].
Qed.

Lemma DefaultApp_loop_inv ticks : ∀ s r s',
  0 < T → (∀ tk, tk ∈ ticks → 0 ≤ run_time tk) →
  deadline_inv konfig s →
  DefaultApp_loop env konfig ticks s = Some (r, s') →
  deadline_inv konfig s'.
Proof.
  induction ticks as [|tk ticks IH]; intros s r s' HT Hrt Hinv H; simpl in H.
  - by destruct (running s); injection H as <- <-.
  - destruct (running s); [|by injection H as <- <-].
    destruct (pass env konfig tk s) as [[[o|] s1]|] eqn:Hp; [| |done].
    + injection H as <- <-. eapply pass_inv; [done| |done..].
      apply Hrt, list_elem_of_here.
    + eapply IH; [done| | |done].
      * intros tk' ?. by apply Hrt, list_elem_of_further.
      * eapply pass_inv; [done| |done..]. apply Hrt, list_elem_of_here.
Qed.

Lemma pass_total tk s : is_Some (pass env konfig tk s).
Proof.
  unfold pass. destruct (poll (proc s)) as [[e|] p0]; [done|].
  destruct (Run_total (duck.NewDuck konfig) (proc (set_proc p0 s)))
    as [[[o d1] p1] ->].
  destruct o; [|done..]. by destruct (duck.Daemon konfig).
Qed.

(** A pass in daemon mode: the deadline it leaves, and when it can leave
    the loop running or move [iterationCount]. *)
Lemma pass_spec tk s s' :
  0 < T → duck.Daemon konfig = true →
  pass env konfig tk s = Some (None, s') →
  running s' = true ∨ iterationCount s' ≠ iterationCount s →
  ∃ dl, timeoutCh s' = Some dl ∧
        match timeoutCh s with
        | Some dl0 => dl = dl0 ∧ armed s' = armed s
        | None => dl = now s + run_time tk + seconds T ∧ armed s' = S (armed s)
        end ∧
        now s' = now s + run_time tk + interval konfig ∧
        now s' ≤ Z.max (now s + run_time tk) dl.
Proof.
  intros HT Hd. unfold pass.
  destruct (poll (proc s)) as [[e|] p0]; [by intros [= <-] [?|?]|].
  destruct (duck.Run _ _ _) as [[[o d1] p1]|]; [|done].
  destruct o; [|done..]. rewrite Hd. intros [= <-] Hrun.
  set (s0 := elapse (run_time tk) (set_proc p1 (set_proc p0 s))) in *.
  destruct (sleeping_spec tk s0 HT) as (dl & Harm & Hdl & Ha & Hn1 & Hn2 & _ & Hgo & Hit).
  assert (now (sleeping konfig tk s0) = now s0 + interval konfig) as Hnow.
  { destruct Hrun as [Hrun|Hrun]; [by apply Hgo|by apply Hit]. }
  destruct (arm_spec s0 HT) as (_ & _ & _ & _ & _ & Harm').
  exists dl. split; [done|]. simpl in *. split.
  - destruct (timeoutCh s); destruct Harm' as [Harm' Ha']; rewrite Harm' in Harm;
      injection Harm as <-; by rewrite Ha, Ha'.
  - lia.
Qed.

(** Once the deadline is set, the loop returns within the passes that fit
    before it. *)
Lemma loop_armed_returns ticks : ∀ s dl,
  0 < T → 0 < interval konfig → (∀ tk, tk ∈ ticks → 0 ≤ run_time tk) →
  duck.Daemon konfig = true →
  timeoutCh s = Some dl →
  (running s = true → now s ≤ dl) →
  dl - now s < interval konfig * Z.of_nat (length ticks) →
  ∃ o s', DefaultApp_loop env konfig ticks s = Some (Some o, s').
Proof.
  induction ticks as [|tk ticks IH]; intros s dl HT HI Hrt Hd Hdl Hnow Hlen; simpl.
  { destruct (running s); [|by eauto]. simpl in Hlen. specialize (Hnow eq_refl). lia. }
  destruct (running s) eqn:Hrun; [|by eauto].
  destruct (pass_total tk s) as [[[o|] s1] Hp]; rewrite Hp; [by eauto|].
  destruct (running s1) eqn:Hrun1.
  2: { destruct ticks; simpl; rewrite Hrun1; eauto. }
  destruct (pass_spec tk s s1 HT Hd Hp) as (dl1 & Hdl1 & Hsame & Hn & Hle); [by left|].
  rewrite Hdl in Hsame. destruct Hsame as [-> _].
  pose proof (Hrt tk (list_elem_of_here _ _)).
  apply (IH s1 dl); try done.
  - intros tk' ?. by apply Hrt, list_elem_of_further.
  - intros _. lia.
  - rewrite length_cons in Hlen. lia.
Qed.

(** C8: in daemon mode with a timeout [T > 0]. The deadline timer is
    armed in the first Sleeping phase, for the [Duration] that [T] seconds
    make after the phase begins, and no pass arms it again or moves it: at
    every point of every run [time.After] was called for it at most once.
    The deadline is an instant of the clock, so the time of the runs in
    between counts towards it: the time slept never exceeds the duration of
    the timer. With an interval timer that takes time, the loop is still
    running only while the deadline has not passed; a pass whose sleep
    would last beyond the deadline ends the loop there, with
    [iterationCount] as it was; and the loop returns within the passes that
    fit into the duration, whatever the iteration limit is. *)
Theorem daemon_deadline ticks t0 p :
  duck.Daemon konfig = true →
  0 < T →
  (∀ tk, tk ∈ ticks → 0 ≤ run_time tk) →
  (T ≤ max_seconds → seconds T = T * Second) ∧
  (∀ r s', DefaultApp env konfig ticks t0 p = Some (r, s') →
           (armed s' ≤ 1)%nat ∧ 0 ≤ slept s' ≤ Z.max 0 (seconds T) ∧
           (armed s' = 1%nat ↔ is_Some (timeoutCh s'))) ∧
  (∀ tk s1, ctx p ≠ Some 0%nat →
            pass env konfig tk (DefaultApp_init t0 p) = Some (None, s1) →
            timeoutCh s1 = Some (t0 + run_time tk + seconds T) ∧ armed s1 = 1%nat) ∧
  (∀ tk s s1 dl, timeoutCh s = Some dl →
                 pass env konfig tk s = Some (None, s1) →
                 timeoutCh s1 = Some dl ∧ armed s1 = armed s) ∧
  (∀ tk s s1 dl, 0 < interval konfig → 0 ≤ run_time tk →
                 timeoutCh s1 = Some dl →
                 pass env konfig tk s = Some (None, s1) →
                 (running s1 = true → now s1 ≤ dl) ∧
                 (dl < now s + run_time tk + interval konfig →
                  running s1 = false ∧ iterationCount s1 = iterationCount s)) ∧
  (0 < interval konfig →
   Z.max 0 (seconds T) < interval konfig * Z.of_nat (length ticks) →
   ∃ o s', DefaultApp env konfig ticks t0 p = Some (Some o, s')).
Proof.
  intros Hd HT Hrt. split_and!.
  - intros ?. apply seconds_small. lia.
  - intros r s' H. apply DefaultApp_loop_inv in H; [|done..].
    unfold deadline_inv in H. destruct (timeoutCh s') as [dl|].
    + destruct H as (-> & ? & ? & _). split_and!; [lia|done|done|]. split; [by eauto|done].
    + destruct H as (-> & ->). split_and!; [lia|lia|lia|]. split; [done|by intros []].
  - intros tk s1 Hctx H. unfold pass in H. simpl in H.
    assert (∃ p0, poll p = (None, p0)) as [p0 Hp].
    { unfold poll, ctx_Err. destruct (ctx p) as [[|n]|]; [done|eauto..]. }
    rewrite Hp in H. simpl in H.
    destruct (duck.Run _ _ _) as [[[o d1] p1]|]; [|done].
    destruct o; [|done..]. rewrite Hd in H. injection H as <-.
    set (s0 := elapse (run_time tk) _).
    destruct (sleeping_spec tk s0 HT) as (dl & Harm & -> & -> & _).
    destruct (arm_spec s0 HT) as (_ & _ & _ & _ & _ & Harm'). simpl in Harm'.
    destruct Harm' as [Harm' ->]. rewrite Harm' in Harm. by injection Harm as <-.
  - intros tk s s1 dl Hdl H. unfold pass in H.
    destruct (poll (proc s)) as [[e|] p0]; [by injection H as <-|].
    destruct (duck.Run _ _ _) as [[[o d1] p1]|]; [|done].
    destruct o; [|done..]. rewrite Hd in H. injection H as <-.
    set (s0 := elapse (run_time tk) _).
    destruct (sleeping_spec tk s0 HT) as (dl' & Harm & -> & -> & _).
    destruct (arm_spec s0 HT) as (_ & _ & _ & _ & _ & Harm'). simpl in Harm'.
    rewrite Hdl in Harm'. destruct Harm' as [Harm' ->]. rewrite Harm' in Harm.
    by injection Harm as <-.
  - intros tk s s1 dl HI Hrt1 Hdl H.
    assert (running s1 = true ∨ iterationCount s1 ≠ iterationCount s → now s1 ≤ dl
            ∧ now s1 = now s + run_time tk + interval konfig) as Hgo.
    { intros Hor. destruct (pass_spec tk s s1 HT Hd H Hor) as (dl1 & Hdl1 & _ & Hn & Hle).
      rewrite Hdl in Hdl1. injection Hdl1 as <-. lia. }
    split.
    + intros Hr. destruct Hgo as [? _]; [by left|lia].
    + intros Hlt. split.
      * destruct (running s1) eqn:Hr; [|done]. destruct Hgo as [? ?]; [by left|lia].
      * destruct (decide (iterationCount s1 = iterationCount s)) as [|Hne]; [done|].
        destruct Hgo as [? ?]; [by right|lia].
  - intros HI Hlen. unfold DefaultApp. destruct ticks as [|tk ticks]; [simpl in Hlen; lia|].
    simpl. destruct (pass_total tk (DefaultApp_init t0 p)) as [[[o|] s1] Hp];
      rewrite Hp; [by eauto|].
    destruct (running s1) eqn:Hrun1.
    2: { destruct ticks; simpl; rewrite Hrun1; eauto. }
    pose proof (Hrt tk (list_elem_of_here _ _)) as Hrt1.
    destruct (pass_spec tk _ s1 HT Hd Hp) as (dl & Hdl & Hsame & Hn & Hle); [by left|].
    simpl in Hsame, Hn, Hle. destruct Hsame as [-> _].
    apply (loop_armed_returns ticks s1 (t0 + run_time tk + seconds T)); try done.
    + intros tk' ?. by apply Hrt, list_elem_of_further.
    + intros _. lia.
    + rewrite length_cons in Hlen. lia.
Qed.

End deadline.
End daemon_props.

(** ** More on [target.Run] *)
Module body_props.
Import target target_props.

Section body_more.
Context {W : Type}.
Implicit Types (t : Target W) (p : Proc W) (w : W).

(** The log of a loop over checks is its events, one per check reached. *)
Lemma checks_loop_log cs : ∀ k t p c t' p',
  checks_loop k cs t p = (c, t', p') →
  ∃ n, (n ≤ length cs)%nat ∧ events p' = events p ++ check_events (Id t) k n.
Proof.
  induction cs as [|c0 cs IH]; intros k t p c t' p' H; simpl in H.
  - inversion H; subst. exists 0%nat. split; [done|]. by rewrite app_nil_r.
  - destruct (checks.Execute c0 _ _) as [[e|] w] eqn:He.
    + inversion H; subst. exists 1%nat. split; [simpl; lia|done].
    + simpl in H.
      destruct (checks.Check_ c0 w) eqn:Hc; simpl in H.
      * apply IH in H as (n & Hn & Hev). exists (S n). split; [simpl; lia|].
        rewrite Hev. simpl. rewrite check_events_cons. by rewrite <- app_assoc.
      * exists 1%nat. split; [simpl; lia|].
        destruct (check_shouldExit _ _); [|destruct (check_shouldCancel _ _)];
          inversion H; subst; done.
Qed.

(** A loop over checks that falls through has seen every check execute
    without an error and pass, each in the world the one before it left;
    and so the other way round. *)
Lemma checks_loop_passed cs : ∀ k t p t' p',
  checks_loop k cs t p = (Next, t', p') →
  checks_pass (ctx p) cs (world p) = Some (world p').
Proof.
  induction cs as [|c0 cs IH]; intros k t p t' p' H; simpl in H.
  { by injection H as _ <-. }
  cbn [checks_pass].
  destruct (checks.Execute c0 (ctx p) (world p)) as [[e|] w] eqn:He; [done|].
  simpl in H. destruct (checks.Check_ c0 w) eqn:Hc; simpl in H.
  - by apply IH in H.
  - destruct (check_shouldExit _ _); [|destruct (check_shouldCancel _ _)]; done.
Qed.

Lemma checks_pass_loop cs : ∀ k t p w1,
  checks_pass (ctx p) cs (world p) = Some w1 →
  ∃ p', checks_loop k cs t p = (Next, t, p') ∧ world p' = w1.
Proof.
  induction cs as [|c0 cs IH]; intros k t p w1 H; cbn [checks_pass] in H; simpl.
  { injection H as <-. by eexists. }
  destruct (checks.Execute c0 (ctx p) (world p)) as [[e|] w] eqn:He; [done|].
  destruct (checks.Check_ c0 w) eqn:Hc; [|done]. simpl.
  by apply IH.
Qed.

Lemma actions_succeed_loop acts : ∀ k t p w2,
  actions_succeed (ctx p) acts (world p) = Some w2 →
  ∃ p', actions_loop k acts t p = (Next, t, p') ∧ world p' = w2.
Proof.
  induction acts as [|a0 acts IH]; intros k t p w2 H; cbn [actions_succeed] in H; simpl.
  { injection H as <-. by eexists. }
  destruct (actions.Execute a0 (ctx p) (world p)) as [[e|] w] eqn:He; [done|].
  by apply IH.
Qed.

Lemma not_in_check_events id id' k j n : EvAction id' k ∉ check_events id j n.
Proof. unfold check_events. intros (? & ? & _)%list_elem_of_fmap. done. Qed.

(** X1: [Run] marks a target cleared exactly when it returns nil, and
    otherwise leaves it as it was; a target that [Run] has returned nil for
    is skipped by every later [Run]. *)
Theorem Run_settles t p o t' p' :
  Run t p = (o, t', p') →
  (o ≠ Nil → t' = t) ∧
  (Cleared t = false → (o = Nil ↔ Cleared t' = true)) ∧
  (o = Nil → Cleared t' = true ∧ ∀ q, Run t' q = (Nil, t', q)).
Proof.
  intros H. pose proof (engine_props.Run_inv _ _ _ _ _ H) as Hi.
  assert (Hre : Cleared t' = true → ∀ q, Run t' q = (Nil, t', q)).
  { intros Hc q. unfold Run. by rewrite Hc. }
  destruct Hi as [(Hc & -> & -> & ->)|(Hc & tr & _ & _ & [[-> Ho]|[-> ->]])].
  - split_and!; [done|by rewrite Hc|auto].
  - split_and!; [done| |done]. intros _. split; [done|]. by rewrite Hc.
  - split_and!; [done|done|]. intros _. split; [done|]. by apply Hre.
Qed.

(** [Run] at a check that executes and then fails. *)
Lemma Run_check_failed t p p0 pre c post t1 p1 w2 :
  Cleared t = false →
  poll p = (None, p0) →
  Checks t = pre ++ c :: post →
  checks_loop 0 pre t (emit (EvRun (Id t)) p0) = (Next, t1, p1) →
  checks.Execute c (ctx p1) (world p1) = (None, w2) →
  checks.Check_ c w2 = false →
  let p' := set_world w2 (emit (EvCheck (Id t) (length pre)) p1) in
  Run t p =
  (if effective (checks.ExitOnFailure (checks.GetConfig c))
                (ExitOnCheckFailure (Config_ t))
   then (Exit 1, t, p')
   else if effective (checks.CancelOnFailure (checks.GetConfig c))
                     (CancelOnCheckFailure (Config_ t))
        then (Error "check failed, cancelling run", t, p')
        else (Nil, set_Cleared true t, p')) ∧
  events p' = events p ++ EvRun (Id t) :: check_events (Id t) 0 (S (length pre)).
Proof.
  intros Hc Hp Hcs Hpre He Hk p'.
  pose proof (checks_loop_Next _ _ _ _ _ _ Hpre) as (-> & _ & _).
  split.
  - rewrite (Run_reach_check _ _ _ _ _ _ _ _ Hc Hp Hcs Hpre).
    cbn [checks_loop]. cbn [ctx world emit]. rewrite He. cbn [set_world world].
    rewrite Hk. cbn [negb].
    unfold check_shouldExit, check_shouldCancel.
    rewrite !should_effective.
    destruct (effective (checks.ExitOnFailure _) _); [done|].
    by destruct (effective (checks.CancelOnFailure _) _).
  - subst p'. cbn [events set_world emit].
    rewrite (Run_reach_events _ _ _ _ _ _ Hp Hpre), check_events_snoc.
    by rewrite <- app_assoc.
Qed.

(** X2: a check that executes and then fails is resolved by the exit
    policy first and the cancel policy second: [os.Exit(1)], else the error
    "check failed, cancelling run" with the target not cleared, else a nil
    return with the target cleared. In every case no later check and no
    action is executed. *)
Theorem check_failure_policy t p p0 pre c post t1 p1 w2 :
  Cleared t = false →
  poll p = (None, p0) →
  Checks t = pre ++ c :: post →
  checks_loop 0 pre t (emit (EvRun (Id t)) p0) = (Next, t1, p1) →
  checks.Execute c (ctx p1) (world p1) = (None, w2) →
  checks.Check_ c w2 = false →
  let p' := set_world w2 (emit (EvCheck (Id t) (length pre)) p1) in
  Run t p =
  (if effective (checks.ExitOnFailure (checks.GetConfig c))
                (ExitOnCheckFailure (Config_ t))
   then (Exit 1, t, p')
   else if effective (checks.CancelOnFailure (checks.GetConfig c))
                     (CancelOnCheckFailure (Config_ t))
        then (Error "check failed, cancelling run", t, p')
        else (Nil, set_Cleared true t, p')) ∧
  events p' = events p ++ EvRun (Id t) :: check_events (Id t) 0 (S (length pre)).
Proof. apply Run_check_failed. Qed.

(** X3: the checks gate the actions. When the log of a [Run] has an
    action of the target, the run went through every check of the target
    before it: each check was executed under the context of the run, in the
    world that the check before it had left, returned no error, and passed
    in the world it left. *)
Theorem actions_need_all_checks t p o t' p' tr k :
  Run t p = (o, t', p') →
  events p' = events p ++ tr →
  EvAction (Id t) k ∈ tr →
  ∃ p0 w1 rest,
    Cleared t = false ∧ poll p = (None, p0) ∧ ctx p' = ctx p0 ∧
    checks_pass (ctx p0) (Checks t) (world p0) = Some w1 ∧
    tr = EvRun (Id t) :: check_events (Id t) 0 (length (Checks t)) ++ rest ∧
    EvAction (Id t) k ∈ rest.
Proof.
  unfold Run. intros H Hev Hin.
  destruct (Cleared t).
  { inversion H; subst. apply (f_equal length) in Hev.
    rewrite length_app in Hev. destruct tr; [by apply elem_of_nil in Hin|simpl in Hev; lia]. }
  destruct (poll p) as [[e|] p0] eqn:Hp.
  { inversion H; subst. apply engine_props.poll_inv in Hp as [Hp _].
    rewrite Hp in Hev. apply (f_equal length) in Hev.
    rewrite length_app in Hev. destruct tr; [by apply elem_of_nil in Hin|simpl in Hev; lia]. }
  pose proof (engine_props.poll_inv _ _ _ Hp) as [Hp0 _].
  destruct (checks_loop 0 (Checks t) t (emit (EvRun (Id t)) p0))
    as [[[|oc] tc] pc] eqn:Hcl.
  - pose proof (checks_loop_Next _ _ _ _ _ _ Hcl) as (-> & Hctx & Hevc).
    pose proof (checks_loop_passed _ _ _ _ _ _ Hcl) as Hpass.
    cbn [ctx world emit] in Hpass, Hctx.
    destruct (actions_loop 0 (Actions t) t pc) as [[ca ta] pa] eqn:Hal.
    pose proof (engine_props.actions_loop_inv _ _ _ _ _ _ _ Hal) as (Hctxa & _ & _).
    assert (Hpa : p' = pa) by (destruct ca; inversion H; done). subst pa.
    assert (∃ rest, events p' = events pc ++ rest) as [rest Hrest].
    { destruct (engine_props.actions_loop_inv _ _ _ _ _ _ _ Hal) as (_ & (tr' & ? & _) & _).
      by exists tr'. }
    rewrite Hevc in Hrest. cbn [events emit] in Hrest. rewrite Hp0 in Hrest.
    rewrite <- !app_assoc in Hrest. rewrite Hrest in Hev.
    apply app_inv_head in Hev. subst tr.
    exists p0, (world pc), rest. split_and!; [done|done|congruence|done|done|].
    simpl in Hin. apply elem_of_cons in Hin as [?|Hin]; [done|].
    apply elem_of_app in Hin as [Hin|Hin]; [by apply not_in_check_events in Hin|done].
  - pose proof (checks_loop_log _ _ _ _ _ _ _ Hcl) as (n & _ & Hevc).
    inversion H; subst. rewrite Hevc in Hev. cbn [events emit] in Hev.
    rewrite Hp0, <- !app_assoc in Hev. apply app_inv_head in Hev. subst tr.
    simpl in Hin. apply elem_of_cons in Hin as [?|Hin]; [done|].
    by apply not_in_check_events in Hin.
Qed.

(** X4: a run whose checks and actions all succeed. When, under the
    context of the run and from the world the run starts in, every check of
    the target executes without an error and passes, each in the world the
    one before it left, and every action then executes without an error,
    [Run] executes all the checks in their order, then all the actions in
    theirs, marks the target cleared and returns nil, in the world the last
    action left. *)
Theorem Run_all_pass t p p0 w1 w2 :
  Cleared t = false →
  poll p = (None, p0) →
  checks_pass (ctx p0) (Checks t) (world p0) = Some w1 →
  actions_succeed (ctx p0) (Actions t) w1 = Some w2 →
  ∃ p', Run t p = (Nil, set_Cleared true t, p') ∧
        world p' = w2 ∧ ctx p' = ctx p0 ∧
        events p' = events p ++
          EvRun (Id t) :: check_events (Id t) 0 (length (Checks t))
                       ++ action_events (Id t) 0 (length (Actions t)).
Proof.
  intros Hc Hp Hcs Has.
  destruct (checks_pass_loop (Checks t) 0 t (emit (EvRun (Id t)) p0) w1 Hcs)
    as (p1 & H1 & Hw1).
  pose proof (checks_loop_Next _ _ _ _ _ _ H1) as (_ & Hc1 & E1).
  cbn [ctx emit] in Hc1.
  destruct (actions_succeed_loop (Actions t) 0 t p1 w2) as (p2 & H2 & Hw2).
  { by rewrite Hc1, Hw1. }
  pose proof (actions_loop_Next _ _ _ _ _ _ H2) as (_ & Hc2 & E2).
  exists p2. unfold Run. rewrite Hc, Hp, H1, H2. split_and!; [done|done|congruence|].
  rewrite E2, E1. cbn [events emit].
  apply engine_props.poll_inv in Hp as [-> _].
  by rewrite <- !app_assoc.
Qed.

End body_more.
End body_props.

(** ** More on [duck.RunTarget] *)
Module walk_props.
Import target duck target_props engine_props.

Section walk_more.
Context {W : Type}.
Implicit Types (t : Target W) (p : Proc W) (d : Duck W).

(** X5: a target that a call ran to a nil return is cleared, and every
    later call for it on the same instance, whatever its lineage, returns
    nil at once: the instance is not touched and nothing is logged. *)
Theorem finished_target_is_skipped depth x L d p L' d' p' :
  RunTarget depth x L d p = Some (Nil, L', d', p') →
  x ∉ L →
  cleared_in (Targets d') x ∧
  ∀ depth2 L2 q q0,
    poll q = (None, q0) →
    RunTarget (S depth2) x L2 d' q = Some (Nil, L2, d', q0) ∧ events q0 = events q.
Proof.
  intros H Hx. destruct depth as [|depth]; [done|].
  assert (Hc : cleared_in (Targets d') x).
  { apply RunTarget_Nil_inv in H
      as [(-> & -> & _ & [?|?])|(t & p0 & d1 & p1 & t1 & t' & _ & _ & _ & _ & Hr & ->)];
      [done|done|].
    exists t'. cbn. rewrite lookup_insert_eq. split; [done|].
    apply Run_inv in Hr as [(? & _ & -> & _)|(_ & _ & _ & _ & [[_ ?]|[-> _]])]; done. }
  split; [done|]. intros depth2 L2 q q0 Hq.
  destruct Hc as (t & Ht & Hc). cbn [RunTarget]. rewrite Hq, Ht, Hc.
  split; [by case_bool_decide|]. by apply poll_inv in Hq as [? _].
Qed.

(** X6: a call of [RunTarget], whatever it returns, keeps the
    configuration and the documents, and changes the table by cleared flags
    only: no target is added, removed or replaced, none loses its cleared
    flag, and the log is only appended to. *)
Theorem RunTarget_keeps_table depth x L d p o L' d' p' :
  RunTarget depth x L d p = Some (o, L', d', p') →
  duck.Config_ d' = duck.Config_ d ∧ Duckfiles d' = Duckfiles d ∧
  dom (Targets d') = dom (Targets d) ∧
  (∀ k t, Targets d !! k = Some t →
          ∃ t', Targets d' !! k = Some t' ∧
                Id t' = Id t ∧ Checks t' = Checks t ∧ Actions t' = Actions t ∧
                target.Config_ t' = target.Config_ t ∧
                Dependencies t' = Dependencies t ∧
                (Cleared t = true → Cleared t' = true)) ∧
  ∃ tr, events p' = events p ++ tr.
Proof.
  intros H. apply RunTarget_frame in H as (_ & Hcfg & Hdf & Hle & Hev & _).
  split_and!; [done|done|by apply table_le_dom| |done].
  intros k t Ht. destruct (table_le_lookup _ _ _ _ Hle Ht) as (t' & Ht' & [->| ->]);
    (eexists; split; [exact Ht'|split_and!; done]).
Qed.

(** A call leaves the targets of its lineage alone: these are the
    callers that wait for it. *)
Lemma RunTarget_deps_lineage (self : Runner) deps :
  framed self →
  (∀ y L d p o L' d' p' k,
      self y L d p = Some (o, L', d', p') → k ∈ L →
      Targets d' !! k = Targets d !! k) →
  ∀ L d p o L' d' p' k,
    RunTarget_deps self deps L d p = Some (o, L', d', p') → k ∈ L →
    Targets d' !! k = Targets d !! k.
Proof.
  intros Hf Hself. induction deps as [|y deps IH]; intros L d p o L' d' p' k H Hk;
    cbn [RunTarget_deps] in H.
  - by inversion H.
  - destruct (self y L d p) as [[[[o1 L1] d1] p1]|] eqn:Hy; [|done].
    pose proof (Hself _ _ _ _ _ _ _ _ k Hy Hk) as E1.
    destruct (Hf _ _ _ _ _ _ _ _ Hy) as (HL & _).
    destruct o1; try (inversion H; subst; done).
    rewrite <- E1. eapply IH; [done|]. set_solver.
Qed.

Lemma RunTarget_lineage depth : ∀ x L d p o L' d' p' k,
  RunTarget depth x L d p = Some (o, L', d', p') → k ∈ L →
  Targets d' !! k = Targets d !! k.
Proof.
  induction depth as [|depth IH]; intros x L d p o L' d' p' k H Hk; [done|].
  destruct (RunTarget_guards depth x L d p)
    as [(o0 & p0 & H0 & _)|(p0 & t & Hp & Ht & Hx & Hc)].
  { rewrite H0 in H. by inversion H. }
  rewrite (RunTarget_step _ _ _ _ _ _ _ Hp Ht Hx Hc) in H.
  destruct (RunTarget_deps _ _ _ _ _) as [[[[o1 L1] d1] p1]|] eqn:Hd; [|done].
  assert (E1 : Targets d1 !! k = Targets d !! k).
  { eapply RunTarget_deps_lineage; [apply RunTarget_frame|apply IH|done|set_solver]. }
  destruct o1; try (inversion H; subst; done).
  destruct (Targets d1 !! x) as [t1|] eqn:Ht1; [|inversion H; subst; done].
  destruct (target.Run t1 p1) as [[o2 t2] p2]. inversion H; subst.
  cbn. rewrite lookup_insert_ne; [done|]. intros ->. done.
Qed.

(** X7: a target that is not in the table is an error of the call for
    it, and a declared dependency that is not in the table is an error of
    the call for the dependent: the calls for the dependencies before it
    are made, then the call returns "target ... not found"; the body of the
    dependent is not run and the dependent is not cleared. *)
Theorem missing_dependency_aborts :
  (∀ depth x L d p p0,
      poll p = (None, p0) → Targets d !! x = None →
      RunTarget (S depth) x L d p
        = Some (Error ("target " +:+ x +:+ " not found"), L, d, p0)) ∧
  (∀ depth x L d p p0 t pre y post L1 d1 p1 p2,
      poll p = (None, p0) →
      Targets d !! x = Some t →
      x ∉ L →
      Cleared t = false →
      Dependencies t = pre ++ y :: post →
      RunTarget_deps (RunTarget (S depth)) pre ({[x]} ∪ L) d p0
        = Some (Nil, L1, d1, p1) →
      Targets d !! y = None →
      poll p1 = (None, p2) →
      RunTarget (S (S depth)) x L d p
        = Some (Error ("target " +:+ y +:+ " not found"), L1, d1, p2) ∧
      events p2 = events p1 ∧
      Targets d1 !! x = Some t).
Proof.
  split.
  - intros depth x L d p p0 Hp Hx. cbn [RunTarget]. by rewrite Hp, Hx.
  - intros depth x L d p p0 t pre y post L1 d1 p1 p2 Hp Ht Hx Hc Hdeps Hpre Hy Hp1.
    assert (Hy1 : Targets d1 !! y = None).
    { apply RunTarget_deps_framed in Hpre as (_ & _ & _ & Hle & _).
      apply table_le_dom in Hle. apply not_elem_of_dom. rewrite Hle.
      by apply not_elem_of_dom. }
    split_and!.
    + eapply RunTarget_dep_error; [done..|].
      cbn [RunTarget]. by rewrite Hp1, Hy1.
    + by apply poll_inv in Hp1 as [? _].
    + rewrite <- Ht. eapply RunTarget_deps_lineage;
        [apply RunTarget_frame|apply RunTarget_lineage|done|set_solver].
Qed.

End walk_more.

(** *** The walk over any table *)
Section any_walk.
Context {W : Type}.
Implicit Types (t : Target W) (p : Proc W) (T : gmap string (Target W)).
Variable T0 : gmap string (Target W).
Hypothesis Hwf : ids_wf T0.

Lemma deps_settle (self : Runner) (A : gset string) :
  framed self →
  (∀ y L d p L' d' p',
      settle_inv T0 A L (Targets d) (events p) →
      self y L d p = Some (Nil, L', d', p') →
      settle_inv T0 A L' (Targets d') (events p') ∧
      (y ∈ A ∨ cleared_in (Targets d') y)) →
  ∀ deps L d p L' d' p',
    settle_inv T0 A L (Targets d) (events p) →
    RunTarget_deps self deps L d p = Some (Nil, L', d', p') →
    settle_inv T0 A L' (Targets d') (events p') ∧
    (∀ y, y ∈ deps → y ∈ A ∨ cleared_in (Targets d') y).
Proof.
  intros Hfr Hself. induction deps as [|y deps IH];
    intros L d p L' d' p' Hinv H; simpl in H.
  - injection H as <- <- <-. split; [done|]. by intros y ?%elem_of_nil.
  - destruct (self y L d p) as [[[[[] L1] d1] p1]|] eqn:Hy; try done.
    destruct (Hself _ _ _ _ _ _ _ Hinv Hy) as (Hinv1 & Hy1).
    pose proof (RunTarget_deps_frame _ _ Hfr _ _ _ _ _ _ _ H) as (_ & _ & _ & Hle & _).
    destruct (IH _ _ _ _ _ _ Hinv1 H) as (Hinv2 & Hcl).
    split; [done|].
    intros z [->|Hz]%elem_of_cons; [|by apply Hcl].
    destruct Hy1; [by left|right]. by eapply table_le_cleared.
Qed.

Lemma RunTarget_settle depth : ∀ (A : gset string) x L d p L' d' p',
  settle_inv T0 A L (Targets d) (events p) →
  RunTarget depth x L d p = Some (Nil, L', d', p') →
  settle_inv T0 A L' (Targets d') (events p') ∧
  (x ∈ A ∨ cleared_in (Targets d') x).
Proof.
  induction depth as [|depth IH]; intros A x L d p L' d' p' Hinv H; [done|].
  destruct (RunTarget_guards depth x L d p)
    as [(o0 & p0 & H0 & Hev & Hnil)|(p0 & t & Hp & Hx & HL & Hc)].
  { rewrite H0 in H. injection H as -> <- <- <-. rewrite Hev.
    split; [done|].
    destruct Hinv as (_ & _ & _ & _ & Hlin & _).
    destruct (Hnil eq_refl) as [[Ha|Hcl]%Hlin|Hcl]; auto. }
  rewrite (RunTarget_step _ _ _ _ _ _ _ Hp Hx HL Hc) in H.
  apply poll_inv in Hp as [Hev0 _].
  destruct (RunTarget_deps _ _ _ _ _) as [[[[o1 L1] d1] p1]|] eqn:Hdeps; [|done].
  destruct o1; [|by injection H..].
  destruct Hinv as (Hle0 & Hok0 & Hcb0 & HAL & Hlin & Hset).
  assert (∀ y, dep T0 x y ↔ y ∈ Dependencies t) as Hdep.
  { intros y. rewrite <- (table_le_dep _ _ _ _ Hle0). split.
    - intros (t' & Hx0 & Hy). by replace t with t' by congruence.
    - intros Hy. by exists t. }
  destruct (deps_settle (RunTarget depth) ({[x]} ∪ A) (RunTarget_frame depth)
              (IH ({[x]} ∪ A)) (Dependencies t) ({[x]} ∪ L) d p0 L1 d1 p1)
    as ((Hle01 & Hok1 & Hcb1 & HAL1 & Hlin1 & Hset1) & Hcl1); [|done|].
  { rewrite Hev0. split_and!; [done..|set_solver| |].
    - intros k [->%elem_of_singleton|Hk]%elem_of_union; [left; set_solver|].
      destruct (Hlin k Hk); [left; set_solver|by right].
    - intros k y Hk Hky. destruct (Hset k y Hk Hky); [left; set_solver|by right]. }
  pose proof (RunTarget_deps_framed _ _ _ _ _ _ _ _ _ Hdeps) as (HL1 & _ & _ & Hle1 & _).
  destruct (table_le_lookup _ _ _ _ Hle1 Hx) as (t1 & Hx1 & Ht1). rewrite Hx1 in H.
  destruct (target.Run t1 p1) as [[o2 t2] p2] eqn:HR. injection H as -> <- <- <-.
  pose proof (table_le_ids_wf _ _ Hle01 Hwf) as Hwf1.
  pose proof (Run_body_frame L1 d1 p1 x t1 Nil t2 p2 Hx1 HR)
    as (_ & _ & _ & Hle2 & _ & Hlog). simpl in Hle2, Hlog.
  destruct (Hlog Hwf1 Hok1) as [_ Hok2]. specialize (Hok2 eq_refl).
  assert (cleared_in (<[x:=t2]> (Targets d1)) x) as Hxc.
  { exists t2. split; [apply lookup_insert_eq|].
    apply Run_inv in HR as [(? & _ & -> & _)|(_ & _ & _ & _ & [[_ ?]|[-> _]])]; done. }
  assert (∀ k, cleared_in (<[x:=t2]> (Targets d1)) k →
               k = x ∨ cleared_in (Targets d1) k) as Hsplit.
  { intros k Hk. destruct (decide (k = x)) as [->|Hne]; [by left|right].
    destruct Hk as (tk & Hk & Hck). rewrite lookup_insert_ne in Hk by done.
    by exists tk. }
  simpl. split; [|by right].
  split_and!; [by eapply table_le_trans|done| |set_solver| |].
  - intros k Hk. apply Run_inv in HR as [(? & _ & -> & ->)|(Hc1 & tr & -> & Hb & _)].
    { apply Hcb1. by rewrite insert_id in Hk. }
    rewrite bodies_app. destruct (Hsplit k Hk) as [->|Hk1].
    + destruct Hb as [->|[_ ?]]; [|done]. rewrite (Hwf1 _ _ Hx1). set_solver.
    + apply elem_of_app. left. by apply Hcb1.
  - intros k Hk. destruct (Hlin1 k Hk) as [[->%elem_of_singleton|Ha]%elem_of_union|Hkc].
    + by right.
    + by left.
    + right. by eapply table_le_cleared.
  - intros k y Hk Hky. destruct (Hsplit k Hk) as [->|Hk1].
    + apply Hdep in Hky. destruct (Hcl1 y Hky) as [Hy|Hy].
      * left. set_solver.
      * right. by eapply table_le_cleared.
    + destruct (Hset1 k y Hk1 Hky); [by left|right]. by eapply table_le_cleared.
Qed.

End any_walk.

Section any_run.
Context {W : Type}.
Implicit Types (t : Target W) (p : Proc W) (d : Duck W).

(** X8: over any table in which nothing is cleared yet, with cycles or
    without, a top-level call of [RunTarget] that returns nil has run the
    body of every target that the root reaches through declared
    dependencies, the root included, exactly once, and left all of them
    cleared. *)
Theorem every_reachable_target_runs depth d p root L' d' p' :
  ids_wf (Targets d) →
  uncleared (Targets d) →
  RunTarget depth root ∅ d p = Some (Nil, L', d', p') →
  ∃ tr, events p' = events p ++ tr ∧
        NoDup (bodies tr) ∧
        ∀ y, rtc (dep (Targets d)) root y →
             y ∈ bodies tr ∧ cleared_in (Targets d') y.
Proof.
  intros Hwf Hunc H.
  assert (∀ k, ¬ cleared_in (Targets d) k) as Hnc.
  { intros k (t & Hk & Hc). apply Hunc in Hk. congruence. }
  rewrite <- (after_log_unlogged p), RunTarget_after_log in H.
  set (q := unlogged p) in *.
  destruct (RunTarget depth root ∅ d q) as [[[[oq Lq] dq] q']|] eqn:Hrun; [|done].
  injection H as -> -> -> <-.
  exists (events q'). split; [done|].
  assert (settle_inv (Targets d) ∅ ∅ (Targets d) (events q)) as Hinv.
  { split_and!; [apply table_le_refl| | |done|set_solver|].
    - split; [constructor|by intros k ?%elem_of_nil].
    - intros k Hk. by destruct (Hnc k).
    - intros k y Hk. by destruct (Hnc k). }
  destruct (RunTarget_settle (Targets d) Hwf depth ∅ root ∅ d q L' d' q' Hinv Hrun)
    as ((Hle & [Hnd Hcl] & Hcb & _ & Hlin & Hset) & Hroot).
  split; [done|].
  assert (∀ y, rtc (dep (Targets d)) root y → cleared_in (Targets d') y) as Hall.
  { apply (rtc_ind_r (R:=dep (Targets d)) (λ y, cleared_in (Targets d') y) root).
    - destruct Hroot; [set_solver|done].
    - intros x y _ Hxy Hx. destruct (Hset x y Hx Hxy) as [Hy|Hy]; [|done].
      destruct (Hlin y Hy); [set_solver|done]. }
  intros y Hy. split; [apply Hcb|]; by apply Hall.
Qed.

End any_run.
End walk_props.

(** ** More on the document resolver *)
Module compile_props.
Import duck resolver_props.

Section invariants.
Context {W : Type} (env : Env W).
Implicit Types (p : Proc W) (d : Duck W) (u v : URL) (self : @Loader W).

(** *** What a pass keeps

    A property [Q] of the instance and the process that survives a poll
    of the context, the registration of a document and the merge of a new
    target survives every function of the resolver. *)
Section keeps.
Variable Q : Duck W → Proc W → Prop.
Hypothesis Q_poll : ∀ d p e p', Q d p → poll p = (e, p') → Q d p'.
Hypothesis Q_doc :
  ∀ d p s u, Q d p → Q (set_Duckfiles (<[s:=u]> (Duckfiles d)) d) p.
Hypothesis Q_target :
  ∀ d p name konfig t,
    Q d p → Targets d !! name = None →
    NewTarget env (ctx p) (Set_ env konfig "id" name) = Ok t →
    Q (set_Targets (<[name:=t]> (Targets d)) d) p.

Lemma GetDuckfiles_keeps floc d p r p' :
  Q d p → GetDuckfiles env floc p = (r, p') → Q d p'.
Proof.
  unfold GetDuckfiles, handleFileURL, handleCloudURL, handleHTTPURL. intros HQ H.
  repeat case_match; simplify_eq; eauto using Q_poll.
Qed.

Lemma LoadDuckfile_switch_keeps u d p r p' :
  Q d p → LoadDuckfile_switch env u p = (r, p') → Q d p'.
Proof.
  unfold LoadDuckfile_switch, loadFileURL, loadHTTPURL, loadCloudURL. intros HQ H.
  repeat case_match; simplify_eq; eauto using Q_poll.
Qed.

Lemma appendTarget_keeps name konfig d p r d' p' :
  Q d p → appendTarget env name konfig d p = (r, d', p') → Q d' p'.
Proof.
  unfold appendTarget. intros HQ H.
  destruct (poll p) as [[e|] p0] eqn:Hp; [injection H as <- <- <-; eauto|].
  case_bool_decide as Hex; [injection H as <- <- <-; eauto|].
  destruct (NewTarget env _ _) as [t|e] eqn:Ht; injection H as <- <- <-; [|eauto].
  eapply Q_target; [eauto| |done]. by apply eq_None_not_Some.
Qed.

Section loops.
Variable self : @Loader W.
Hypothesis self_keeps :
  ∀ v d p r d' p', Q d p → self v false d p = (r, d', p') → Q d' p'.

Lemma depURLs_keeps depURLs : ∀ d p r d' p',
  Q d p → LoadDuckfile_depURLs env self depURLs d p = (r, d', p') → Q d' p'.
Proof.
  induction depURLs as [|v vs IH]; intros d p r d' p' HQ H; simpl in H.
  - by injection H as <- <- <-.
  - destruct (self v false d p) as [[[e|] d1] p1] eqn:Hv;
      apply self_keeps in Hv; [|done| |done].
    + by injection H as <- <- <-.
    + (eapply IH; [|exact H]; done).
Qed.

Lemma deps_keeps deps : ∀ d p r d' p',
  Q d p → LoadDuckfile_deps env self deps d p = (r, d', p') → Q d' p'.
Proof.
  induction deps as [|dep deps IH]; intros d p r d' p' HQ H; simpl in H.
  - by injection H as <- <- <-.
  - destruct (GetDuckfiles env dep p) as [[urls|e] p1] eqn:Hg;
      eapply GetDuckfiles_keeps in Hg; try done.
    + destruct (LoadDuckfile_depURLs _ _ _ _ _) as [[[e|] d2] p2] eqn:Hu;
        apply depURLs_keeps in Hu; try done.
      * by injection H as <- <- <-.
      * (eapply IH; [|exact H]; done).
    + by injection H as <- <- <-.
Qed.

Lemma keys_keeps k recurse keys : ∀ d p r d' p',
  Q d p → LoadDuckfile_keys env self k recurse keys d p = (r, d', p') → Q d' p'.
Proof.
  induction keys as [|key keys IH]; intros d p r d' p' HQ H; simpl in H.
  - by injection H as <- <- <-.
  - destruct (String.eqb key "_meta").
    + destruct recurse; [|by eapply IH].
      destruct (0 <? _)%nat; [|by eapply IH].
      destruct (LoadDuckfile_deps _ _ _ _ _) as [[[e|] d1] p1] eqn:Hd;
        apply deps_keeps in Hd; try done.
      * by injection H as <- <- <-.
      * (eapply IH; [|exact H]; done).
    + destruct (appendTarget _ _ _ _ _) as [[[e|] d1] p1] eqn:Ha;
        apply appendTarget_keeps in Ha; try done.
      * by injection H as <- <- <-.
      * (eapply IH; [|exact H]; done).
Qed.

Lemma LoadDuckfile_body_keeps u recurse d p r d' p' :
  Q d p → LoadDuckfile_body env self u recurse d p = (r, d', p') → Q d' p'.
Proof.
  unfold LoadDuckfile_body. intros HQ H.
  destruct (poll p) as [[e|] p0] eqn:Hp; [injection H as <- <- <-; eauto|].
  case_bool_decide as Hex; [injection H as <- <- <-; eauto|].
  destruct (LoadDuckfile_switch env u p0) as [[k|e] p1] eqn:Hs.
  - eapply keys_keeps; [|done]. eapply LoadDuckfile_switch_keeps; [|done]. eauto.
  - injection H as <- <- <-. eapply LoadDuckfile_switch_keeps; [|done]. eauto.
Qed.

End loops.

Lemma LoadDuckfile_keeps u recurse d p r d' p' :
  Q d p → LoadDuckfile env u recurse d p = (r, d', p') → Q d' p'.
Proof.
  apply LoadDuckfile_body_keeps. intros v d1 p1 r1 d2 p2.
  apply LoadDuckfile_body_keeps. by intros ?????? ? [= _ <- <-].
Qed.

Lemma CompileTargets_duckfiles_keeps duckfiles : ∀ d p r d' p',
  Q d p → CompileTargets_duckfiles env duckfiles d p = (r, d', p') → Q d' p'.
Proof.
  induction duckfiles as [|v vs IH]; intros d p r d' p' HQ H; simpl in H.
  - by injection H as <- <- <-.
  - destruct (LoadDuckfile env v true d p) as [[[e|] d1] p1] eqn:Hv;
      apply LoadDuckfile_keeps in Hv; try done.
    + by injection H as <- <- <-.
    + (eapply IH; [|exact H]; done).
Qed.

Lemma CompileTargets_files_keeps files : ∀ d p r d' p',
  Q d p → CompileTargets_files env files d p = (r, d', p') → Q d' p'.
Proof.
  induction files as [|floc files IH]; intros d p r d' p' HQ H; simpl in H.
  - by injection H as <- <- <-.
  - destruct (GetDuckfiles env floc p) as [[urls|e] p1] eqn:Hg;
      eapply GetDuckfiles_keeps in Hg; try done.
    + destruct (CompileTargets_duckfiles _ _ _ _) as [[[e|] d2] p2] eqn:Hu;
        apply CompileTargets_duckfiles_keeps in Hu; try done.
      * by injection H as <- <- <-.
      * (eapply IH; [|exact H]; done).
    + by injection H as <- <- <-.
Qed.

Lemma CompileTargets_keeps d p r d' p' :
  Q d p → CompileTargets env d p = (r, d', p') → Q d' p'.
Proof.
  unfold CompileTargets. intros HQ H.
  destruct (poll p) as [[e|] p0] eqn:Hp; [injection H as <- <- <-; eauto|].
  eapply CompileTargets_files_keeps; [|done]. eauto.
Qed.

End keeps.

(** *** Under a context that is never cancelled *)

Lemma proc_eq p p' :
  ctx p' = ctx p → events p' = events p → world p' = world p → p' = p.
Proof. destruct p, p'; simpl; congruence. Qed.

Lemma poll_keeps_live p e p' : ctx p = None → poll p = (e, p') → ctx p' = None.
Proof. intros Hc. rewrite (engine_props.poll_never p Hc). by intros [= _ <-]. Qed.

Lemma GetDuckfiles_live floc p r p' :
  ctx p = None → GetDuckfiles env floc p = (r, p') → p' = p.
Proof.
  intros Hc H. pose proof (GetDuckfiles_inv env _ _ _ _ H) as [? ?].
  apply proc_eq; [|done..]. rewrite Hc.
  eapply (GetDuckfiles_keeps (λ _ q, ctx q = None)) with (d := NewDuck
    {| Files := []; ListTargets_ := false; Target_ := ""; Daemon := false;
       DaemonInterval := 0; DaemonIterations := 0; DaemonTimeout := 0 |});
    [intros ????; apply poll_keeps_live|exact Hc|exact H].
Qed.

Lemma LoadDuckfile_live u recurse d p r d' p' :
  ctx p = None → LoadDuckfile env u recurse d p = (r, d', p') → p' = p.
Proof.
  intros Hc H. pose proof (LoadDuckfile_frame env _ _ _ _ _ _ _ H) as (_ & _ & _ & ? & ?).
  apply proc_eq; [|done..]. rewrite Hc.
  eapply (LoadDuckfile_keeps (λ _ q, ctx q = None));
    [intros ????; apply poll_keeps_live|done|done|exact Hc|exact H].
Qed.

Lemma CompileTargets_duckfiles_live duckfiles d p r d' p' :
  ctx p = None → CompileTargets_duckfiles env duckfiles d p = (r, d', p') → p' = p.
Proof.
  intros Hc H.
  pose proof (CompileTargets_duckfiles_frame env _ _ _ _ _ _ H) as (_ & _ & _ & ? & ?).
  apply proc_eq; [|done..]. rewrite Hc.
  eapply (CompileTargets_duckfiles_keeps (λ _ q, ctx q = None));
    [intros ????; apply poll_keeps_live|done|done|exact Hc|exact H].
Qed.

Lemma CompileTargets_files_live files d p r d' p' :
  ctx p = None → CompileTargets_files env files d p = (r, d', p') → p' = p.
Proof.
  intros Hc H.
  pose proof (CompileTargets_files_frame env _ _ _ _ _ _ H) as (_ & _ & _ & ? & ?).
  apply proc_eq; [|done..]. rewrite Hc.
  eapply (CompileTargets_files_keeps (λ _ q, ctx q = None));
    [intros ????; apply poll_keeps_live|done|done|exact Hc|exact H].
Qed.

Lemma CompileTargets_live d p r d' p' :
  ctx p = None → CompileTargets env d p = (r, d', p') → p' = p.
Proof.
  intros Hc H.
  pose proof (CompileTargets_frame env _ _ _ _ _ H) as (_ & _ & _ & ? & ?).
  apply proc_eq; [|done..]. rewrite Hc.
  eapply (CompileTargets_keeps (λ _ q, ctx q = None));
    [intros ????; apply poll_keeps_live|done|done|exact Hc|exact H].
Qed.

(** An expansion that succeeded succeeds again, with the same list. *)
Lemma GetDuckfiles_again floc p urls p' q :
  GetDuckfiles env floc p = (Ok urls, p') → ctx q = None →
  GetDuckfiles env floc q = (Ok urls, q).
Proof.
  intros H Hq. pose proof (engine_props.poll_never q Hq) as Hpq.
  unfold GetDuckfiles, handleFileURL, handleCloudURL, handleHTTPURL in *.
  rewrite Hpq. destruct (poll p) as [[e|] p0]; [done|].
  destruct (if Contains floc "://" then _ else _) as [u|e]; [|done].
  repeat (destruct (_ || _) || destruct (String.eqb _ _)); try done;
    (destruct (poll p0) as [[e|] p1]; [done|]); rewrite Hpq;
    repeat case_match; simplify_eq; try done; congruence.
Qed.

(** *** A document is loaded once *)

Lemma LoadDuckfile_registers u recurse d p d' p' :
  LoadDuckfile env u recurse d p = (None, d', p') →
  is_Some (Duckfiles d' !! url_String env u).
Proof.
  rewrite LoadDuckfile_unfold. unfold LoadDuckfile_body. intros H.
  destruct (poll p) as [[e|] p0]; [done|].
  case_bool_decide as Hex; [by injection H as <- <-|].
  destruct (LoadDuckfile_switch env u p0) as [[k|e] p1]; [|done].
  eapply keys_frame in H; [|intros ??????; apply LoadDuckfile_frame].
  destruct H as (_ & _ & Hsub & _). simpl in Hsub.
  exists u. eapply lookup_weaken; [|done]. apply lookup_insert_eq.
Qed.

Lemma LoadDuckfile_registered u recurse d q :
  is_Some (Duckfiles d !! url_String env u) → ctx q = None →
  LoadDuckfile env u recurse d q = (None, d, q).
Proof.
  intros Hu Hq. rewrite LoadDuckfile_unfold. unfold LoadDuckfile_body.
  rewrite (engine_props.poll_never q Hq). by rewrite bool_decide_eq_true_2.
Qed.

Lemma CompileTargets_duckfiles_registers duckfiles : ∀ d p d' p',
  CompileTargets_duckfiles env duckfiles d p = (None, d', p') →
  ∀ u, u ∈ duckfiles → is_Some (Duckfiles d' !! url_String env u).
Proof.
  induction duckfiles as [|v vs IH]; intros d p d' p' H u Hu; simpl in H.
  - by apply elem_of_nil in Hu.
  - destruct (LoadDuckfile env v true d p) as [[[e|] d1] p1] eqn:Hv; [done|].
    apply elem_of_cons in Hu as [->|Hu]; [|by eapply IH].
    apply LoadDuckfile_registers in Hv as [w Hw].
    apply CompileTargets_duckfiles_frame in H as (_ & _ & Hsub & _).
    exists w. by eapply lookup_weaken.
Qed.

Lemma CompileTargets_duckfiles_registered duckfiles d q :
  (∀ u, u ∈ duckfiles → is_Some (Duckfiles d !! url_String env u)) →
  ctx q = None →
  CompileTargets_duckfiles env duckfiles d q = (None, d, q).
Proof.
  intros Hall Hq. induction duckfiles as [|v vs IH]; simpl; [done|].
  rewrite LoadDuckfile_registered; [|apply Hall; by left|done].
  apply IH. intros u Hu. apply Hall. by right.
Qed.

Lemma CompileTargets_files_again files : ∀ d p d1 p1 d2 q,
  CompileTargets_files env files d p = (None, d1, p1) →
  Duckfiles d1 ⊆ Duckfiles d2 → ctx q = None →
  CompileTargets_files env files d2 q = (None, d2, q).
Proof.
  induction files as [|floc files IH]; intros d p d1 p1 d2 q H Hsub Hq; simpl in *;
    [done|].
  destruct (GetDuckfiles env floc p) as [[urls|e] pa] eqn:Hg; [|done].
  destruct (CompileTargets_duckfiles env urls d pa) as [[[e|] da] pb] eqn:Hu; [done|].
  rewrite (GetDuckfiles_again _ _ _ _ q Hg Hq).
  rewrite CompileTargets_duckfiles_registered; [by eapply IH| |done].
  intros u Hin.
  destruct (CompileTargets_duckfiles_registers _ _ _ _ _ Hu u Hin) as [w Hw].
  apply CompileTargets_files_frame in H as (_ & _ & Hsub1 & _).
  exists w. eapply lookup_weaken; [|done]. by eapply lookup_weaken.
Qed.

(** X9: a document is loaded once. A pass of [CompileTargets] that
    succeeded has registered every document it met, so that a second pass
    over the same instance, as [ListTargets] makes one when the documents
    declare no target, loads nothing, merges nothing and returns nil; and
    a locator that the run configuration lists twice in a row counts
    once. *)
Theorem documents_load_once :
  (∀ d p d' p' q,
      CompileTargets env d p = (None, d', p') → ctx q = None →
      CompileTargets env d' q = (None, d', q)) ∧
  (∀ floc files d p,
      ctx p = None →
      CompileTargets_files env (floc :: floc :: files) d p
      = CompileTargets_files env (floc :: files) d p).
Proof.
  split.
  - intros d p d' p' q H Hq.
    pose proof (CompileTargets_frame env _ _ _ _ _ H) as (Hcfg & _).
    unfold CompileTargets in *. rewrite (engine_props.poll_never q Hq), Hcfg.
    destruct (poll p) as [[e|] p0]; [done|].
    by eapply CompileTargets_files_again.
  - intros floc files d p Hp. cbn [CompileTargets_files].
    destruct (GetDuckfiles env floc p) as [[urls|e] pa] eqn:Hg; [|done].
    pose proof (GetDuckfiles_live _ _ _ _ Hp Hg) as ->.
    destruct (CompileTargets_duckfiles env urls d p) as [[[e|] da] pb] eqn:Hu; [done|].
    pose proof (CompileTargets_duckfiles_live _ _ _ _ _ _ Hp Hu) as ->.
    rewrite Hg. rewrite CompileTargets_duckfiles_registered; [done| |done].
    by eapply CompileTargets_duckfiles_registers.
Qed.

End invariants.

Section expansion.
Context {W : Type} (env : Env W).
Implicit Types (p : Proc W) (d : Duck W) (u v : URL).

(** *** What a locator expands to *)

Lemma handleFileURL_files_spec u files : ∀ extracted,
  handleFileURL_files env u files extracted
  = extracted ++
    ((λ f, {| Scheme := "file"; Host := "";
              Path := filepath_Join env (Path u) f.1; RawQuery := "" |})
       <$> filter (λ f, negb f.2 && isDuckfile f.1) files).
Proof.
  induction files as [|[filename isDir] files IH]; intros extracted; simpl.
  - by rewrite app_nil_r.
  - rewrite filter_cons. cbn [fst snd].
    destruct (negb isDir && isDuckfile filename) eqn:E; rewrite IH; simpl; [|done].
    by rewrite <- app_assoc.
Qed.

(** X10: what a file locator expands to. A path that is not a directory
    is the one document, whatever its name; a directory is its entries that
    are not directories and bear a duckfile name, in the order of the
    listing, each joined to the directory, and nothing below its
    subdirectories; a path that cannot be examined or listed is an error. *)
Theorem handleFileURL_expands u p p0 :
  poll p = (None, p0) →
  (os_Stat env (Path u) = Ok false → handleFileURL env u p = (Ok [u], p0)) ∧
  (∀ files,
      os_Stat env (Path u) = Ok true → os_ReadDir env (Path u) = Ok files →
      handleFileURL env u p
      = (Ok ((λ f, {| Scheme := "file"; Host := "";
                      Path := filepath_Join env (Path u) f.1; RawQuery := "" |})
               <$> filter (λ f, negb f.2 && isDuckfile f.1) files), p0)) ∧
  (∀ e, os_Stat env (Path u) = Err e →
        handleFileURL env u p = (Err (wrap ("failed to stat " +:+ Path u) e), p0)) ∧
  (∀ e, os_Stat env (Path u) = Ok true → os_ReadDir env (Path u) = Err e →
        handleFileURL env u p
        = (Err (wrap ("failed to read directory " +:+ Path u) e), p0)).
Proof.
  intros Hp. unfold handleFileURL. rewrite Hp. split_and!.
  - by intros ->.
  - intros files -> ->. by rewrite handleFileURL_files_spec.
  - by intros e ->.
  - by intros e -> ->.
Qed.

Lemma handleCloudURL_list_ok u bucketURL keys : ∀ extracted,
  handleCloudURL_list u bucketURL (Ok <$> keys) extracted
  = Ok (extracted ++
        ((λ key, {| Scheme := Scheme u; Host := Host u; Path := "/" +:+ key;
                    RawQuery := RawQuery u |})
           <$> filter (λ key, isDuckfile key) keys)).
Proof.
  induction keys as [|key keys IH]; intros extracted; simpl.
  - by rewrite app_nil_r.
  - rewrite filter_cons. destruct (isDuckfile key) eqn:E; rewrite IH; simpl; [|done].
    by rewrite <- app_assoc.
Qed.

Lemma handleCloudURL_list_err u bucketURL keys e rest : ∀ extracted,
  handleCloudURL_list u bucketURL ((Ok <$> keys) ++ Err e :: rest) extracted
  = Err (wrap ("failed to list objects in " +:+ bucketURL) e).
Proof.
  induction keys as [|key keys IH]; intros extracted; simpl; [done|].
  by destruct (isDuckfile key); rewrite IH.
Qed.

(** X11: what a locator of an object store expands to when its path is
    empty or ends in a separator. The objects under the prefix are listed,
    and those whose key bears a duckfile name become documents of the same
    bucket, in the order of the listing; a listing that fails at any point
    makes the whole expansion fail, with none of the documents found
    before. *)
Theorem handleCloudURL_lists u floc p p0 bucket :
  poll p = (None, p0) →
  let bucketURL :=
    if negb (String.eqb (RawQuery u) "")
    then (Scheme u +:+ "://" +:+ Host u) +:+ "?" +:+ RawQuery u
    else Scheme u +:+ "://" +:+ Host u in
  let prefix := TrimPrefix (Path u) "/" in
  blob_OpenBucket env bucketURL = Ok bucket →
  HasSuffix prefix "/" || String.eqb prefix "" = true →
  (∀ keys, List bucket prefix = Ok <$> keys →
     handleCloudURL env u floc p
     = (Ok ((λ key, {| Scheme := Scheme u; Host := Host u; Path := "/" +:+ key;
                       RawQuery := RawQuery u |})
              <$> filter (λ key, isDuckfile key) keys), p0)) ∧
  (∀ keys e rest, List bucket prefix = (Ok <$> keys) ++ Err e :: rest →
     handleCloudURL env u floc p
     = (Err (wrap ("failed to list objects in " +:+ bucketURL) e), p0)).
Proof.
  intros Hp bucketURL prefix Hb Hpre. unfold handleCloudURL. rewrite Hp.
  fold bucketURL. rewrite Hb. fold prefix. rewrite Hpre. split.
  - intros keys ->. by rewrite handleCloudURL_list_ok.
  - intros keys e rest ->. by rewrite handleCloudURL_list_err.
Qed.

Lemma handleCloudURL_list_scheme u bucketURL iter : ∀ extracted urls,
  handleCloudURL_list u bucketURL iter extracted = Ok urls →
  (∀ v, v ∈ extracted → Scheme v = Scheme u) →
  ∀ v, v ∈ urls → Scheme v = Scheme u.
Proof.
  induction iter as [|[key|e] iter IH]; intros extracted urls H Hex; simpl in H.
  - by injection H as <-.
  - destruct (isDuckfile key); (eapply IH; [exact H|]); [|done].
    intros v [?| ->%list_elem_of_singleton]%elem_of_app; [by apply Hex|done].
  - done.
Qed.

Lemma handleFileURL_files_scheme u files extracted v :
  v ∈ handleFileURL_files env u files extracted →
  v ∈ extracted ∨ Scheme v = "file".
Proof.
  rewrite handleFileURL_files_spec.
  intros [?|(f & -> & _)%list_elem_of_fmap]%elem_of_app; [by left|by right].
Qed.

(** X12: the schemes of the expansion and of the loader agree. Every
    document that [GetDuckfiles] yields has one of the six schemes for
    which [LoadDuckfile] has a loader, so that the "unsupported scheme"
    branch of [LoadDuckfile] is not reached from an expansion; a locator
    with any other scheme is refused by [GetDuckfiles] itself. *)
Theorem expansion_is_loadable :
  (∀ floc p urls p' v,
      GetDuckfiles env floc p = (Ok urls, p') → v ∈ urls →
      (Scheme v = "file" ∧ ∀ q, LoadDuckfile_switch env v q = loadFileURL env v q) ∨
      ((Scheme v = "http" ∨ Scheme v = "https") ∧
       ∀ q, LoadDuckfile_switch env v q = loadHTTPURL env v q) ∨
      ((Scheme v = "s3" ∨ Scheme v = "gs" ∨ Scheme v = "azblob") ∧
       ∀ q, LoadDuckfile_switch env v q = loadCloudURL env v q)) ∧
  (∀ floc p p0 u,
      poll p = (None, p0) →
      Contains floc "://" = true → url_Parse env floc = Ok u →
      Scheme u ∉ ["file"; "s3"; "gs"; "azblob"; "http"; "https"] →
      GetDuckfiles env floc p = (Err ("unsupported URL scheme: " +:+ Scheme u), p0)).
Proof.
  split.
  - intros floc p urls p' v H Hv.
    assert (Scheme v ∈ ["file"; "s3"; "gs"; "azblob"; "http"; "https"]) as Hs.
    { unfold GetDuckfiles in H.
      destruct (poll p) as [[e|] p0]; [done|].
      destruct (if Contains floc "://" then _ else _) as [u|e] eqn:Hu; [|done].
      destruct (String.eqb (Scheme u) "file") eqn:E1.
      { apply String.eqb_eq in E1. unfold handleFileURL in H.
        destruct (poll p0) as [[e|] p1]; [done|].
        destruct (os_Stat env (Path u)) as [[]|e]; [|injection H as <- <-|done].
        - destruct (os_ReadDir env (Path u)) as [files|e]; [|done].
          injection H as <- <-. apply handleFileURL_files_scheme in Hv as [Hv| ->].
          + by apply elem_of_nil in Hv.
          + set_solver.
        - apply list_elem_of_singleton in Hv as ->. rewrite E1. set_solver. }
      destruct ((Scheme u =? "s3") || (Scheme u =? "gs") || (Scheme u =? "azblob"))
        eqn:E2.
      { assert (Scheme u ∈ ["file"; "s3"; "gs"; "azblob"; "http"; "https"]) as Hsu.
        { apply orb_true_iff in E2 as [[?%String.eqb_eq|?%String.eqb_eq]%orb_true_iff
                                      |?%String.eqb_eq]; set_solver. }
        unfold handleCloudURL in H.
        destruct (poll p0) as [[e|] p1]; [done|].
        destruct (blob_OpenBucket env _) as [bucket|e]; [|done].
        destruct (HasSuffix _ "/" || _).
        - destruct (handleCloudURL_list _ _ _ _) as [urls'|e] eqn:Hl; [|done].
          injection H as <- <-.
          rewrite (handleCloudURL_list_scheme _ _ _ _ _ Hl); [done| |done].
          by intros ? ?%elem_of_nil.
        - destruct (Exists bucket _) as [[]|e]; [|injection H as <- <-|done].
          + destruct (Contains floc "://"); 
              [|destruct (filepath_Abs env floc); [injection Hu as <-; done|done]].
            destruct (url_Parse env floc) as [u'|e]; [|done].
            injection Hu as ->. injection H as <- <-.
            by apply list_elem_of_singleton in Hv as ->.
          + by apply elem_of_nil in Hv. }
      destruct ((Scheme u =? "http") || (Scheme u =? "https")) eqn:E3; [|done].
      unfold handleHTTPURL in H. destruct (poll p0) as [[e|] p1]; [done|].
      injection H as <- <-. apply list_elem_of_singleton in Hv as ->.
      apply orb_true_iff in E3 as [?%String.eqb_eq|?%String.eqb_eq]; set_solver. }
    unfold LoadDuckfile_switch.
    repeat (apply elem_of_cons in Hs as [Hs|Hs]); [..|by apply elem_of_nil in Hs];
      rewrite Hs; simpl; auto 10.
  - intros floc p p0 u Hp Hc Hu Hs. unfold GetDuckfiles. rewrite Hp, Hc, Hu.
    destruct (String.eqb (Scheme u) "file") eqn:E1;
      [apply String.eqb_eq in E1; set_solver|].
    destruct (String.eqb (Scheme u) "s3") eqn:E2;
      [apply String.eqb_eq in E2; set_solver|].
    destruct (String.eqb (Scheme u) "gs") eqn:E3;
      [apply String.eqb_eq in E3; set_solver|].
    destruct (String.eqb (Scheme u) "azblob") eqn:E4;
      [apply String.eqb_eq in E4; set_solver|].
    destruct (String.eqb (Scheme u) "http") eqn:E5;
      [apply String.eqb_eq in E5; set_solver|].
    destruct (String.eqb (Scheme u) "https") eqn:E6;
      [apply String.eqb_eq in E6; set_solver|].
    done.
Qed.

End expansion.

Section listing.
Context {W : Type} (env : Env W).
Implicit Types (p : Proc W) (d : Duck W) (u v : URL).

(** *** Listing the targets *)

Lemma println_all (ids : list string) : ∀ p,
  events (foldl (λ p target, emit (EvPrintln target) p) p ids)
    = events p ++ (EvPrintln <$> ids) ∧
  world (foldl (λ p target, emit (EvPrintln target) p) p ids) = world p.
Proof.
  induction ids as [|k ids IH]; intros p; simpl.
  - by rewrite app_nil_r.
  - destruct (IH (emit (EvPrintln k) p)) as [-> ->]. simpl.
    by rewrite <- app_assoc.
Qed.

(** The targets of a table that were in [d0] already or are as the
    hydration returned them. *)
Lemma CompileTargets_hydrated d0 d p r d' p' :
  (∀ k t, Targets d !! k = Some t →
          Targets d0 !! k = Some t ∨ ∃ cx konfig, NewTarget env cx konfig = Ok t) →
  CompileTargets env d p = (r, d', p') →
  ∀ k t, Targets d' !! k = Some t →
         Targets d0 !! k = Some t ∨ ∃ cx konfig, NewTarget env cx konfig = Ok t.
Proof.
  intros HQ H.
  eapply (CompileTargets_keeps env
            (λ d _, ∀ k t, Targets d !! k = Some t →
                           Targets d0 !! k = Some t ∨
                           ∃ cx konfig, NewTarget env cx konfig = Ok t));
    [done|done| |exact HQ|exact H].
  intros d1 p1 name konfig t Hold _ Ht k t'. cbn.
  destruct (decide (k = name)) as [->|Hne].
  - rewrite lookup_insert_eq. intros [= <-]. right. eauto.
  - rewrite lookup_insert_ne by done. apply Hold.
Qed.

Lemma ListTargets_spec d p r d' p' :
  ListTargets env d p = (r, d', p') →
  world p' = world p ∧ Targets d ⊆ Targets d' ∧
  (∀ k t, Targets d' !! k = Some t →
          Targets d !! k = Some t ∨ ∃ cx konfig, NewTarget env cx konfig = Ok t) ∧
  match r with
  | None =>
    ∃ ids, events p' = events p ++ (EvPrintln <$> ids) ∧ NoDup ids ∧
           ∀ k, k ∈ ids ↔ is_Some (Targets d' !! k)
  | Some _ => events p' = events p
  end.
Proof.
  unfold ListTargets. intros H.
  destruct (poll p) as [[e|] p0] eqn:Hp; apply engine_props.poll_inv in Hp as [Hev Hw].
  { injection H as <- <- <-. split_and!; auto. }
  destruct (if (size (Targets d) =? 0)%nat then _ else _) as [[r1 d1] p1] eqn:Hc.
  assert (res_frame d p0 d1 p1 ∧
          ∀ k t, Targets d1 !! k = Some t →
                 Targets d !! k = Some t ∨ ∃ cx konfig, NewTarget env cx konfig = Ok t)
    as [(_ & Hsub & _ & Hev1 & Hw1) Hhy].
  { destruct (size (Targets d) =? 0)%nat.
    - split; [by eapply CompileTargets_frame|].
      eapply CompileTargets_hydrated; [|exact Hc]. auto.
    - injection Hc as <- <- <-. split; [apply res_frame_refl|auto]. }
  destruct r1 as [e|]; injection H as <- <- <-.
  { split_and!; [congruence|done|done|congruence]. }
  destruct (println_all (map_to_list (Targets d1)).*1 p1) as [E1 E2].
  split_and!; [congruence|done|done|].
  exists (map_to_list (Targets d1)).*1. split_and!.
  - rewrite E1. congruence.
  - apply NoDup_fst_map_to_list.
  - intros k. rewrite list_elem_of_fmap. split.
    + intros ([k' t] & -> & Hin). apply elem_of_map_to_list in Hin. by exists t.
    + intros [t Ht]. exists (k, t). split; [done|]. by apply elem_of_map_to_list.
Qed.

(** X13: the list mode runs nothing. With [list-targets] set, [Run]
    compiles the documents and prints the ids of the table, every id once;
    no check and no action is executed and no body starts. The targets of
    the table are those it had and those that the pass compiled, each as
    the hydration returned it: no target is cleared, unless the hydration
    returns cleared targets. When the compilation fails nothing is
    printed. *)
Theorem list_mode_runs_nothing d p o d' p' :
  ListTargets_ (Config_ d) = true →
  duck.Run env d p = Some (o, d', p') →
  world p' = world p ∧ Targets d ⊆ Targets d' ∧
  (∀ k t, Targets d' !! k = Some t →
          Targets d !! k = Some t ∨ ∃ cx konfig, NewTarget env cx konfig = Ok t) ∧
  ((∀ cx konfig t, NewTarget env cx konfig = Ok t → target.Cleared t = false) →
   uncleared (Targets d) → uncleared (Targets d')) ∧
  match o with
  | Nil =>
    ∃ ids, events p' = events p ++ (EvPrintln <$> ids) ∧ NoDup ids ∧
           ∀ k, k ∈ ids ↔ is_Some (Targets d' !! k)
  | _ => events p' = events p
  end.
Proof.
  intros Hl H.
  assert (world p' = world p ∧ Targets d ⊆ Targets d' ∧
          (∀ k t, Targets d' !! k = Some t →
                  Targets d !! k = Some t ∨
                  ∃ cx konfig, NewTarget env cx konfig = Ok t) ∧
          match o with
          | Nil =>
            ∃ ids, events p' = events p ++ (EvPrintln <$> ids) ∧ NoDup ids ∧
                   ∀ k, k ∈ ids ↔ is_Some (Targets d' !! k)
          | _ => events p' = events p
          end) as (Hw' & Hsub' & Hhy' & Hev').
  { unfold duck.Run in H.
    destruct (poll p) as [[e|] p0] eqn:Hp; apply engine_props.poll_inv in Hp as [Hev Hw].
    { injection H as <- <- <-. split_and!; auto. }
    destruct (CompileTargets env d p0) as [[r1 d1] p1] eqn:Hc.
    pose proof (CompileTargets_hydrated d d p0 r1 d1 p1 (λ k t Hk, or_introl Hk) Hc) as Hhy.
    apply CompileTargets_frame in Hc as (Hcfg & Hsub & _ & Hev1 & Hw1).
    destruct r1 as [e|].
    { injection H as <- <- <-. split_and!; [congruence|done|done|congruence]. }
    rewrite Hcfg, Hl in H.
    destruct (ListTargets env d1 p1) as [[[e|] d2] p2] eqn:Hlt;
      apply ListTargets_spec in Hlt as (Hw2 & Hsub2 & Hhy2 & Hr); injection H as <- <- <-.
    - split_and!; [congruence|by etrans| |congruence].
      intros k t [?|?]%Hhy2; [by apply Hhy|by right].
    - destruct Hr as (ids & Hids & Hnd & Hin).
      split_and!; [congruence|by etrans| |].
      + intros k t [?|?]%Hhy2; [by apply Hhy|by right].
      + exists ids. split_and!; [|done..]. rewrite Hids. congruence. }
  split_and!; [done..| |done].
  intros Hnew Hun k t Hk. destruct (Hhy' k t Hk) as [Hold|(cx & konfig & Ht)].
  - by eapply Hun.
  - by eapply Hnew.
Qed.

(** X14: what a pass files. When the hydration of a target honours the
    id that [appendTarget] sets, every target of the table of a new
    instance is filed under its own id after a pass of [CompileTargets],
    whether the pass succeeds or not; and when the hydration yields targets
    that are not cleared, no target of that table is cleared. *)
Theorem compiled_table_is_well_formed cfg p r d' p' :
  CompileTargets env (NewDuck cfg) p = (r, d', p') →
  ((∀ cx k name t,
       NewTarget env cx (Set_ env k "id" name) = Ok t → target.Id t = name) →
   ids_wf (Targets d')) ∧
  ((∀ cx k t, NewTarget env cx k = Ok t → target.Cleared t = false) →
   uncleared (Targets d')).
Proof.
  intros H. split; intros Hyp.
  - eapply (CompileTargets_keeps env (λ d _, ids_wf (Targets d))); [done|done| | |exact H].
    + intros d p1 name konfig t Hwf _ Ht k t'. cbn.
      destruct (decide (k = name)) as [->|Hne].
      * rewrite lookup_insert_eq. intros [= <-]. by eapply Hyp.
      * rewrite lookup_insert_ne by done. apply Hwf.
    + by intros k t.
  - eapply (CompileTargets_keeps env (λ d _, uncleared (Targets d))); [done|done| | |exact H].
    + intros d p1 name konfig t Hwf _ Ht k t'. cbn.
      destruct (decide (k = name)) as [->|Hne].
      * rewrite lookup_insert_eq. intros [= <-]. by eapply Hyp.
      * rewrite lookup_insert_ne by done. apply Hwf.
    + by intros k t.
Qed.

End listing.
End compile_props.

(** ** More on [cmd.DefaultApp] *)
Module loop_props.
Import cmd.

Section live.
Context {W : Type}.
Implicit Types (p : Proc W) (d : duck.Duck W).

(** *** A context that is never cancelled stays so *)

Lemma target_Run_live (t : target.Target W) p o t' p' :
  ctx p = None → target.Run t p = (o, t', p') → ctx p' = None.
Proof.
  intros Hc. unfold target.Run. destruct (target.Cleared t); [by intros [= _ _ <-]|].
  rewrite (engine_props.poll_never p Hc).
  destruct (target.checks_loop _ _ _ _) as [[c1 t1] p1] eqn:H1.
  apply engine_props.checks_loop_inv in H1 as (Hc1 & _).
  destruct c1; [|intros [= _ _ <-]; by rewrite Hc1].
  destruct (target.actions_loop _ _ _ _) as [[c2 t2] p2] eqn:H2.
  apply engine_props.actions_loop_inv in H2 as (Hc2 & _).
  destruct c2; intros [= _ _ <-]; by rewrite Hc2, Hc1.
Qed.

Lemma RunTarget_deps_live (self : duck.Runner) deps :
  (∀ y L d p o L' d' p',
      ctx p = None → self y L d p = Some (o, L', d', p') → ctx p' = None) →
  ∀ L d p o L' d' p',
    ctx p = None → duck.RunTarget_deps self deps L d p = Some (o, L', d', p') →
    ctx p' = None.
Proof.
  intros Hself. induction deps as [|y deps IH]; intros L d p o L' d' p' Hc H;
    cbn [duck.RunTarget_deps] in H.
  - by injection H as <- <- <- <-.
  - destruct (self y L d p) as [[[[o1 L1] d1] p1]|] eqn:Hy; [|done].
    apply Hself in Hy; [|done].
    destruct o1; [by eapply IH|by injection H as <- <- <- <-..].
Qed.

Lemma RunTarget_live depth : ∀ x L d p o L' d' p',
  ctx p = None → duck.RunTarget depth x L d p = Some (o, L', d', p') →
  ctx p' = None.
Proof.
  induction depth as [|depth IH]; intros x L d p o L' d' p' Hc H; [done|].
  cbn [duck.RunTarget] in H. rewrite (engine_props.poll_never p Hc) in H.
  destruct (duck.Targets d !! x) as [t|]; [|by injection H as <- <- <- <-].
  case_bool_decide; [by injection H as <- <- <- <-|].
  destruct (target.Cleared t); [by injection H as <- <- <- <-|].
  destruct (duck.RunTarget_deps _ _ _ _ _) as [[[[o1 L1] d1] p1]|] eqn:Hd; [|done].
  apply (RunTarget_deps_live _ _ IH) in Hd; [|done].
  destruct o1; [|by injection H as <- <- <- <-..].
  destruct (duck.Targets d1 !! x) as [t1|]; [|by injection H as <- <- <- <-].
  destruct (target.Run t1 p1) as [[o2 t2] p2] eqn:Hr.
  apply target_Run_live in Hr; [|done]. by injection H as <- <- <- <-.
Qed.

Lemma emit_all_ctx (ids : list string) : ∀ p,
  ctx (foldl (λ p target, emit (EvPrintln target) p) p ids) = ctx p.
Proof. induction ids as [|k ids IH]; intros p; simpl; [done|]. by rewrite IH. Qed.

Lemma duck_Run_live (env : duck.Env W) d p o d' p' :
  ctx p = None → duck.Run env d p = Some (o, d', p') → ctx p' = None.
Proof.
  intros Hc. unfold duck.Run. rewrite (engine_props.poll_never p Hc).
  destruct (duck.CompileTargets env d p) as [[r d1] p1] eqn:Hct.
  apply compile_props.CompileTargets_live in Hct as ->; [|done].
  destruct r; [by intros [= _ _ <-]|].
  destruct (duck.ListTargets_ _).
  - unfold duck.ListTargets. rewrite (engine_props.poll_never p Hc).
    destruct (if (size _ =? 0)%nat then _ else _) as [[r2 d2] p2] eqn:Hc2.
    assert (p2 = p) as ->.
    { destruct (size _ =? 0)%nat; [|by injection Hc2].
      by apply compile_props.CompileTargets_live in Hc2. }
    destruct r2; intros [= _ _ <-]; [done|]. by rewrite emit_all_ctx.
  - destruct (duck.RunTarget _ _ _ _ _) as [[[[o1 L1] d2] p2]|] eqn:Hr; [|done].
    apply RunTarget_live in Hr; [|done]. by intros [= _ _ <-].
Qed.

End live.

Section loop.
Context {W : Type} (env : duck.Env W) (konfig : duck.Config).
Implicit Types (s : Loop W) (tk : Tick).

Local Abbreviation T := (duck.DaemonTimeout konfig).
Local Abbreviation I := (duck.DaemonInterval konfig).
Local Abbreviation N := (duck.DaemonIterations konfig).

Open Scope Z_scope.

Ltac zb :=
  repeat match goal with
         | |- context [(?a <? ?b)] => destruct (Z.ltb_spec a b)
         | |- context [(?a <=? ?b)] => destruct (Z.leb_spec a b)
         | H : context [(?a <? ?b)] |- _ => destruct (Z.ltb_spec a b)
         | H : context [(?a <=? ?b)] |- _ => destruct (Z.leb_spec a b)
         end; simpl in *.

(** The Sleeping phase with no deadline and no interrupt: the interval
    timer is the only case that can proceed. *)
Lemma sleeping_quiet tk s :
  T ≤ 0 → timeoutCh s = None → ctx (proc s) = None → signal tk = None →
  let s' := sleeping konfig tk s in
  timeoutCh s' = None ∧ proc s' = proc s ∧
  now s' = now s + interval konfig ∧
  iterationCount s' = iterationCount s + 1 ∧
  running s' =
    running s && negb ((0 <? N) && (N <=? iterationCount s + 1)).
Proof.
  intros HT Hto Hc Hsig.
  assert (arm konfig s = s) as Harm.
  { unfold arm. destruct (Z.ltb_spec 0 T); [lia|]. by rewrite andb_false_r. }
  assert (wake konfig tk s = now s + interval konfig) as Hw.
  { unfold wake, ready_at. by rewrite Hc, Hsig, Hto. }
  assert (chosen konfig tk s = IntervalCh) as Hch.
  { unfold chosen, is_ready. rewrite Hw.
    destruct (pick tk); unfold ready_at; rewrite ?Hc, ?Hsig, ?Hto; simpl;
      repeat case_bool_decide; done. }
  unfold sleeping. rewrite Harm, Hch, Hw. cbn.
  destruct ((0 <? N) && (N <=? iterationCount s + 1)); cbn;
    rewrite ?andb_false_r, ?andb_true_r; done.
Qed.

(** A pass of a daemon with no deadline and no interrupt, whose run
    returns nil. *)
Lemma pass_quiet tk s :
  duck.Daemon konfig = true → T ≤ 0 →
  (∀ p, ctx p = None → ∃ d' p', duck.Run env (duck.NewDuck konfig) p = Some (Nil, d', p')) →
  timeoutCh s = None → ctx (proc s) = None → signal tk = None → running s = true →
  ∃ s', pass env konfig tk s = Some (None, s') ∧
        timeoutCh s' = None ∧ ctx (proc s') = None ∧
        iterationCount s' = iterationCount s + 1 ∧
        running s' = negb ((0 <? N) && (N <=? iterationCount s + 1)).
Proof.
  intros Hd HT Hnil Hto Hc Hsig Hrun. unfold pass.
  rewrite (engine_props.poll_never _ Hc).
  destruct (Hnil (proc (set_proc (proc s) s)) Hc) as (d' & p' & HR). rewrite HR, Hd.
  pose proof (duck_Run_live _ _ _ _ _ _ Hc HR) as Hc'.
  eexists. split; [done|].
  set (s0 := elapse _ _).
  destruct (sleeping_quiet tk s0 HT) as (E1 & E2 & _ & E4 & E5); [done..|].
  rewrite E1, E2, E4, E5. subst s0. cbn. by rewrite Hrun.
Qed.

Lemma loop_quiet ticks : ∀ s,
  duck.Daemon konfig = true → T ≤ 0 →
  (∀ p, ctx p = None → ∃ d' p', duck.Run env (duck.NewDuck konfig) p = Some (Nil, d', p')) →
  (∀ tk, tk ∈ ticks → signal tk = None) →
  timeoutCh s = None → ctx (proc s) = None → running s = true →
  (0 < N → iterationCount s < N) →
  ∃ r s', DefaultApp_loop env konfig ticks s = Some (r, s') ∧
    if (0 <? N) && (N <=? iterationCount s + Z.of_nat (length ticks))
    then r = Some Nil ∧ iterationCount s' = N ∧ running s' = false
    else r = None ∧ running s' = true ∧
         iterationCount s' = iterationCount s + Z.of_nat (length ticks).
Proof.
  induction ticks as [|tk ticks IH]; intros s Hd HT Hnil Hsig Hto Hc Hrun Hlt.
  - cbn. rewrite Hrun. exists None, s. split; [done|].
    zb; split_and!; try done; lia.
  - cbn [DefaultApp_loop]. rewrite Hrun.
    destruct (pass_quiet tk s Hd HT Hnil Hto Hc) as (s1 & -> & Hto1 & Hc1 & Hi1 & Hr1);
      [by apply Hsig, list_elem_of_here|done|].
    destruct ((0 <? N) && (N <=? iterationCount s + 1)) eqn:E; simpl in Hr1.
    + exists (Some Nil), s1.
      assert (DefaultApp_loop env konfig ticks s1 = Some (Some Nil, s1)) as ->
        by (destruct ticks; cbn; by rewrite Hr1).
      split; [done|]. rewrite length_cons. zb; split_and!; try done; lia.
    + destruct (IH s1) as (r & s' & -> & Hres); try done.
      { intros tk' ?. by apply Hsig, list_elem_of_further. }
      { lia. }
      exists r, s'. split; [done|]. rewrite Hi1 in Hres.
      replace (iterationCount s + Z.of_nat (length (tk :: ticks)))
        with (iterationCount s + 1 + Z.of_nat (length ticks)) by (rewrite length_cons; lia).
      done.
Qed.

(** X15: a daemon with an iteration limit and no deadline, that is not
    interrupted and whose runs return nil, returns nil after exactly as
    many passes as the limit says: with fewer passes the loop is still
    running, and [iterationCount] is the number of passes made. *)
Theorem daemon_iteration_limit ticks t0 p :
  duck.Daemon konfig = true → T ≤ 0 → 0 < N →
  (∀ q, ctx q = None →
        ∃ d' q', duck.Run env (duck.NewDuck konfig) q = Some (Nil, d', q')) →
  (∀ tk, tk ∈ ticks → signal tk = None) →
  ctx p = None →
  (Z.of_nat (length ticks) < N →
   ∃ s', DefaultApp env konfig ticks t0 p = Some (None, s') ∧ running s' = true ∧
         iterationCount s' = Z.of_nat (length ticks)) ∧
  (N ≤ Z.of_nat (length ticks) →
   ∃ s', DefaultApp env konfig ticks t0 p = Some (Some Nil, s') ∧
         iterationCount s' = N).
Proof.
  intros Hd HT HN Hnil Hsig Hc. unfold DefaultApp.
  destruct (loop_quiet ticks (DefaultApp_init t0 p) Hd HT Hnil Hsig)
    as (r & s' & Hl & Hres); [done..|cbn; lia|].
  rewrite Hl. cbn [DefaultApp_init iterationCount] in Hres. split; intros Hlen.
  - zb; try lia. destruct Hres as (-> & ? & ?). exists s'. split_and!; [done..|lia].
  - zb; try lia. destruct Hres as (-> & ? & ?). by exists s'.
Qed.

(** X16: with the iteration limit 0 and the deadline 0, a daemon that is
    not interrupted and whose runs return nil never returns: after any
    number of passes the loop is still running. *)
Theorem daemon_without_limits_goes_on ticks t0 p :
  duck.Daemon konfig = true → T ≤ 0 → N ≤ 0 →
  (∀ q, ctx q = None →
        ∃ d' q', duck.Run env (duck.NewDuck konfig) q = Some (Nil, d', q')) →
  (∀ tk, tk ∈ ticks → signal tk = None) →
  ctx p = None →
  ∃ s', DefaultApp env konfig ticks t0 p = Some (None, s') ∧ running s' = true ∧
        iterationCount s' = Z.of_nat (length ticks).
Proof.
  intros Hd HT HN Hnil Hsig Hc. unfold DefaultApp.
  destruct (loop_quiet ticks (DefaultApp_init t0 p) Hd HT Hnil Hsig)
    as (r & s' & Hl & Hres); [done..|lia|].
  rewrite Hl. destruct (Z.ltb_spec 0 N); [lia|]. simpl in Hres.
  destruct Hres as (-> & ? & Hi). exists s'. split_and!; [done..|].
  rewrite Hi. cbn. lia.
Qed.

(** X17: without the daemon mode [DefaultApp] makes one pass. It calls
    [Run] on a new instance once and returns what that call returns, an
    error or nil, whatever would follow; nothing is slept and
    [iterationCount] stays 0. *)
Theorem one_shot_runs_once tk ticks t0 p p0 :
  duck.Daemon konfig = false →
  poll p = (None, p0) →
  ∃ o d' p1 s',
    duck.Run env (duck.NewDuck konfig) p0 = Some (o, d', p1) ∧
    DefaultApp env konfig (tk :: ticks) t0 p = Some (Some o, s') ∧
    proc s' = p1 ∧ iterationCount s' = 0 ∧ slept s' = 0 ∧ timeoutCh s' = None.
Proof.
  intros Hd Hp.
  destruct (daemon_props.Run_total env (duck.NewDuck konfig) p0) as [[[o d'] p1] HR].
  exists o, d', p1. unfold DefaultApp. cbn [DefaultApp_loop DefaultApp_init running].
  unfold pass. change (proc (DefaultApp_init t0 p)) with p. rewrite Hp.
  cbn [proc set_proc]. rewrite HR.
  destruct o; [rewrite Hd|..].
  - eexists. split; [done|]. split; [by destruct ticks|done].
  - eexists. split; [done|]. split; [done|done].
  - eexists. split; [done|]. split; [done|done].
Qed.

(** X18: what an interrupt does depends on where it arrives. When the
    context is cancelled as a pass begins, [DefaultApp] returns nil and
    runs nothing; when it is cancelled after that and before the check of
    [Run], [DefaultApp] returns the error of [Run]; and when a daemon with
    no deadline is interrupted in its sleep, before the interval timer
    fires, it returns nil with [iterationCount] as it was. The timer fires
    after the [Duration] that the interval makes: so many seconds when they
    fit an [int64] of nanoseconds, and what the product wraps to
    otherwise. *)
Theorem interrupt_outcomes tk ticks t0 p :
  (ctx p = Some 0%nat →
   ∃ s', DefaultApp env konfig (tk :: ticks) t0 p = Some (Some Nil, s') ∧
         events (proc s') = events p ∧ world (proc s') = world p) ∧
  (ctx p = Some 1%nat →
   ∃ s', DefaultApp env konfig (tk :: ticks) t0 p
         = Some (Some (Error (duck.context_cancelled_before context_canceled)), s') ∧
         events (proc s') = events p ∧ world (proc s') = world p) ∧
  (∀ p0 d' p1 dt,
      poll p = (None, p0) →
      duck.Run env (duck.NewDuck konfig) p0 = Some (Nil, d', p1) →
      duck.Daemon konfig = true → T ≤ 0 →
      signal tk = Some dt → 0 ≤ dt < seconds I →
      ∃ s', DefaultApp env konfig (tk :: ticks) t0 p = Some (Some Nil, s') ∧
            iterationCount s' = 0 ∧
            now s' ≤ t0 + run_time tk + dt ∧ slept s' ≤ dt) ∧
  (0 ≤ I ≤ max_seconds → seconds I = I * Second).
Proof.
  split_and!.
  - intros Hc. unfold DefaultApp. cbn [DefaultApp_loop DefaultApp_init running].
    unfold pass, poll. change (proc (DefaultApp_init t0 p)) with p. rewrite Hc. cbn.
    eexists. split; [by destruct ticks|done].
  - intros Hc. unfold DefaultApp. cbn [DefaultApp_loop DefaultApp_init running].
    unfold pass, poll. change (proc (DefaultApp_init t0 p)) with p. rewrite Hc.
    cbn [ctx_Err set_ctx set_proc proc].
    unfold duck.Run, poll. cbn. eexists. split; [done|done].
  - intros p0 d' p1 dt Hp HR Hd HT Hsig Hdt.
    unfold DefaultApp. cbn [DefaultApp_loop DefaultApp_init running].
    unfold pass. change (proc (DefaultApp_init t0 p)) with p. rewrite Hp.
    cbn [proc set_proc]. rewrite HR, Hd.
    set (s0 := elapse _ _).
    assert (arm konfig s0 = s0) as Harm.
    { unfold arm. destruct (Z.ltb_spec 0 T); [lia|]. by rewrite andb_false_r. }
    assert (now s0 = t0 + run_time tk) as Hnow by done.
    assert (wake konfig tk s0 ≤ now s0 + dt ∧ now s0 ≤ wake konfig tk s0 ∧
            chosen konfig tk s0 = CtxDone) as (Hw1 & Hw2 & Hch).
    { unfold chosen, is_ready, wake, ready_at, earlier, interval. cbn [timeoutCh s0 elapse set_proc DefaultApp_init].
      rewrite Hsig. cbn [fmap option_fmap option_map].
      destruct (ctx (proc s0)) as [[|n]|]; cbn [fmap option_fmap option_map];
        (split_and!; [lia|lia|]);
        destruct (pick tk); repeat case_bool_decide; simplify_eq; try done; try lia;
        exfalso;
        match goal with H : Some _ ≠ Some _ |- _ => apply H; f_equal; lia end. }
    unfold sleeping. rewrite Harm, Hch.
    eexists. split.
    { destruct ticks; cbn; done. }
    cbn. subst s0. cbn in *. lia.
  - apply daemon_props.seconds_small.
Qed.

End loop.
End loop_props.

(** ** The hydration of a target *)
Module hydrate_props.
Import target.

Section hydrate.
Context {W K : Type} (ld : Loaders W K).
Implicit Types (t : Target W) (k : K).

Lemma NewTarget_checks_Ok ctx slices : ∀ t t',
  NewTarget_checks ld ctx slices t = Ok t' →
  ∃ cs, Forall2 (λ kc c, LoadCheck ld ctx kc = Ok c) slices cs ∧
        t' = set_Checks (Checks t ++ cs) t.
Proof.
  induction slices as [|kc slices IH]; intros t t' H; simpl in H.
  - injection H as <-. exists []. split; [constructor|].
    rewrite app_nil_r. by destruct t.
  - destruct (LoadCheck ld ctx kc) as [c|e] eqn:Hc; [|done].
    apply IH in H as (cs & Hcs & ->). exists (c :: cs). split; [by constructor|].
    cbn. by rewrite <- app_assoc.
Qed.

Lemma NewTarget_actions_Ok ctx slices : ∀ t t',
  NewTarget_actions ld ctx slices t = Ok t' →
  ∃ acts, Forall2 (λ ka a, LoadAction ld ctx ka = Ok a) slices acts ∧
          t' = set_Actions (Actions t ++ acts) t.
Proof.
  induction slices as [|ka slices IH]; intros t t' H; simpl in H.
  - injection H as <-. exists []. split; [constructor|].
    rewrite app_nil_r. by destruct t.
  - destruct (LoadAction ld ctx ka) as [a|e] eqn:Ha; [|done].
    apply IH in H as (acts & Hacts & ->). exists (a :: acts). split; [by constructor|].
    cbn. by rewrite <- app_assoc.
Qed.

Lemma NewTarget_checks_Err ctx pre kc post e : ∀ t,
  Forall (λ k, ∃ c, LoadCheck ld ctx k = Ok c) pre →
  LoadCheck ld ctx kc = Err e →
  NewTarget_checks ld ctx (pre ++ kc :: post) t = Err e.
Proof.
  induction pre as [|k pre IH]; intros t Hpre He; simpl.
  - by rewrite He.
  - apply Forall_cons in Hpre as [[c ->] Hpre]. by apply IH.
Qed.

Lemma NewTarget_actions_Err ctx pre ka post e : ∀ t,
  Forall (λ k, ∃ a, LoadAction ld ctx k = Ok a) pre →
  LoadAction ld ctx ka = Err e →
  NewTarget_actions ld ctx (pre ++ ka :: post) t = Err e.
Proof.
  induction pre as [|k pre IH]; intros t Hpre He; simpl.
  - by rewrite He.
  - apply Forall_cons in Hpre as [[a ->] Hpre]. by apply IH.
Qed.

(** X19: what [NewTarget] builds. A target that [NewTarget] returns has
    the id, the cleared flag, the policies and the dependencies that the
    hydration gave it, one check for every entry of [checks] and one action
    for every entry of [actions], each built by [LoadCheck] or [LoadAction]
    from its entry, in the order of the document. *)
Theorem NewTarget_loads_in_order ctx k t' :
  NewTarget ld ctx k = Ok t' →
  ∃ t0 cs acts,
    Load ld k = Ok t0 ∧
    Forall2 (λ kc c, LoadCheck ld ctx kc = Ok c) (Slices ld k "checks") cs ∧
    Forall2 (λ ka a, LoadAction ld ctx ka = Ok a) (Slices ld k "actions") acts ∧
    Checks t' = Checks t0 ++ cs ∧ Actions t' = Actions t0 ++ acts ∧
    Id t' = Id t0 ∧ Cleared t' = Cleared t0 ∧ Config_ t' = Config_ t0 ∧
    Dependencies t' = Dependencies t0.
Proof.
  unfold NewTarget. intros H.
  destruct (Load ld k) as [t0|e]; [|done].
  destruct (NewTarget_checks ld ctx _ t0) as [t1|e] eqn:H1; [|done].
  apply NewTarget_checks_Ok in H1 as (cs & Hcs & ->).
  apply NewTarget_actions_Ok in H as (acts & Hacts & ->).
  by exists t0, cs, acts.
Qed.

(** X20: one entry that cannot be loaded fails the whole target. The
    first entry of [checks] whose load fails makes [NewTarget] return that
    error, whatever follows in the document; so does the first entry of
    [actions] when every check loads. An entry whose type is not one of
    the six kinds of check, or of the seven kinds of action, is such an
    entry: its error is "unknown check type" or "unknown action type" with
    the type; the action type "file" is one of them. *)
Theorem NewTarget_fails_as_a_whole :
  (∀ ctx k t0 pre kc post e,
      Load ld k = Ok t0 →
      Slices ld k "checks" = pre ++ kc :: post →
      Forall (λ k, ∃ c, LoadCheck ld ctx k = Ok c) pre →
      LoadCheck ld ctx kc = Err e →
      NewTarget ld ctx k = Err e) ∧
  (∀ ctx k t0 pre ka post e,
      Load ld k = Ok t0 →
      Forall (λ k, ∃ c, LoadCheck ld ctx k = Ok c) (Slices ld k "checks") →
      Slices ld k "actions" = pre ++ ka :: post →
      Forall (λ k, ∃ a, LoadAction ld ctx k = Ok a) pre →
      LoadAction ld ctx ka = Err e →
      NewTarget ld ctx k = Err e) ∧
  (∀ ctx k,
      String_ ld k "type" ∉ ["dummy"; "file"; "cron"; "localstate"; "shell"; "rest"] →
      LoadCheck ld ctx k = Err ("unknown check type: " +:+ String_ ld k "type")) ∧
  (∀ ctx k,
      String_ ld k "type"
        ∉ ["dummy"; "print"; "sleep"; "localstate"; "rest"; "shell"; "template"] →
      LoadAction ld ctx k = Err ("unknown action type: " +:+ String_ ld k "type")) ∧
  (∀ ctx k, String_ ld k "type" = "file" →
            LoadAction ld ctx k = Err "unknown action type: file").
Proof.
  split_and!.
  - intros ctx k t0 pre kc post e Hl Hs Hpre He. unfold NewTarget.
    by rewrite Hl, Hs, (NewTarget_checks_Err _ _ _ _ _ _ Hpre He).
  - intros ctx k t0 pre ka post e Hl Hcs Hs Hpre He. unfold NewTarget. rewrite Hl.
    destruct (NewTarget_checks ld ctx _ t0) as [t1|e1] eqn:H1.
    + by rewrite Hs, (NewTarget_actions_Err _ _ _ _ _ _ Hpre He).
    + exfalso. clear -Hcs H1. revert t0 H1.
      induction Hcs as [|kc l [c Hc] _ IH]; intros t0 H1; simpl in H1; [done|].
      rewrite Hc in H1. by eapply IH.
  - intros ctx k Hty. unfold LoadCheck. cbv zeta.
    repeat match goal with
           | |- context [String.eqb ?a ?b] =>
             destruct (String.eqb_spec a b) as [E|_];
             [exfalso; apply Hty; rewrite E; set_solver|]
           end.
    done.
  - intros ctx k Hty. unfold LoadAction. cbv zeta.
    repeat match goal with
           | |- context [String.eqb ?a ?b] =>
             destruct (String.eqb_spec a b) as [E|_];
             [exfalso; apply Hty; rewrite E; set_solver|]
           end.
    done.
  - intros ctx k Hty. unfold LoadAction. by rewrite Hty.
Qed.

End hydrate.
End hydrate_props.

(** ** The plugins *)
Module plugin_props.

Section localstate.
Context {F : Type} (sys : os.OS F).

Lemma Execute_matches_Status fileContent matches : ∀ c,
  localstatecheck.Status (localstatecheck.Execute_matches fileContent matches c)
  = localstatecheck.Status c || bool_decide (fileContent ∈ matches) ∧
  localstatecheck.Config (localstatecheck.Execute_matches fileContent matches c)
  = localstatecheck.Config c ∧
  localstatecheck.Params_ (localstatecheck.Execute_matches fileContent matches c)
  = localstatecheck.Params_ c.
Proof.
  induction matches as [|m ms IH]; intros c; simpl.
  - by rewrite orb_false_r.
  - destruct (IH (if String.eqb fileContent m
                  then localstatecheck.set_Status true c else c)) as (-> & -> & ->).
    destruct (String.eqb_spec fileContent m) as [->|Hne]; simpl.
    + split_and!; [|done..]. rewrite (bool_decide_eq_true_2 (m ∈ m :: ms)); [|by left].
      by rewrite orb_true_r.
    + split_and!; [|done..]. f_equal. apply bool_decide_ext.
      rewrite elem_of_cons. naive_solver.
Qed.

(** X21: the state that the localstate action writes is the state that
    the localstate check reads. After an [Execute] of the action that
    wrote its state and returned nil, an [Execute] of a check on the same
    path, prefix and id, under a live context, returns nil; with a list of
    matches that is not empty, its status is raised when the state, with
    the white space around it trimmed, is one of the matches, and is left
    as it was when it is not; with an empty list, the null state check, it
    is left as it was, the file being there. *)
Theorem state_round_trip (a : localstateaction.LocalStateAction)
        (c : localstatecheck.LocalStateCheck) ctx ctx' fs fs' :
  (∀ path data fs fs', os.WriteFile sys path data fs = (None, fs') →
                       os.ReadFile sys path fs' = Ok data) →
  localstateaction.WipeState (localstateaction.Params_ a) = false →
  localstateaction.Execute sys a ctx fs = (None, fs') →
  localstatecheck.Path (localstatecheck.Params_ c)
    = localstateaction.Path (localstateaction.Params_ a) →
  localstatecheck.IdPrefix (localstatecheck.Params_ c)
    = localstateaction.IdPrefix (localstateaction.Params_ a) →
  localstatecheck.Id (localstatecheck.Params_ c)
    = localstateaction.Id (localstateaction.Params_ a) →
  cancelled ctx' = None →
  ∃ c', localstatecheck.Execute sys c ctx' fs' = (None, c') ∧
        localstatecheck.Config c' = localstatecheck.Config c ∧
        localstatecheck.Status c' =
          localstatecheck.Status c ||
          bool_decide (os.TrimSpace sys (localstateaction.State (localstateaction.Params_ a))
                       ∈ localstatecheck.Matches (localstatecheck.Params_ c)).
Proof.
  intros Hrw Hw Ha HP HI HId Hlive.
  unfold localstateaction.Execute in Ha. rewrite Hw in Ha.
  destruct (cancelled ctx); [done|].
  destruct (os.MkdirAll sys _ fs) as [[e|] fs1]; [done|].
  destruct (os.WriteFile sys _ _ fs1) as [[e|] fs2] eqn:Hwr; [done|].
  injection Ha as ->. apply Hrw in Hwr.
  unfold localstatecheck.Execute. rewrite Hlive, HP, HI, HId, Hwr.
  destruct (localstatecheck.Matches (localstatecheck.Params_ c)) as [|m ms] eqn:Hm.
  - exists c. split_and!; [done..|]. by rewrite orb_false_r.
  - cbn [length Nat.eqb]. eexists. split; [done|].
    by destruct (Execute_matches_Status
                   (os.TrimSpace sys (localstateaction.State (localstateaction.Params_ a)))
                   (m :: ms) c) as (-> & -> & _).
Qed.

(** X22: a wiped state is the null state. After an [Execute] of the
    action with [wipe_state] that returned nil, a check on the same path,
    prefix and id with no matches, the null state check, raises its status
    and returns nil; a check with matches returns the error "failed to
    read state file", with its status as it was. *)
Theorem wiped_state_is_null_state (a : localstateaction.LocalStateAction)
        (c : localstatecheck.LocalStateCheck) ctx ctx' fs fs' :
  (∀ path fs e fs',
      os.Remove sys path fs = (e, fs') →
      (∀ x, e = Some x → os.IsNotExist sys x = true) →
      ∃ e', os.ReadFile sys path fs' = Err e' ∧ os.IsNotExist sys e' = true) →
  localstateaction.WipeState (localstateaction.Params_ a) = true →
  localstateaction.Execute sys a ctx fs = (None, fs') →
  localstatecheck.Path (localstatecheck.Params_ c)
    = localstateaction.Path (localstateaction.Params_ a) →
  localstatecheck.IdPrefix (localstatecheck.Params_ c)
    = localstateaction.IdPrefix (localstateaction.Params_ a) →
  localstatecheck.Id (localstatecheck.Params_ c)
    = localstateaction.Id (localstateaction.Params_ a) →
  cancelled ctx' = None →
  let filePath :=
    os.filepath_Join sys (localstatecheck.Path (localstatecheck.Params_ c))
      (localstatecheck.IdPrefix (localstatecheck.Params_ c)
       +:+ localstatecheck.Id (localstatecheck.Params_ c)) in
  (localstatecheck.Matches (localstatecheck.Params_ c) = [] →
   localstatecheck.Execute sys c ctx' fs'
   = (None, localstatecheck.set_Status true c)) ∧
  (localstatecheck.Matches (localstatecheck.Params_ c) ≠ [] →
   ∃ e, localstatecheck.Execute sys c ctx' fs'
        = (Some (wrap ("failed to read state file " +:+ filePath) e), c)).
Proof.
  intros Hrm Hw Ha HP HI HId Hlive filePath.
  unfold localstateaction.Execute in Ha. rewrite Hw in Ha.
  destruct (cancelled ctx); [done|].
  destruct (os.Remove sys _ fs) as [e fs1] eqn:Hr.
  assert (fs1 = fs' ∧ ∀ x, e = Some x → os.IsNotExist sys x = true) as [-> Hne].
  { destruct e as [x|]; [|by injection Ha as ->].
    destruct (os.IsNotExist sys x) eqn:Hx; simpl in Ha; [|done].
    injection Ha as ->. split; [done|]. by intros ? [= <-]. }
  destruct (Hrm _ _ _ _ Hr Hne) as (e' & Hrd & He').
  rewrite <- HP, <- HI, <- HId in Hrd. fold filePath in Hrd.
  unfold localstatecheck.Execute. rewrite Hlive. fold filePath. rewrite Hrd.
  split.
  - intros ->. simpl. by rewrite He'.
  - intros Hm. exists e'.
    by destruct (localstatecheck.Matches (localstatecheck.Params_ c)).
Qed.

End localstate.

Section dummy.
Context {W : Type}.
Implicit Types (t : target.Target W) (p : Proc W).

(** A dummy check under a live context executes without an error and
    raises its status. *)
Lemma dummy_check_Execute (get : W → bool) (set : bool → W → W)
      (cfg : checks.Config) ctx w :
  (∀ b w, get (set b w) = b) →
  cancelled ctx = None →
  let c := dummycheck.as_Check get set cfg in
  checks.Execute c ctx w = (None, set true w) ∧
  checks.Check_ c (set true w) = negb (checks.Invert cfg).
Proof.
  intros Hgs Hlive c. cbn. unfold dummycheck.Execute. rewrite Hlive. cbn.
  split; [done|]. unfold dummycheck.Check. cbn. rewrite Hgs.
  by destruct (checks.Invert cfg).
Qed.

(** X23: an inverted check that passes is a failed check. A dummy check,
    whose [Execute] under a live context raises its status, passes when it
    is not inverted, and [Run] goes on to what follows it; with [Invert]
    it fails, and [Run] resolves the failure by the exit and the cancel
    policies like any other failed check, with no later check and no
    action executed. *)
Theorem inverted_check_fails t p p0 pre post t1 p1
        (get : W → bool) (set : bool → W → W) (cfg : checks.Config) :
  (∀ b w, get (set b w) = b) →
  target.Cleared t = false →
  poll p = (None, p0) →
  target.Checks t = pre ++ dummycheck.as_Check get set cfg :: post →
  target.checks_loop 0 pre t (emit (EvRun (target.Id t)) p0) = (target.Next, t1, p1) →
  cancelled (ctx p1) = None →
  let p' := set_world (set true (world p1))
                      (emit (EvCheck (target.Id t) (length pre)) p1) in
  (checks.Invert cfg = true →
   target.Run t p =
   if target.effective (checks.ExitOnFailure cfg)
                       (target.ExitOnCheckFailure (target.Config_ t))
   then (Exit 1, t, p')
   else if target.effective (checks.CancelOnFailure cfg)
                            (target.CancelOnCheckFailure (target.Config_ t))
        then (Error "check failed, cancelling run", t, p')
        else (Nil, target.set_Cleared true t, p')) ∧
  (checks.Invert cfg = false →
   target.Run t p =
   match target.checks_loop (S (length pre)) post t p' with
   | (target.Return o, t, p) => (o, t, p)
   | (target.Next, t, p) =>
     match target.actions_loop 0 (target.Actions t) t p with
     | (target.Return o, t, p) => (o, t, p)
     | (target.Next, t, p) => (Nil, target.set_Cleared true t, p)
     end
   end).
Proof.
  intros Hgs Hc Hp Hcs Hpre Hlive p'.
  destruct (dummy_check_Execute get set cfg (ctx p1) (world p1) Hgs Hlive) as [He Hk].
  split; intros Hinv; rewrite Hinv in Hk; cbn [negb] in Hk.
  - by destruct (body_props.Run_check_failed t p p0 pre _ post t1 p1 _
                   Hc Hp Hcs Hpre He Hk) as [-> _].
  - pose proof (target_props.checks_loop_Next _ _ _ _ _ _ Hpre) as (-> & _ & _).
    rewrite (target_props.Run_reach_check _ _ _ _ _ _ _ _ Hc Hp Hcs Hpre).
    cbn [target.checks_loop]. cbn [ctx world emit]. rewrite He.
    cbn [set_world world]. rewrite Hk. cbn [negb]. done.
Qed.

End dummy.
End plugin_props.

(** ** The properties on the small instances *)
Module instances.
Import examples target duck.

Section checker.
Context {W : Type}.

(** A table that passes [ordered_by] is acyclic. *)
Lemma ordered_by_acyclic (order : list string) (T : gmap string (Target W)) :
  ordered_by order T = true → acyclic T.
Proof.
  unfold ordered_by. intros [[Hdom Hnd]%andb_prop Hall]%andb_prop.
  apply bool_decide_eq_true in Hdom, Hnd. rewrite forallb_forall in Hall.
  assert (∀ x y, tc (dep T) x y →
            ∃ i j, order !! i = Some x ∧ order !! j = Some y ∧ j < i) as Hrank.
  { assert (∀ x y, dep T x y →
              ∃ i j, order !! i = Some x ∧ order !! j = Some y ∧ j < i) as Hedge.
    { intros x y (t & Hx & Hy).
      assert (x ∈ order) as [i Hi]%list_elem_of_lookup.
      { apply elem_of_dom_2 in Hx. apply Hdom in Hx. by apply elem_of_list_to_set in Hx. }
      specialize (Hall i). rewrite Hi, Hx, forallb_forall in Hall.
      assert (bool_decide (y ∈ take i order) = true) as Hin.
      { apply Hall; [|by apply list_elem_of_In].
        apply in_seq. apply lookup_lt_Some in Hi. lia. }
      apply bool_decide_eq_true in Hin as [j Hj]%list_elem_of_lookup.
      apply lookup_take_Some in Hj as [Hj Hlt]. by exists i, j. }
    intros x y Hxy. induction Hxy as [x y Hxy|x z y Hxz _ IH]; [by apply Hedge|].
    destruct (Hedge x z Hxz) as (i & jz & Hi & Hjz & Hlt).
    destruct IH as (iz & j & Hiz & Hj & Hlt').
    rewrite (NoDup_lookup _ _ _ _ Hnd Hjz Hiz) in Hlt.
    exists i, j. split_and!; [done..|lia]. }
  intros x (i & j & Hi & Hj & Hlt)%Hrank.
  rewrite (NoDup_lookup _ _ _ _ Hnd Hi Hj) in Hlt. lia.
Qed.

End checker.

Example app_runs :
  ∃ L d p, RunTarget (depth_for ∅ app_table) "app" ∅ app_table fresh
             = Some (Nil, L, d, p) ∧
           bodies (events p) = ["util"; "lib"; "app"].
Proof. eexists _, _, _. split; vm_compute; reflexivity. Qed.

Example broken_aborts :
  ∃ L d p, RunTarget (depth_for ∅ broken_table) "top" ∅ broken_table fresh
             = Some (Error "boom", L, d, p) ∧
           bodies (events p) = ["broken"].
Proof. eexists _, _, _. split; vm_compute; reflexivity. Qed.

Example gated_stops :
  ∃ t p, target.Run gated fresh = (Nil, t, p) ∧ Cleared t = true ∧
         events p = [EvRun "gated"; EvCheck "gated" 0; EvCheck "gated" 1] ∧
         world p = 0.
Proof. eexists _, _. split_and!; vm_compute; reflexivity. Qed.

Example main_compiles :
  ∃ d p, CompileTargets world_env (NewDuck (config_of ["/main.duck"] "build")) fresh
           = (None, d, p) ∧
         (map_to_list (Duckfiles d)).*1 = ["file:///main.duck"; "file:///dep.duck"] ∧
         (map_to_list (Targets d)).*1 = ["build"; "lint"].
Proof. eexists _, _. split_and!; vm_compute; reflexivity. Qed.

Example clash_fails :
  ∃ d p, CompileTargets world_env
           (NewDuck (config_of ["/main.duck"; "/clash.duck"] "build")) fresh
           = (Some "failed to append target build: target build already exists", d, p).
Proof. eexists _, _. vm_compute. reflexivity. Qed.

Lemma app_table_acyclic : acyclic (Targets app_table).
Proof. apply (ordered_by_acyclic ["util"; "lib"; "app"]). vm_compute. reflexivity. Qed.

Lemma app_table_ids : ids_wf (Targets app_table).
Proof.
  apply (bool_decide_unpack (map_Forall (λ k t, Id t = k) (Targets app_table))).
  vm_compute. exact I.
Qed.

Lemma app_table_uncleared : uncleared (Targets app_table).
Proof.
  apply (bool_decide_unpack (map_Forall (λ k t, Cleared t = false) (Targets app_table))).
  vm_compute. exact I.
Qed.

(** [acyclic_run] on the table of [app], [lib] and [util]. *)
Lemma acyclic_run_witness :
  ∃ L' d' p' tr,
    RunTarget (depth_for ∅ app_table) "app" ∅ app_table fresh
      = Some (Nil, L', d', p') ∧
    events p' = events fresh ++ tr ∧
    NoDup (bodies tr) ∧
    (∀ y, rtc (dep (Targets app_table)) "app" y → y ∈ bodies tr) ∧
    before "util" "app" (bodies tr).
Proof.
  destruct (engine_props.acyclic_run app_table fresh "app"
              app_table_acyclic app_table_ids app_table_uncleared) as (_ & H & _).
  assert (∃ L' d' p', RunTarget (depth_for ∅ app_table) "app" ∅ app_table fresh
                      = Some (Nil, L', d', p')) as (L' & d' & p' & Hrun).
  { eexists _, _, _. vm_compute. reflexivity. }
  destruct (H 3 Nil L' d' p' Hrun) as (tr & Hev & Hnd & _ & Hnil).
  destruct (Hnil eq_refl) as (Hall & Hbefore & _).
  exists L', d', p', tr. split_and!; [exact Hrun|exact Hev|exact Hnd|exact Hall|].
  apply Hbefore; [apply rtc_refl|]. apply tc_once.
  eexists. split; [vm_compute; reflexivity|]. simpl. repeat constructor.
Defined.

(** [check_error_fatal_action_error_policy] on a check that breaks, under a
    target that depends on it, and on an action that fails. *)
Lemma check_error_witness :
  (∃ p', target.Run broken fresh = (Error "boom", broken, p')) ∧
  (∃ L d p, RunTarget 2 "broken" ∅ broken_table fresh = Some (Error "boom", L, d, p)) ∧
  (∃ L d p, RunTarget 3 "top" ∅ broken_table fresh = Some (Error "boom", L, d, p)) ∧
  (∃ d p, duck.Run world_env broken_table fresh = Some (Error "boom", d, p)) ∧
  (∃ p', target.Run failing_action fresh
         = (Nil, set_Cleared true failing_action, p')).
Proof.
  destruct (engine_props.check_error_fatal_action_error_policy (W:=nat))
    as (H1 & H2 & H3 & H4 & H5).
  split_and!.
  - eexists. by eapply (H1 broken fresh fresh [] _ []).
  - eexists _, _, _.
    eapply (H2 1 "broken" ∅ broken_table fresh fresh);
      [reflexivity|vm_compute; reflexivity|set_solver|reflexivity|reflexivity
      |vm_compute; reflexivity|vm_compute; reflexivity].
  - eexists _, _, _.
    eapply (H3 2 "top" ∅ broken_table fresh fresh _ []);
      [reflexivity|vm_compute; reflexivity|set_solver|reflexivity|reflexivity
      |reflexivity|vm_compute; reflexivity].
  - eexists _, _.
    eapply (H4 world_env broken_table fresh fresh);
      [reflexivity|reflexivity|reflexivity|vm_compute; reflexivity].
  - eexists.
    by eapply (H5 failing_action fresh fresh _ _ []
                  (action_of (Some "refused") action_default) [] _ _ "refused" 1).
Defined.

(** [check_soft_stop] on the target whose second check fails with an
    item-level [cancelOnFailure = false] under [cancelOnCheckFailure = true]. *)
Lemma check_soft_stop_witness :
  ∃ p', target.Run gated fresh = (Nil, set_Cleared true gated, p') ∧
        world p' = 0 ∧
        events p' = [EvRun "gated"; EvCheck "gated" 0; EvCheck "gated" 1].
Proof.
  by eapply (target_props.check_soft_stop gated fresh fresh
               [check_of None true no_override] (check_of None false never_cancel)
               [check_of None true no_override]).
Defined.

(** [two_cycle] on [ping] and [pong]. *)
Lemma two_cycle_witness :
  ∃ o L' d' p' tr,
    RunTarget (depth_for ∅ cycle_table) "ping" ∅ cycle_table fresh
      = Some (o, L', d', p') ∧
    events p' = events fresh ++ tr ∧
    (o = Nil → bodies tr = ["pong"; "ping"]) ∧
    (bodies tr = ["pong"; "ping"] ∨ bodies tr = ["pong"] ∨ bodies tr = []).
Proof.
  eapply (engine_props.two_cycle cycle_table fresh "ping" "pong");
    [done|vm_compute; reflexivity|vm_compute; reflexivity|reflexivity..].
Defined.

Example cycle_runs :
  ∃ L d p, RunTarget (depth_for ∅ cycle_table) "ping" ∅ cycle_table fresh
             = Some (Nil, L, d, p) ∧
           bodies (events p) = ["pong"; "ping"].
Proof. eexists _, _, _. split; vm_compute; reflexivity. Qed.



(** [missing_object_contributes_nothing] on the empty object store. *)
Lemma missing_object_witness :
  GetDuckfiles world_env "s3://bucket/conf/app.duck" fresh = (Ok [], fresh) ∧
  CompileTargets_files world_env ["s3://bucket/conf/app.duck"; "/main.duck"]
                       (NewDuck (config_of [] "build")) fresh
  = CompileTargets_files world_env ["/main.duck"]
                         (NewDuck (config_of [] "build")) fresh.
Proof.
  destruct (resolver_props.missing_object_contributes_nothing world_env
              "s3://bucket/conf/app.duck" ["/main.duck"]
              (NewDuck (config_of [] "build")) fresh fresh fresh
              object_url empty_bucket) as (_ & Hget & Hgo);
    [reflexivity|reflexivity|reflexivity|by left|reflexivity|reflexivity
    |reflexivity|done|reflexivity|].
  split; [exact Hget|exact Hgo].
Defined.

(** [duplicate_target_is_fatal] on two documents that declare [build], and
    on the documents of [main_compiles]. *)
Lemma duplicate_target_witness :
  (∃ d p, duck.Run world_env
            (NewDuck (config_of ["/main.duck"; "/clash.duck"] "build")) fresh
          = Some (Error "failed to append target build: target build already exists",
                  d, p) ∧ events p = []) ∧
  (main_compiled.1.1 = None ∧
   ∀ s, Duckfiles main_compiled.1.2 !! s = Some dep_url →
        defines world_env dep_url "lint" →
        s = "file:///dep.duck" ∧ is_Some (Targets main_compiled.1.2 !! "lint")).
Proof.
  destruct (resolver_props.duplicate_target_is_fatal world_env) as (_ & _ & H3 & H4).
  split.
  - eexists _, _.
    eapply (H4 (NewDuck (config_of ["/main.duck"; "/clash.duck"] "build")) fresh fresh);
      [reflexivity|vm_compute; reflexivity].
  - split; [vm_compute; reflexivity|].
    intros s Hs Hdef.
    assert (CompileTargets world_env (NewDuck (config_of ["/main.duck"] "build")) fresh
            = (None, main_compiled.1.2, main_compiled.2)) as Hc
      by (vm_compute; reflexivity).
    assert (Duckfiles main_compiled.1.2 !! "file:///dep.duck" = Some dep_url) as Hd
      by (vm_compute; reflexivity).
    exact (H3 _ _ _ _ Hc s dep_url _ dep_url "lint" Hs Hd Hdef Hdef).
Defined.


(** [daemon_deadline] on the daemon of [daemon_config], whose runs take one
    second each: it returns at the deadline. *)
Lemma daemon_deadline_witness :
  ∃ o s', cmd.DefaultApp world_env daemon_config
            (replicate 5 (quiet cmd.Second)) 100 fresh = Some (Some o, s') ∧
          (0 ≤ cmd.slept s' ≤ 10 * cmd.Second)%Z ∧ (cmd.armed s' ≤ 1)%nat.
Proof.
  destruct (daemon_props.daemon_deadline world_env daemon_config
              (replicate 5 (quiet cmd.Second)) 100%Z fresh)
    as (_ & Hinv & _ & _ & _ & Hret); [reflexivity|reflexivity| |].
  { intros tk ->%elem_of_replicate_inv. vm_compute. discriminate. }
  destruct Hret as (o & s' & Hrun); [vm_compute; reflexivity..|].
  exists o, s'. split; [exact Hrun|].
  destruct (Hinv _ _ Hrun) as (Harmed & Hslept & _). split; [exact Hslept|exact Harmed].
Defined.

Example daemon_returns_at_deadline :
  ∃ s', cmd.DefaultApp world_env daemon_config
          (replicate 5 (quiet cmd.Second)) 100 fresh = Some (Some Nil, s') ∧
        cmd.now s' = (100 + 11 * cmd.Second)%Z ∧
        cmd.slept s' = (8 * cmd.Second)%Z ∧ cmd.iterationCount s' = 2%Z.
Proof. eexists. split_and!; vm_compute; reflexivity. Qed.

(** The deadline does not wait for the daemon to have slept for [T]
    seconds: when every run takes 20 seconds, the daemon of [daemon_config],
    with a timeout of 10 seconds, returns in its second pass, after it has
    slept for 3 seconds in all. *)
Lemma deadline_is_not_on_sleep_time :
  ¬ cmd.deadline_on_sleep_time world_env daemon_config.
Proof.
  intros H.
  assert (∃ s', cmd.DefaultApp world_env daemon_config
                  (replicate 3 (quiet (20 * cmd.Second))) 100 fresh
                = Some (Some Nil, s') ∧
                cmd.slept s' = (3 * cmd.Second)%Z ∧ cmd.iterationCount s' = 1%Z)
    as (s' & Hrun & Hsl & Hit) by (eexists; split_and!; vm_compute; reflexivity).
  assert (cmd.seconds (duck.DaemonTimeout daemon_config) ≤ cmd.slept s')%Z as Hle.
  { apply (H (replicate 3 (quiet (20 * cmd.Second))) 100%Z fresh s').
    - reflexivity.
    - vm_compute. split; [reflexivity|discriminate].
    - reflexivity.
    - intros tk ->%elem_of_replicate_inv. split; [reflexivity|vm_compute; discriminate].
    - exact Hrun.
    - intros [Hn _]. vm_compute in Hn. discriminate. }
  rewrite Hsl in Hle. vm_compute in Hle. by apply Hle.
Qed.

(** *** Witnesses of the further properties *)

Lemma Run_settles_witness :
  ∃ p', target.Run step fresh = (Nil, set_Cleared true step, p') ∧
        ∀ q, target.Run (set_Cleared true step) q = (Nil, set_Cleared true step, q).
Proof.
  eexists. split; [vm_compute; reflexivity|].
  eapply (body_props.Run_settles step fresh Nil (set_Cleared true step)).
  - vm_compute. reflexivity.
  - reflexivity.
Defined.

Lemma check_failure_policy_witness :
  ∃ p', target.Run refusing fresh = (Error "check failed, cancelling run", refusing, p') ∧
        events p' = [EvRun "refusing"; EvCheck "refusing" 0].
Proof.
  eexists. eapply (body_props.check_failure_policy refusing fresh fresh []
                     (check_of None false no_override) []); reflexivity.
Defined.

Lemma actions_need_all_checks_witness :
  ∃ w1, target.checks_pass (ctx fresh) (Checks sincere) (world fresh) = Some w1.
Proof.
  destruct (body_props.actions_need_all_checks sincere fresh Nil
              (set_Cleared true sincere)
              {| ctx := None; world := 2;
                 events := [EvRun "sincere"; EvCheck "sincere" 0;
                            EvAction "sincere" 0] |}
              [EvRun "sincere"; EvCheck "sincere" 0; EvAction "sincere" 0] 0)
    as (p0 & w1 & rest & _ & Hp & _ & Hpass & _).
  - vm_compute. reflexivity.
  - reflexivity.
  - set_solver.
  - vm_compute in Hp. injection Hp as <-. exists w1. exact Hpass.
Defined.

Lemma Run_all_pass_witness :
  ∃ p', target.Run sincere fresh = (Nil, set_Cleared true sincere, p') ∧
        world p' = 2 ∧ ctx p' = None ∧
        events p' = [EvRun "sincere"; EvCheck "sincere" 0; EvAction "sincere" 0].
Proof.
  eapply (body_props.Run_all_pass sincere fresh fresh 1 2); reflexivity.
Defined.

Lemma finished_target_witness :
  ∃ L' d' p',
    RunTarget 2 "step" ∅ single_table fresh = Some (Nil, L', d', p') ∧
    cleared_in (Targets d') "step" ∧
    RunTarget 2 "step" ∅ d' p' = Some (Nil, ∅, d', p').
Proof.
  assert (∃ L' d' p', RunTarget 2 "step" ∅ single_table fresh = Some (Nil, L', d', p'))
    as (L' & d' & p' & Hrun) by (eexists _, _, _; vm_compute; reflexivity).
  exists L', d', p'. split; [exact Hrun|].
  destruct (walk_props.finished_target_is_skipped 2 "step" ∅ single_table fresh
              L' d' p' Hrun) as [Hc Hnext]; [set_solver|].
  split; [exact Hc|].
  assert (p' = {| ctx := None; world := 1;
                  events := [EvRun "step"; EvCheck "step" 0; EvAction "step" 0] |})
    as Hp' by (vm_compute in Hrun; congruence).
  apply (Hnext 1 ∅ p' p'). rewrite Hp'. reflexivity.
Defined.

Lemma RunTarget_keeps_table_witness :
  ∃ L' d' p',
    RunTarget 4 "app" ∅ app_table fresh = Some (Nil, L', d', p') ∧
    dom (Targets d') = dom (Targets app_table).
Proof.
  assert (∃ L' d' p', RunTarget 4 "app" ∅ app_table fresh = Some (Nil, L', d', p'))
    as (L' & d' & p' & Hrun) by (eexists _, _, _; vm_compute; reflexivity).
  exists L', d', p'. split; [exact Hrun|].
  by destruct (walk_props.RunTarget_keeps_table 4 "app" ∅ app_table fresh Nil
                 L' d' p' Hrun) as (_ & _ & ? & _).
Defined.

Lemma missing_dependency_witness :
  ∃ L1 d1 p2,
    RunTarget 3 "top" ∅ dangling_table fresh
      = Some (Error "target ghost not found", L1, d1, p2) ∧
    bodies (events p2) = ["step"].
Proof.
  destruct (walk_props.missing_dependency_aborts (W:=nat)) as [_ H].
  assert (∃ L1 d1 p1,
             RunTarget_deps (RunTarget 2) ["step"] ({["top"]} ∪ ∅) dangling_table fresh
             = Some (Nil, L1, d1, p1) ∧ bodies (events p1) = ["step"] ∧ ctx p1 = None)
    as (L1 & d1 & p1 & Hdeps & Hb & Hc).
  { eexists _, _, _. split_and!; vm_compute; reflexivity. }
  exists L1, d1, p1.
  destruct (H 1 "top" ∅ dangling_table fresh fresh
              (target_of "top" [] [action_of None action_default] no_policy
                         ["step"; "ghost"])
              ["step"] "ghost" [] L1 d1 p1 p1) as (Hrun & _ & _).
  - reflexivity.
  - vm_compute. reflexivity.
  - set_solver.
  - reflexivity.
  - reflexivity.
  - exact Hdeps.
  - vm_compute. reflexivity.
  - by apply engine_props.poll_never.
  - split; [exact Hrun|exact Hb].
Defined.

Lemma cycle_table_ids : ids_wf (Targets cycle_table).
Proof.
  apply (bool_decide_unpack (map_Forall (λ k t, Id t = k) (Targets cycle_table))).
  vm_compute. exact I.
Qed.

Lemma cycle_table_uncleared : uncleared (Targets cycle_table).
Proof.
  apply (bool_decide_unpack (map_Forall (λ k t, Cleared t = false) (Targets cycle_table))).
  vm_compute. exact I.
Qed.

Lemma every_reachable_target_witness :
  ∃ L' d' p' tr,
    RunTarget 3 "ping" ∅ cycle_table fresh = Some (Nil, L', d', p') ∧
    events p' = events fresh ++ tr ∧ NoDup (bodies tr) ∧
    "pong" ∈ bodies tr ∧ cleared_in (Targets d') "pong".
Proof.
  assert (∃ L' d' p', RunTarget 3 "ping" ∅ cycle_table fresh = Some (Nil, L', d', p'))
    as (L' & d' & p' & Hrun) by (eexists _, _, _; vm_compute; reflexivity).
  destruct (walk_props.every_reachable_target_runs 3 cycle_table fresh "ping" L' d' p'
              cycle_table_ids cycle_table_uncleared Hrun) as (tr & Hev & Hnd & Hall).
  exists L', d', p', tr. split_and!; [exact Hrun|exact Hev|exact Hnd|..];
    apply Hall; apply rtc_once; eexists; (split; [vm_compute; reflexivity|]); set_solver.
Defined.


Lemma documents_load_once_witness :
  CompileTargets world_env main_compiled.1.2 fresh
  = (None, main_compiled.1.2, fresh) ∧
  CompileTargets_files world_env ["/main.duck"; "/main.duck"]
                       (NewDuck (config_of [] "build")) fresh
  = CompileTargets_files world_env ["/main.duck"]
                         (NewDuck (config_of [] "build")) fresh.
Proof.
  destruct (compile_props.documents_load_once world_env) as [H1 H2]. split.
  - apply (H1 (NewDuck (config_of ["/main.duck"] "build")) fresh
              main_compiled.1.2 main_compiled.2 fresh); [|reflexivity].
    vm_compute. reflexivity.
  - apply (H2 "/main.duck" [] (NewDuck (config_of [] "build")) fresh). reflexivity.
Defined.

Lemma handleFileURL_expands_witness :
  handleFileURL site_env conf_url fresh
  = (Ok [ {| Scheme := "file"; Host := ""; Path := "/conf/a.duck"; RawQuery := "" |};
          {| Scheme := "file"; Host := ""; Path := "/conf/Duckfile"; RawQuery := "" |} ],
     fresh).
Proof.
  destruct (compile_props.handleFileURL_expands site_env conf_url fresh fresh eq_refl)
    as (_ & H & _).
  exact (H [("a.duck", false); ("old.duck", true); ("notes.txt", false);
            ("Duckfile", false)] eq_refl eq_refl).
Defined.

Lemma handleCloudURL_lists_witness :
  handleCloudURL site_env store_url "s3://store/conf/" fresh
  = (Ok [ {| Scheme := "s3"; Host := "store"; Path := "/conf/a.duck"; RawQuery := "" |};
          {| Scheme := "s3"; Host := "store"; Path := "/conf/b.duck.yaml";
             RawQuery := "" |} ],
     fresh).
Proof.
  destruct (compile_props.handleCloudURL_lists site_env store_url "s3://store/conf/"
              fresh fresh listing_bucket eq_refl eq_refl eq_refl) as [H _].
  exact (H ["conf/a.duck"; "conf/readme.md"; "conf/b.duck.yaml"] eq_refl).
Defined.

Lemma expansion_is_loadable_witness :
  (∀ q, LoadDuckfile_switch site_env main_url q = loadFileURL site_env main_url q) ∧
  GetDuckfiles site_env "ftp://host/x.duck" fresh
  = (Err "unsupported URL scheme: ftp", fresh).
Proof.
  destruct (compile_props.expansion_is_loadable site_env) as [H1 H2]. split.
  - destruct (H1 "/main.duck" fresh [main_url] fresh main_url)
      as [[_ H]|[[[H|H] _]|[[H|[H|H]] _]]]; try discriminate H.
    + vm_compute. reflexivity.
    + set_solver.
    + exact H.
  - apply (H2 "ftp://host/x.duck" fresh fresh ftp_url); [reflexivity..|].
    cbn. set_solver.
Defined.

Lemma list_mode_witness :
  ∃ d' p', duck.Run world_env (NewDuck list_config) fresh = Some (Nil, d', p') ∧
           world p' = 0 ∧ uncleared (Targets d') ∧
           ∃ ids, events p' = EvPrintln <$> ids ∧ NoDup ids ∧
                  ∀ k, k ∈ ids ↔ is_Some (Targets d' !! k).
Proof.
  assert (∃ d' p', duck.Run world_env (NewDuck list_config) fresh = Some (Nil, d', p'))
    as (d' & p' & Hrun) by (eexists _, _; vm_compute; reflexivity).
  exists d', p'. split; [exact Hrun|].
  destruct (compile_props.list_mode_runs_nothing world_env (NewDuck list_config) fresh
              Nil d' p' eq_refl Hrun) as (Hw & _ & _ & Hun & Hids).
  split; [exact Hw|]. split; [|exact Hids].
  apply Hun; [by intros cx k t [= <-]|by intros k t].
Defined.

Lemma compiled_table_witness :
  ids_wf (Targets main_compiled.1.2) ∧ uncleared (Targets main_compiled.1.2).
Proof.
  destruct (compile_props.compiled_table_is_well_formed world_env
              (config_of ["/main.duck"] "build") fresh
              main_compiled.1.1 main_compiled.1.2 main_compiled.2) as [H1 H2].
  - vm_compute. reflexivity.
  - split.
    + apply H1. intros cx k name t [= <-]. reflexivity.
    + apply H2. intros cx k t [= <-]. reflexivity.
Defined.


Lemma main_runs (konfig : duck.Config) :
  duck.Files konfig = ["/main.duck"] → duck.ListTargets_ konfig = false →
  duck.Target_ konfig = "build" →
  ∀ q : Proc nat, ctx q = None →
    ∃ d' q', duck.Run world_env (NewDuck konfig) q = Some (Nil, d', q').
Proof.
  destruct konfig as [fs lt tg dm di dn dt]. cbn. intros -> -> ->.
  intros [c w ev]. cbn. intros ->. eexists _, _. vm_compute. reflexivity.
Qed.

Lemma daemon_iteration_limit_witness :
  (∃ s', cmd.DefaultApp world_env limited_config (replicate 2 (quiet 1)) 100 fresh
         = Some (None, s') ∧ cmd.running s' = true ∧ cmd.iterationCount s' = 2%Z) ∧
  (∃ s', cmd.DefaultApp world_env limited_config (replicate 5 (quiet 1)) 100 fresh
         = Some (Some Nil, s') ∧ cmd.iterationCount s' = 3%Z).
Proof.
  split.
  - destruct (loop_props.daemon_iteration_limit world_env limited_config
                (replicate 2 (quiet 1)) 100%Z fresh) as [H _];
      [reflexivity|cbn; lia|cbn; lia|by apply main_runs| |reflexivity|].
    { by intros tk ->%elem_of_replicate_inv. }
    apply H. cbn. lia.
  - destruct (loop_props.daemon_iteration_limit world_env limited_config
                (replicate 5 (quiet 1)) 100%Z fresh) as [_ H];
      [reflexivity|cbn; lia|cbn; lia|by apply main_runs| |reflexivity|].
    { by intros tk ->%elem_of_replicate_inv. }
    apply H. cbn. lia.
Defined.

Lemma daemon_without_limits_witness :
  ∃ s', cmd.DefaultApp world_env endless_config (replicate 7 (quiet 1)) 100 fresh
        = Some (None, s') ∧ cmd.running s' = true ∧ cmd.iterationCount s' = 7%Z.
Proof.
  apply (loop_props.daemon_without_limits_goes_on world_env endless_config
           (replicate 7 (quiet 1)) 100%Z fresh);
    [reflexivity|cbn; lia|cbn; lia|by apply main_runs| |reflexivity].
  by intros tk ->%elem_of_replicate_inv.
Defined.

Lemma one_shot_witness :
  ∃ o d' p1 s',
    duck.Run world_env (NewDuck (config_of ["/main.duck"] "build")) fresh
      = Some (o, d', p1) ∧
    cmd.DefaultApp world_env (config_of ["/main.duck"] "build")
                   (quiet 1 :: replicate 3 (quiet 1)) 100 fresh = Some (Some o, s') ∧
    cmd.proc s' = p1 ∧ cmd.iterationCount s' = 0%Z ∧ cmd.slept s' = 0%Z ∧
    cmd.timeoutCh s' = None.
Proof.
  apply (loop_props.one_shot_runs_once world_env (config_of ["/main.duck"] "build")
           (quiet 1) (replicate 3 (quiet 1)) 100%Z fresh fresh); reflexivity.
Defined.

Lemma interrupt_outcomes_witness :
  ∃ s', cmd.DefaultApp world_env limited_config [interrupted 1] 100 fresh
        = Some (Some Nil, s') ∧
        cmd.iterationCount s' = 0%Z ∧ (cmd.now s' ≤ 100 + 1 + 1)%Z ∧ (cmd.slept s' ≤ 1)%Z.
Proof.
  destruct (loop_props.interrupt_outcomes world_env limited_config (interrupted 1) []
              100%Z fresh) as (_ & _ & H & _).
  destruct (main_runs limited_config eq_refl eq_refl eq_refl fresh eq_refl)
    as (d' & p1 & Hrun).
  apply (H fresh d' p1 1%Z); [reflexivity|exact Hrun|reflexivity|cbn; lia|reflexivity|].
  split; [lia|vm_compute; reflexivity].
Defined.

Lemma NewTarget_loads_in_order_witness :
  ∃ t', target.NewTarget doc_loaders None good_doc = Ok t' ∧
        length (Checks t') = 2 ∧ length (Actions t') = 1 ∧ Id t' = "doc".
Proof.
  assert (∃ t', target.NewTarget doc_loaders None good_doc = Ok t') as [t' Ht]
    by (eexists; vm_compute; reflexivity).
  exists t'. split; [exact Ht|].
  destruct (hydrate_props.NewTarget_loads_in_order doc_loaders None good_doc t' Ht)
    as (t0 & cs & acts & Hl & Hcs & Hacts & -> & -> & -> & _).
  injection Hl as <-. apply Forall2_length in Hcs, Hacts.
  cbn in *. rewrite <- Hcs, <- Hacts. done.
Defined.

Lemma NewTarget_fails_witness :
  target.NewTarget doc_loaders None bad_doc = Err "unknown action type: file".
Proof.
  destruct (hydrate_props.NewTarget_fails_as_a_whole doc_loaders) as (_ & H & _ & _ & Hf).
  apply (H None bad_doc (target_of "doc" [] [] no_policy []) [Entry "dummy"]
           (Entry "file") []).
  - reflexivity.
  - repeat constructor. by eexists.
  - reflexivity.
  - repeat constructor. by eexists.
  - by apply Hf.
Defined.

Lemma files_os_read_after_write path data (fs fs' : gmap string string) :
  os.WriteFile files_os path data fs = (None, fs') →
  os.ReadFile files_os path fs' = Ok data.
Proof. cbn. intros [= <-]. by rewrite lookup_insert_eq. Qed.

Lemma files_os_read_after_remove path (fs : gmap string string) e fs' :
  os.Remove files_os path fs = (e, fs') →
  (∀ x, e = Some x → os.IsNotExist files_os x = true) →
  ∃ e', os.ReadFile files_os path fs' = Err e' ∧ os.IsNotExist files_os e' = true.
Proof.
  cbn. destruct (fs !! path) eqn:E; intros [= <- <-] _.
  - rewrite lookup_delete_eq. by eexists.
  - rewrite E. by eexists.
Qed.

Lemma state_round_trip_witness :
  ∃ fs' c',
    localstateaction.Execute files_os (set_state "done" false) None ∅ = (None, fs') ∧
    localstatecheck.Execute files_os (state_is ["pending"; "done"]) None fs' = (None, c') ∧
    localstatecheck.Check c' = true.
Proof.
  assert (∃ fs', localstateaction.Execute files_os (set_state "done" false) None ∅
                 = (None, fs')) as [fs' Ha] by (eexists; vm_compute; reflexivity).
  destruct (plugin_props.state_round_trip files_os (set_state "done" false)
              (state_is ["pending"; "done"]) None None ∅ fs'
              files_os_read_after_write eq_refl Ha eq_refl eq_refl eq_refl eq_refl)
    as (c' & Hc & Hcfg & Hst).
  exists fs', c'. split_and!; [exact Ha|exact Hc|].
  unfold localstatecheck.Check. rewrite Hcfg, Hst. reflexivity.
Defined.

Lemma wiped_state_witness :
  ∃ fs',
    localstateaction.Execute files_os (set_state "" true) None
                             {["/var/lib/duck/states/_localstate_deploy" := "done"]}
      = (None, fs') ∧
    localstatecheck.Execute files_os (state_is []) None fs'
      = (None, localstatecheck.set_Status true (state_is [])) ∧
    ∃ e, localstatecheck.Execute files_os (state_is ["done"]) None fs'
         = (Some (wrap "failed to read state file /var/lib/duck/states/_localstate_deploy" e),
            state_is ["done"]).
Proof.
  assert (∃ fs', localstateaction.Execute files_os (set_state "" true) None
                   {["/var/lib/duck/states/_localstate_deploy" := "done"]}
                 = (None, fs')) as [fs' Ha] by (eexists; vm_compute; reflexivity).
  exists fs'. split; [exact Ha|]. split.
  - by apply (plugin_props.wiped_state_is_null_state files_os (set_state "" true)
                (state_is []) None None _ fs' files_os_read_after_remove eq_refl Ha
                eq_refl eq_refl eq_refl eq_refl).
  - by apply (plugin_props.wiped_state_is_null_state files_os (set_state "" true)
                (state_is ["done"]) None None _ fs' files_os_read_after_remove eq_refl Ha
                eq_refl eq_refl eq_refl eq_refl).
Defined.

Lemma odd_get_set b w : odd_get (odd_set b w) = b.
Proof.
  unfold odd_get, odd_set. destruct (Bool.eqb (Nat.odd w) b) eqn:E.
  - by apply Bool.eqb_prop in E.
  - rewrite Nat.odd_succ, <- Nat.negb_odd. destruct (Nat.odd w), b; done.
Qed.

Lemma inverted_check_witness :
  ∃ p', target.Run contrary fresh
        = (Error "check failed, cancelling run", contrary, p') ∧
        events p' = [EvRun "contrary"; EvCheck "contrary" 0].
Proof.
  eexists. split.
  - eapply (plugin_props.inverted_check_fails contrary fresh fresh [] []
              contrary _ odd_get odd_set inverted odd_get_set); reflexivity.
  - reflexivity.
Defined.

End instances.
